(** * The two notebooks of the repository, embedded and verified

    [Notebooks/sql_project_chinook.ipynb] runs SQL queries on the Chinook
    SQLite database; [Notebooks/crime_report_database.ipynb] is a linear
    psycopg2 script that provisions a Postgres database from [boston.csv].

    The SQL queries are embedded as list programs over the tables they read
    (one Rocq definition per CTE, view or SELECT, built from the operators of
    module [Sql]); the Python cells are embedded as programs of a small state
    and exception monad over the driver calls they make.

    Numbers.  SQL integers are [Z]; SQLite raises on 64 bit overflow of a
    [SUM], which is outside this model: the theorems that depend on a sum of
    integers bound it.  SQLite's REAL is IEEE binary64: the queries only add,
    multiply, divide, cast and round such values, and the embedding takes
    these operations from the interface [Real64] without fixing how they
    round; [Binary64.binary64] is the instance that rounds as binary64
    does. *)

From Stdlib Require Import ZArith String Ascii List Sorting.Sorted Permutation Lia.
From Stdlib Require Import Floats.SpecFloat.
From stdpp Require Import base tactics option list sorting strings gmap.

#[local] Set Warnings "-clear-no-such-hyp".
Local Open Scope string_scope.
Local Open Scope Z_scope.
Disable Notation "x ++ y" : string_scope.

(** ** SQLite's REAL as an interface *)

Class Real64 := {
  real : Type;
  real_eq_dec :: EqDecision real;
  (** the literal [0.0], the start value of [SUM] over reals *)
  r_zero : real;
  r_add : real → real → real;
  r_mul : real → real → real;
  (** [x / y]: SQLite yields NULL when the divisor is zero *)
  r_div : real → real → option real;
  (** [CAST(n AS float)] *)
  r_of_int : Z → real;
  (** [CAST(x AS int)] *)
  r_to_int : real → Z;
  (** [ROUND(x, d)] *)
  r_round : Z → real → real;
  (** the order used by ORDER BY *)
  r_leb : real → real → bool;
  (** binary64 represents every integer up to [2^53] exactly *)
  r_to_int_of_int : ∀ z, Z.abs z ≤ 2 ^ 53 → r_to_int (r_of_int z) = z
}.

(** An executable instance: decimal fixed point with four fractional digits,
    the integer [x] standing for [x / 10^4].  It runs the queries on sample
    tables; no theorem about the queries depends on it. *)
Module Decimal4.

Definition scale : Z := 10000.

Definition mul (x y : Z) : Z := (x * y) ÷ scale.

Definition div (x y : Z) : option Z :=
  if bool_decide (y = 0) then None else Some ((x * scale) ÷ y).

Definition of_int (z : Z) : Z := z * scale.

Definition to_int (x : Z) : Z := x ÷ scale.

(** Round half away from zero to [d] fractional digits. *)
Definition round (d x : Z) : Z :=
  if bool_decide (4 ≤ d) then x
  else let unit := 10 ^ (4 - d) in
       Z.sgn x * ((Z.abs x + unit / 2) / unit) * unit.

Lemma to_int_of_int z : Z.abs z ≤ 2 ^ 53 → to_int (of_int z) = z.
Proof. intros _. unfold to_int, of_int, scale. by apply Z.quot_mul. Qed.

Definition decimal4 : Real64 :=
  {| real := Z; r_zero := 0; r_add := Z.add; r_mul := mul; r_div := div;
     r_of_int := of_int; r_to_int := to_int; r_round := round;
     r_leb := Z.leb; r_to_int_of_int := to_int_of_int |}.

End Decimal4.

(** The instance that computes as SQLite does: IEEE binary64, in the
    specification of the floating point numbers of the Standard Library
    (a sign, a mantissa of up to 53 bits and an exponent; sums, products and
    quotients rounded to the nearest value, ties to even). *)
Module Binary64.

Definition prec : Z := 53.
Definition emax : Z := 1024.

#[global] Instance spec_float_eq_dec : EqDecision spec_float.
Proof. solve_decision. Defined.

(** [CAST(n AS float)]: the nearest binary64. *)
Definition of_int (z : Z) : spec_float := binary_normalize prec emax z 0 false.

(** [CAST(x AS int)]: toward zero, and the nearest end of the 64 bit range
    for a value outside it. *)
Definition to_int (x : spec_float) : Z :=
  match x with
  | S754_finite s m e =>
      let n := if bool_decide (e < 0) then Zpos m / 2 ^ (- e)
               else Zpos m * 2 ^ e in
      if bool_decide (2 ^ 63 ≤ n) then (if s then - 2 ^ 63 else 2 ^ 63 - 1)
      else cond_Zopp s n
  | S754_infinity s => if s then - 2 ^ 63 else 2 ^ 63 - 1
  | _ => 0
  end.

Definition is_zero (x : spec_float) : bool :=
  match x with
  | S754_zero _ => true
  | _ => false
  end.

Definition div (x y : spec_float) : option spec_float :=
  if is_zero y then None else Some (SFdiv prec emax x y).

(** [ROUND(x, d)] for [d] from 0 to 30.  A value without fractional part is
    its own rounding; otherwise [x * 10^d] is rounded to the nearest integer
    [n], half away from zero, and the result is the binary64 nearest to
    [n / 10^d].  SQLite goes through the decimal digits of [x]; the two agree
    unless [x * 10^d] is within a rounding error of a half. *)
Definition round (d : Z) (x : spec_float) : spec_float :=
  match x with
  | S754_finite s m e =>
      if bool_decide (0 ≤ e) then x
      else
        let p := 10 ^ Z.min 30 (Z.max 0 d) in
        let n := (2 * (Zpos m * p) + 2 ^ (- e)) / (2 * 2 ^ (- e)) in
        SFdiv prec emax (binary_normalize prec emax (cond_Zopp s n) 0 s)
          (of_int p)
  | _ => x
  end.

(** An amount given in hundredths, as the literal [n / 100.0]. *)
Definition hundredths (n : Z) : spec_float :=
  SFdiv prec emax (of_int n) (of_int 100).










End Binary64.

(** ** SQL operators on lists of rows *)

Module Sql.

(** Three valued logic: [None] is NULL (unknown). *)
Definition sql_eq {A} `{EqDecision A} (x y : option A) : option bool :=
  match x, y with
  | Some a, Some b => Some (bool_decide (a = b))
  | _, _ => None
  end.

Definition sql_ne {A} `{EqDecision A} (x y : option A) : option bool :=
  negb <$> sql_eq x y.

Definition sql_and (p q : option bool) : option bool :=
  match p, q with
  | Some false, _ | _, Some false => Some false
  | Some true, Some true => Some true
  | _, _ => None
  end.

Definition sql_or (p q : option bool) : option bool :=
  match p, q with
  | Some true, _ | _, Some true => Some true
  | Some false, Some false => Some false
  | _, _ => None
  end.

(** WHERE, HAVING and ON keep a row only when the condition is true. *)
Definition holds (c : option bool) : Prop := c = Some true.

#[global] Instance holds_dec c : Decision (holds c).
Proof. unfold holds. apply _. Defined.

(** [l INNER JOIN r ON on]: nested loop, left rows outermost. *)
Definition inner_join {A B} (on : A → B → option bool)
    (l : list A) (r : list B) : list (A * B) :=
  a ← l; (λ b, (a, b)) <$> filter (λ b, holds (on a b)) r.

(** [l LEFT JOIN r ON on]: a left row without partner is kept once, with
    NULLs on the right. *)
Definition left_join {A B} (on : A → B → option bool)
    (l : list A) (r : list B) : list (A * option B) :=
  a ← l;
  match filter (λ b, holds (on a b)) r with
  | [] => [(a, None)]
  | bs => (λ b, (a, Some b)) <$> bs
  end.

(** GROUP BY: one group per distinct key (NULL keys form one group), the rows
    of a group in the order of the input. *)
Definition group_by {A K} `{EqDecision K} (key : A → K)
    (l : list A) : list (K * list A) :=
  (λ k, (k, filter (λ a, key a = k) l)) <$> remove_dups (key <$> l).

(** The non-NULL values of a column. *)
Definition non_null {A} (col : list (option A)) : list A := omap id col.

(** [COUNT(x)]: the number of non-NULL values. *)
Definition count {A} (col : list (option A)) : Z :=
  Z.of_nat (length (non_null col)).

(** [COUNT(DISTINCT x)] *)
Definition count_distinct {A} `{EqDecision A} (col : list (option A)) : Z :=
  Z.of_nat (length (remove_dups (non_null col))).

(** [SUM(x)] over integers: NULL when there is no non-NULL value. *)
Definition sum_int (col : list (option Z)) : option Z :=
  match non_null col with
  | [] => None
  | xs => Some (foldr Z.add 0 xs)
  end.

(** [SUM(x)] over reals: starts at [0.0] and adds the values in row order. *)
Definition sum_real `{Real64} (col : list (option real)) : option real :=
  match non_null col with
  | [] => None
  | xs => Some (fold_left r_add xs r_zero)
  end.

(** [MAX(x)]: NULL when there is no non-NULL value. *)
Definition sql_max (col : list (option Z)) : option Z :=
  match non_null col with
  | [] => None
  | x :: xs => Some (foldr Z.max x xs)
  end.

(** The row a bare column is read from in an aggregate query whose only
    min/max aggregate is [MAX(key)].  SQLite keeps, while it scans the group,
    the row at which the running maximum was last raised; while no non-NULL
    key has been seen, every row replaces the kept one.  [best] is the running
    maximum, [kept] the row kept so far. *)
Fixpoint max_row_from {A} (key : A → option Z) (best : option Z)
    (kept : option A) (g : list A) : option A :=
  match g with
  | [] => kept
  | a :: g' =>
      match key a, best with
      | None, None => max_row_from key None (Some a) g'
      | None, Some _ => max_row_from key best kept g'
      | Some v, None => max_row_from key (Some v) (Some a) g'
      | Some v, Some m =>
          if bool_decide (m < v) then max_row_from key (Some v) (Some a) g'
          else max_row_from key best kept g'
      end
  end.

Definition max_row {A} (key : A → option Z) (g : list A) : option A :=
  max_row_from key None None g.

(** [q1 UNION q2]: the rows of both, duplicates removed. *)
Definition union {A} `{EqDecision A} (q1 q2 : list A) : list A :=
  remove_dups (q1 ++ q2).

(** ORDER BY with the comparison [le] (a stable merge sort). *)
Definition order_by {A} (le : A → A → bool) (l : list A) : list A :=
  merge_sort (λ x y, Is_true (le x y)) l.

(** [x || y] on text: NULL when an operand is NULL. *)
Definition concat (x y : option string) : option string :=
  a ← x; b ← y; Some (String.append a b).

End Sql.

(** ** Notebooks/sql_project_chinook.ipynb: tables and queries *)

Module Chinook.
Import Sql.

Section Queries.
Context `{Real64}.

(** The tables, with the columns the notebook's queries read.  Every column
    is nullable: SQLite enforces neither types nor, unless declared, NOT
    NULL. *)
Record invoice_line := {
  il_invoice_line_id : option Z;
  il_invoice_id : option Z;
  il_track_id : option Z;
  il_quantity : option Z
}.

Record track := {
  t_track_id : option Z;
  t_album_id : option Z;
  t_genre_id : option Z
}.

Record genre := {
  g_genre_id : option Z;
  g_name : option string
}.

Record invoice := {
  i_invoice_id : option Z;
  i_customer_id : option Z;
  i_total : option real
}.

Record customer := {
  c_customer_id : option Z;
  c_first_name : option string;
  c_last_name : option string;
  c_country : option string;
  c_support_rep_id : option Z
}.

Record employee := {
  e_employee_id : option Z;
  e_first_name : option string;
  e_last_name : option string;
  e_hire_date : option string
}.

Record database := {
  tbl_invoice_line : list invoice_line;
  tbl_track : list track;
  tbl_genre : list genre;
  tbl_invoice : list invoice;
  tbl_customer : list customer;
  tbl_employee : list employee
}.

(** *** Most popular genres (cell 6) *)

(** [invoice_line AS il INNER JOIN track AS t ON t.track_id = il.track_id
     INNER JOIN genre AS g ON g.genre_id = t.genre_id] *)
Definition line_track_genre (db : database)
    : list (invoice_line * track * genre) :=
  inner_join (λ lt g, sql_eq (g_genre_id g) (t_genre_id lt.2))
    (inner_join (λ il t, sql_eq (t_track_id t) (il_track_id il))
       (tbl_invoice_line db) (tbl_track db))
    (tbl_genre db).

Record genre_sales := {
  gs_genre : option string;
  gs_tracks_sold : option real
}.

(** [WITH tracks_by_genre AS (SELECT g.name AS genre,
      CAST(SUM(il.quantity) AS float) AS tracks_sold ... GROUP BY genre)] *)
Definition tracks_by_genre (db : database) : list genre_sales :=
  (λ kg, {| gs_genre := kg.1;
            gs_tracks_sold :=
              r_of_int <$> sum_int ((λ r, il_quantity r.1.1) <$> kg.2) |})
  <$> group_by (λ r, g_name r.2) (line_track_genre db).




(** The genre figures in the words of the spec: per genre, the quantities
    of the lines whose track belongs to it. *)









(** *** Employee performance (cell 8) *)

(** [invoice AS i LEFT JOIN customer AS c ON c.customer_id = i.customer_id
     LEFT JOIN employee AS e ON e.employee_id = c.support_rep_id] *)
Definition invoice_customer_employee (db : database)
    : list (invoice * option customer * option employee) :=
  left_join (λ ic e, sql_eq (e_employee_id e) (ic.2 ≫= c_support_rep_id))
    (left_join (λ i c, sql_eq (c_customer_id c) (i_customer_id i))
       (tbl_invoice db) (tbl_customer db))
    (tbl_employee db).

(** [e.first_name || " " || e.last_name] *)
Definition employee_name (e : option employee) : option string :=
  concat (concat (e ≫= e_first_name) (Some " ")) (e ≫= e_last_name).

Record employee_row := {
  er_employee_name : option string;
  er_total_sales : option real;
  er_hire_date : option string
}.

(** [SELECT ... AS employee_name, SUM(i.total) AS total_sales, e.hire_date
     FROM ... GROUP BY employee_name].  [e.hire_date] is a bare column: SQL
     leaves open which row of the group it is read from; in a query without
     MIN or MAX, SQLite reads it from the first row of the group. *)
Definition employee_query (db : database) : list employee_row :=
  (λ kg, {| er_employee_name := kg.1;
            er_total_sales := sum_real ((λ r, i_total r.1.1) <$> kg.2);
            er_hire_date := head kg.2 ≫= (λ r, r.2 ≫= e_hire_date) |})
  <$> group_by (λ r, employee_name r.2) (invoice_customer_employee db).

(** The employee figures in the words of the spec: the totals of the
    invoices whose customer's support_rep_id matches an employee named
    [name]. *)
Definition totals_of_employee (db : database) (name : string)
    : list (option real) :=
  i ← tbl_invoice db;
  c ← filter (λ c, holds (sql_eq (c_customer_id c) (i_customer_id i)))
         (tbl_customer db);
  e ← filter (λ e, holds (sql_eq (e_employee_id e) (c_support_rep_id c)))
         (tbl_employee db);
  if decide (employee_name (Some e) = Some name) then [i_total i] else [].

Definition sales_of_employee (db : database) (name : string) : option real :=
  sum_real (totals_of_employee db name).

(** *** Customers by country (cells 9 and 15) *)

Record order_row := {
  or_total : option real;
  or_customer_id : option Z;
  or_customer_name : option string;
  or_country : option string
}.

(** [CREATE VIEW order_by_country AS SELECT i.total, c.customer_id,
       c.first_name || " " || c.last_name AS customer_name, c.country
     FROM invoice AS i LEFT JOIN customer AS c
       ON c.customer_id = i.customer_id] *)
Definition order_by_country (db : database) : list order_row :=
  (λ ic, {| or_total := i_total ic.1;
            or_customer_id := ic.2 ≫= c_customer_id;
            or_customer_name :=
              concat (concat (ic.2 ≫= c_first_name) (Some " "))
                     (ic.2 ≫= c_last_name);
            or_country := ic.2 ≫= c_country |})
  <$> left_join (λ i c, sql_eq (c_customer_id c) (i_customer_id i))
        (tbl_invoice db) (tbl_customer db).

Record stats_row := {
  sr_country : option string;
  sr_number_of_customers : Z;
  sr_total_sales : option real;
  sr_number_of_orders : Z;
  sr_sales_per_customer : option real
}.

(** [x / n] for a real [x] and an integer [n], NULL when either is. *)
Definition div_int (x : option real) (n : option Z) : option real :=
  a ← x; b ← n; r_div a (r_of_int b).

(** The scalar subquery of [stats_by_country]:
    [(SELECT CAST(COUNT(DISTINCT customer_id) AS float)
      FROM order_by_country GROUP BY country)].  It is not correlated: its
    value is the first row of its own grouping, the same for every
    country. *)
Definition first_customer_count (db : database) : option real :=
  head ((λ kg, r_of_int (count_distinct (or_customer_id <$> kg.2)))
        <$> group_by or_country (order_by_country db)).

(** The select list of [stats_by_country], for one group. *)
Definition stats_row_of (first_count : option real)
    (kg : option string * list order_row) : stats_row :=
  {| sr_country := kg.1;
     sr_number_of_customers := count_distinct (or_customer_id <$> kg.2);
     sr_total_sales := r_round 2 <$> sum_real (or_total <$> kg.2);
     sr_number_of_orders := count (or_customer_id <$> kg.2);
     sr_sales_per_customer :=
       r_round 2 <$> (s ← sum_real (or_total <$> kg.2);
                      d ← first_count; r_div s d) |}.

(** [CREATE VIEW stats_by_country AS SELECT country,
       COUNT(DISTINCT customer_id) AS number_of_customers,
       ROUND(SUM(total),2) AS total_sales,
       COUNT(customer_id) AS number_of_orders,
       ROUND(SUM(total)/(SELECT CAST(COUNT(DISTINCT customer_id) AS float)
                         FROM order_by_country GROUP BY country),2)
         AS sales_per_customer
     FROM order_by_country GROUP BY country].
    No later query reads [sales_per_customer]. *)
Definition stats_by_country (db : database) : list stats_row :=
  stats_row_of (first_customer_count db)
  <$> group_by or_country (order_by_country db).

Record country_row := {
  cr_country : option string;
  cr_number_of_customers : option Z;
  cr_total_sales : option real;
  cr_sales_per_customer : option real;
  cr_sales_per_order : option real;
  cr_sorting : string
}.

(** [ROUND(total_sales/number_of_orders,2)] *)
Definition sales_per_order (s : stats_row) : option real :=
  r_round 2 <$> div_int (sr_total_sales s) (Some (sr_number_of_orders s)).

(** First branch of the UNION: [SELECT country, number_of_customers,
      total_sales, total_sales/number_of_customers AS sales_per_customer,
      ROUND(total_sales/number_of_orders,2) AS sales_per_order, "A" AS sorting
    FROM stats_by_country WHERE number_of_customers > 1] *)
Definition country_rows (db : database) : list country_row :=
  (λ s, {| cr_country := sr_country s;
           cr_number_of_customers := Some (sr_number_of_customers s);
           cr_total_sales := sr_total_sales s;
           cr_sales_per_customer :=
             div_int (sr_total_sales s) (Some (sr_number_of_customers s));
           cr_sales_per_order := sales_per_order s;
           cr_sorting := "A" |})
  <$> filter (λ s, 1 < sr_number_of_customers s) (stats_by_country db).

(** The rows of [stats_by_country] with [number_of_customers = 1]. *)
Definition single_customer_stats (db : database) : list stats_row :=
  filter (λ s, sr_number_of_customers s = 1) (stats_by_country db).

(** Second branch: [SELECT "Other", SUM(number_of_customers),
      SUM(total_sales), SUM(total_sales)/SUM(number_of_customers),
      SUM(ROUND(total_sales/number_of_orders,2)) AS sales_per_order,
      "B" AS sorting
    FROM stats_by_country WHERE number_of_customers = 1]; an aggregate query
    without GROUP BY returns one row, also over no rows. *)
Definition other_row (db : database) : country_row :=
  let singles := single_customer_stats db in
  {| cr_country := Some "Other";
     cr_number_of_customers :=
       sum_int ((λ s, Some (sr_number_of_customers s)) <$> singles);
     cr_total_sales := sum_real (sr_total_sales <$> singles);
     cr_sales_per_customer :=
       div_int (sum_real (sr_total_sales <$> singles))
               (sum_int ((λ s, Some (sr_number_of_customers s)) <$> singles));
     cr_sales_per_order := sum_real (sales_per_order <$> singles);
     cr_sorting := "B" |}.

#[global] Instance country_row_eq_dec : EqDecision country_row.
Proof. solve_decision. Defined.

(** The subquery in FROM: both branches under UNION. *)
Definition country_union (db : database) : list country_row :=
  union (country_rows db) [other_row db].

(** Descending order on a nullable real, NULL last. *)
Definition desc_real (x y : option real) : bool :=
  match x, y with
  | _, None => true
  | None, Some _ => false
  | Some a, Some b => r_leb b a
  end.

(** [ORDER BY sorting, total_sales DESC] *)
Definition by_sorting_then_sales (r1 r2 : country_row) : bool :=
  if bool_decide (cr_sorting r1 = cr_sorting r2)
  then desc_real (cr_total_sales r1) (cr_total_sales r2)
  else String.leb (cr_sorting r1) (cr_sorting r2).

Record country_result := {
  res_country : option string;
  res_number_of_customers : option Z;
  res_total_sales : option real;
  res_sales_per_customer : option real;
  res_sales_per_order : option real
}.

(** [SELECT country, number_of_customers, total_sales, sales_per_customer,
       sales_per_order FROM (...) ORDER BY sorting, total_sales DESC] *)
Definition country_query (db : database) : list country_result :=
  (λ r, {| res_country := cr_country r;
           res_number_of_customers := cr_number_of_customers r;
           res_total_sales := cr_total_sales r;
           res_sales_per_customer := cr_sales_per_customer r;
           res_sales_per_order := cr_sales_per_order r |})
  <$> order_by by_sorting_then_sales (country_union db).

(** The country figures in the words of the spec, read off the tables
    [invoice] and [customer]. *)

(** The customer rows of an invoice: the rows that carry its customer_id.
    An invoice without such a row is kept once, without customer. *)
Definition customers_of_invoice (db : database) (i : invoice)
    : list (option customer) :=
  match filter (λ c, holds (sql_eq (c_customer_id c) (i_customer_id i)))
          (tbl_customer db) with
  | [] => [None]
  | cs => Some <$> cs
  end.

(** The country an order is counted under: its customer's, NULL without
    customer. *)
Definition country_of (c : option customer) : option string :=
  c ≫= c_country.

(** The countries that have an order (NULL, if present, counts as one). *)
Definition countries (db : database) : list (option string) :=
  remove_dups (i ← tbl_invoice db; country_of <$> customers_of_invoice db i).

(** The orders of country [k]: its invoices, each with the customer it
    belongs to. *)
Definition orders_of_country (db : database) (k : option string)
    : list (invoice * option customer) :=
  i ← tbl_invoice db;
  c ← customers_of_invoice db i;
  if decide (country_of c = k) then [(i, c)] else [].

(** The number of distinct customers among the orders of a country. *)
Definition customers_of_country (db : database) (k : option string) : Z :=
  count_distinct ((λ o, o.2 ≫= c_customer_id) <$> orders_of_country db k).

(** The number of its orders that have a customer. *)
Definition number_of_orders (db : database) (k : option string) : Z :=
  count ((λ o, o.2 ≫= c_customer_id) <$> orders_of_country db k).

(** The total sales of a country, rounded as the view rounds them. *)
Definition sales_of_country (db : database) (k : option string)
    : option real :=
  r_round 2 <$> sum_real ((λ o, i_total o.1) <$> orders_of_country db k).

(** Sales per order of a country, as both branches round them. *)
Definition order_value_of_country (db : database) (k : option string)
    : option real :=
  r_round 2
  <$> div_int (sales_of_country db k) (Some (number_of_orders db k)).

(** The row of a country that stands for itself. *)
Definition country_result_of (db : database) (k : option string)
    : country_result :=
  {| res_country := k;
     res_number_of_customers := Some (customers_of_country db k);
     res_total_sales := sales_of_country db k;
     res_sales_per_customer :=
       div_int (sales_of_country db k) (Some (customers_of_country db k));
     res_sales_per_order := order_value_of_country db k |}.

(** The countries with more than one customer, and those with exactly one. *)
Definition large_countries (db : database) : list (option string) :=
  filter (λ k, 1 < customers_of_country db k) (countries db).

Definition single_countries (db : database) : list (option string) :=
  filter (λ k, customers_of_country db k = 1) (countries db).

(** The row that collects the countries [singles], added up in the order of
    the list. *)
Definition other_result_over (db : database) (singles : list (option string))
    : country_result :=
  let n := sum_int ((λ k, Some (customers_of_country db k)) <$> singles) in
  let s := sum_real (sales_of_country db <$> singles) in
  {| res_country := Some "Other";
     res_number_of_customers := n;
     res_total_sales := s;
     res_sales_per_customer := div_int s n;
     res_sales_per_order :=
       sum_real (order_value_of_country db <$> singles) |}.

(** The row that collects the countries with exactly one customer. *)
Definition other_result (db : database) : country_result :=
  other_result_over db (single_countries db).

(** The rows of the result that carry the label [name]. *)
Definition labelled (name : string) (rows : list country_result)
    : list country_result :=
  filter (λ r, res_country r = Some name) rows.

(** *** Detecting album purchases (cell 16) *)

Record invoice_album_row := {
  ia_invoice_id : option Z;
  ia_invoice_line_id : option Z;
  ia_track_id : option Z;
  ia_album_id : option Z
}.

(** [invoice_album AS (SELECT il.invoice_id, il.invoice_line_id, il.track_id,
       t.album_id
     FROM invoice_line il LEFT JOIN track t ON t.track_id = il.track_id)] *)
Definition invoice_album (db : database) : list invoice_album_row :=
  (λ lt, {| ia_invoice_id := il_invoice_id lt.1;
            ia_invoice_line_id := il_invoice_line_id lt.1;
            ia_track_id := il_track_id lt.1;
            ia_album_id := lt.2 ≫= t_album_id |})
  <$> left_join (λ il t, sql_eq (t_track_id t) (il_track_id il))
        (tbl_invoice_line db) (tbl_track db).

Record album_length_row := {
  al_album_id : option Z;
  al_album_length : Z
}.

(** [album_lengths AS (SELECT album_id, COUNT(DISTINCT track_id)
       AS album_length FROM track GROUP BY album_id)] *)
Definition album_lengths (db : database) : list album_length_row :=
  (λ kg, {| al_album_id := kg.1;
            al_album_length := count_distinct (t_track_id <$> kg.2) |})
  <$> group_by t_album_id (tbl_track db).

(** [invoice_album ia LEFT JOIN album_lengths al
       ON al.album_id = ia.album_id] *)
Definition invoice_album_length (db : database)
    : list (invoice_album_row * option album_length_row) :=
  left_join (λ ia al, sql_eq (al_album_id al) (ia_album_id ia))
    (invoice_album db) (album_lengths db).

Record purchase_row := {
  pr_invoice_id : option Z;
  pr_num_albums : Z;
  pr_distinct_songs : Z;
  pr_album_id : option Z;
  pr_album_length : option Z;
  pr_album_purchase : string
}.

#[global] Instance purchase_row_eq_dec : EqDecision purchase_row.
Proof. solve_decision. Defined.

(** The select list shared by both branches: [SELECT ia.invoice_id,
      COUNT(DISTINCT ia.album_id) AS num_albums,
      COUNT(DISTINCT ia.track_id) AS distinct_songs,
      MAX(ia.album_id) AS album_id, al.album_length, label AS album_purchase
    ... GROUP BY invoice_id].  [al.album_length] is a bare column beside the
    single [MAX]: it is read from the row [max_row] keeps. *)
Definition purchase_of (label : string)
    (kg : option Z * list (invoice_album_row * option album_length_row))
    : purchase_row :=
  {| pr_invoice_id := kg.1;
     pr_num_albums := count_distinct ((λ r, ia_album_id r.1) <$> kg.2);
     pr_distinct_songs := count_distinct ((λ r, ia_track_id r.1) <$> kg.2);
     pr_album_id := sql_max ((λ r, ia_album_id r.1) <$> kg.2);
     pr_album_length :=
       r ← max_row (λ r, ia_album_id r.1) kg.2; al_album_length <$> r.2;
     pr_album_purchase := label |}.

(** [HAVING (num_albums = 1) AND (distinct_songs = album_length)] *)
Definition having_yes (r : purchase_row) : option bool :=
  sql_and (sql_eq (Some (pr_num_albums r)) (Some 1))
          (sql_eq (Some (pr_distinct_songs r)) (pr_album_length r)).

(** [HAVING (num_albums != 1) OR (distinct_songs != album_length)] *)
Definition having_no (r : purchase_row) : option bool :=
  sql_or (sql_ne (Some (pr_num_albums r)) (Some 1))
         (sql_ne (Some (pr_distinct_songs r)) (pr_album_length r)).

(** The subquery in FROM: the "yes" branch UNION the "no" branch. *)
Definition invoice_classes (db : database) : list purchase_row :=
  let groups := group_by (λ r, ia_invoice_id r.1) (invoice_album_length db) in
  union (filter (λ r, holds (having_yes r)) (purchase_of "yes" <$> groups))
        (filter (λ r, holds (having_no r)) (purchase_of "no" <$> groups)).

Record purchase_summary := {
  ps_album_purchase : string;
  ps_number_of_invoices : Z;
  ps_percent : option real
}.

(** [SELECT album_purchase, COUNT(invoice_id) AS number_of_invoices,
       ROUND(CAST(COUNT(invoice_id) AS float)
             /(SELECT COUNT(invoice_id) FROM invoice),3) AS percent
     FROM (...) GROUP BY album_purchase] *)
Definition album_purchase_query (db : database) : list purchase_summary :=
  (λ kg, {| ps_album_purchase := kg.1;
            ps_number_of_invoices := count (pr_invoice_id <$> kg.2);
            ps_percent :=
              r_round 3
              <$> r_div (r_of_int (count (pr_invoice_id <$> kg.2)))
                        (r_of_int (count (i_invoice_id <$> tbl_invoice db))) |})
  <$> group_by pr_album_purchase (invoice_classes db).

(** The album purchase rule in the words of the notebook and the spec: the
    tracks on the lines of an invoice come from one album, and there are as
    many distinct tracks on the lines as the album has. *)

(** The invoice_line rows of invoice [inv]. *)
Definition lines_of (db : database) (inv : Z) : list invoice_line :=
  filter (λ il, il_invoice_id il = Some inv) (tbl_invoice_line db).

(** The track rows those lines refer to. *)
Definition tracks_of (db : database) (inv : Z) : list track :=
  il ← lines_of db inv;
  filter (λ t, holds (sql_eq (t_track_id t) (il_track_id il))) (tbl_track db).

(** The distinct album_ids among the tracks on the lines. *)
Definition albums_bought (db : database) (inv : Z) : list Z :=
  remove_dups (omap t_album_id (tracks_of db inv)).

(** The distinct track_ids on the lines. *)
Definition tracks_bought (db : database) (inv : Z) : list Z :=
  remove_dups (omap il_track_id (lines_of db inv)).

(** The distinct tracks of album [a] in the track table. *)
Definition album_tracks (db : database) (a : Z) : list Z :=
  remove_dups (omap t_track_id
                 (filter (λ t, t_album_id t = Some a) (tbl_track db))).

Definition is_album_purchase (db : database) (inv : Z) : bool :=
  match albums_bought db inv with
  | [a] => bool_decide (length (tracks_bought db inv)
                        = length (album_tracks db a))
  | _ => false
  end.

(** The labels the query gives invoice [inv]. *)
Definition album_purchase_of (db : database) (inv : Z) : list string :=
  pr_album_purchase
  <$> filter (λ r, pr_invoice_id r = Some inv) (invoice_classes db).

End Queries.
End Chinook.

(** ** The Python side: driver calls, exceptions and the cells' statements *)

Module Driver.

(** What a statement can raise.  [DatabaseError] stands for whatever the
    database driver raises (psycopg2.Error and its subclasses, the errors of
    the sqlite engine); the others are Python's own. *)
Inductive exn :=
| DatabaseError (msg : string)
| FileNotFoundError (path : string)
| StopIteration
| IndexError
| ValueError
| NameError (name : string).

#[global] Instance exn_eq_dec : EqDecision exn.
Proof. solve_decision. Defined.

(** Where a connection goes: the keyword arguments of [psycopg2.connect], or
    the URL given to the [%sql] magic. *)
Inductive target :=
| Postgres (dbname user password : string)
| Url (url : string).

#[global] Instance target_eq_dec : EqDecision target.
Proof. solve_decision. Defined.

Inductive result (A : Type) :=
| Ok (a : A)
| Raise (e : exn).
Arguments Ok {A} a.
Arguments Raise {A} e.

Section Calls.
(** The type of SQL statements is the notebook's. *)
Context {sql : Type}.

(** The calls that leave the notebook: to the database driver (on the
    connection object number [c], counted from 0 in the order of creation)
    and to the file system. *)
Inductive call :=
| Connect (c : nat) (t : target)
| SetAutocommit (c : nat) (b : bool)
| Cursor (c : nat)
| Execute (c : nat) (q : sql)
| CopyExpert (c : nat) (q : sql) (data : list string)
| Fetchall (c : nat)
| Fetchmany (c : nat) (size : nat)
| Commit (c : nat)
| Close (c : nat)
| Open (path : string).

(** Everything outside the notebook.  [drv_fail history c] is the exception,
    if any, with which the driver answers call [c] after the calls of
    [history]; [fs] maps a path to the lines of the text file there;
    [csv_reader] is Python's [csv.reader] on lines, [py_int] is [int] on a
    string. *)
Record world := {
  drv_fail : list call → call → option exn;
  fs : string → option (list string);
  csv_reader : list string → list (list string);
  py_int : string → option Z
}.

(** The kernel's state: the globals [conn], [cur] and [columns] (unbound at
    first), the number of connection objects created, and the calls made so
    far. *)
Record kernel := {
  conn : option nat;
  cur : option nat;
  columns : option (list string);
  connections : nat;
  calls : list call
}.

Definition fresh_kernel : kernel :=
  {| conn := None; cur := None; columns := None; connections := 0;
     calls := [] |}.

(** Statements run in a state and exception monad over the kernel. *)
Definition M (A : Type) : Type := kernel → result A * kernel.

Definition ret {A} (a : A) : M A := λ k, (Ok a, k).

Definition bind {A B} (m : M A) (f : A → M B) : M B :=
  λ k, match m k with
       | (Ok a, k') => f a k'
       | (Raise e, k') => (Raise e, k')
       end.

Definition raise {A} (e : exn) : M A := λ k, (Raise e, k).

Definition get : M kernel := λ k, (Ok k, k).

Definition put (k : kernel) : M unit := λ _, (Ok (), k).

End Calls.
Arguments call : clear implicits.
Arguments world : clear implicits.
Arguments kernel : clear implicits.
Arguments M : clear implicits.

#[global] Instance M_ret {sql} : MRet (M sql) := λ A, ret.
#[global] Instance M_bind {sql} : MBind (M sql) := λ A B f m, bind m f.

Section Statements.
Context {sql : Type} (W : world sql).

(** The exception, if any, that call [c] meets after [history]: a missing
    file for [open], the driver's answer for the rest. *)
Definition failure (history : list (call sql)) (c : call sql) : option exn :=
  match c with
  | Open path =>
      match fs W path with
      | Some _ => None
      | None => Some (FileNotFoundError path)
      end
  | _ => drv_fail W history c
  end.

(** The kernel after more calls. *)
Definition with_calls (k : kernel sql) (new : list (call sql)) : kernel sql :=
  {| conn := conn k; cur := cur k; columns := columns k;
     connections := connections k; calls := calls k ++ new |}.

(** Make a call: it is recorded, and its failure is raised. *)
Definition perform (c : call sql) : M sql unit :=
  λ k, match failure (calls k) c with
       | Some e => (Raise e, with_calls k [c])
       | None => (Ok (), with_calls k [c])
       end.

(** Reading a global: NameError while it is unbound. *)
Definition global {A} (name : string) (read : kernel sql → option A)
    : M sql A :=
  k ← get;
  match read k with
  | Some a => mret a
  | None => raise (NameError name)
  end.

(** [with open(path) as f]: the lines of the file. *)
Definition open (path : string) : M sql (list string) :=
  perform (Open path);;
  match fs W path with
  | Some lines => mret lines
  | None => raise (FileNotFoundError path)
  end.

(** [next(it)] on the rows or lines still to come. *)
Definition next {A} (it : list A) : M sql (A * list A) :=
  match it with
  | x :: rest => mret (x, rest)
  | [] => raise StopIteration
  end.

(** [for x in xs: body], threading what the body accumulates. *)
Fixpoint for_each {A S} (xs : list A) (body : S → A → M sql S) (acc : S)
    : M sql S :=
  match xs with
  | [] => mret acc
  | x :: xs' => acc' ← body acc x; for_each xs' body acc'
  end.

(** [def get_col_set(file_path, col_index)] of the crime-report notebook
    (cell 11):
<<
    col_set = set()
    with open(file_path) as f:
        next(f)
        reader = csv.reader(f)
        for row in reader:
            col_set.add(row[col_index])
    return col_set
>> *)
Definition get_col_set (file_path : string) (col_index : nat)
    : M sql (gset string) :=
  f ← open file_path;
  '(_, f) ← next f;
  for_each (csv_reader W f)
    (λ col_set row,
       match row !! col_index with
       | Some v => mret ({[ v ]} ∪ col_set)
       | None => raise IndexError
       end)
    ∅.

(** The statements of the notebooks' code cells. *)
Inductive stmt :=
(** [import m], [%load_ext m] *)
| Import (module : string)
(** [%sql url]: the magic connects and keeps the connection for the
    [%%sql] cells that follow *)
| MagicConnect (url : string)
(** [conn = psycopg2.connect(...)] *)
| AssignConn (t : target)
(** [conn.autocommit = b] *)
| ConnAutocommit (b : bool)
(** [cur = conn.cursor()] *)
| AssignCur
(** [cur.execute(q)], a statement of a [%%sql] cell *)
| CurExecute (q : sql)
(** [with open(path) as f: cur.copy_expert(q, f)] *)
| CopyExpertFrom (q : sql) (path : string)
(** [results = cur.fetchall()] and the loop that prints them; the display
    of a [%%sql] cell's result *)
| FetchallPrint
(** [results = cur.fetchmany(size)] and the loop that prints them *)
| FetchmanyPrint (size : nat)
(** [conn.commit()] *)
| ConnCommit
(** [conn.close()] *)
| ConnClose
(** cell 9: [with open(path) as f: reader = csv.reader(f);
    columns = next(reader); first_row = next(reader)] and the print *)
| ReadHeader (path : string)
(** cell 11: [for i in range(n):
    print(f"{columns[i]}:  {len(get_col_set(path, i))}")] *)
| PrintColumnCounts (path : string) (n : nat)
(** cells 13 and 21: [x = get_col_set(path, i)], then a loop over [x] or
    its display, neither of which can raise *)
| ShowColSet (path : string) (i : nat)
(** cell 15: [codes = get_col_set(path, i)],
    [for code in codes: code = int(code) ...] and the prints *)
| MinMaxCode (path : string) (i : nat).

Definition set_conn (c : nat) : M sql unit :=
  k ← get;
  put {| conn := Some c; cur := cur k; columns := columns k;
         connections := S (connections k); calls := calls k |}.

Definition set_cur (c : nat) : M sql unit :=
  k ← get;
  put {| conn := conn k; cur := Some c; columns := columns k;
         connections := connections k; calls := calls k |}.

Definition set_columns (row : list string) : M sql unit :=
  k ← get;
  put {| conn := conn k; cur := cur k; columns := Some row;
         connections := connections k; calls := calls k |}.

Definition exec (s : stmt) : M sql unit :=
  match s with
  | Import _ => mret ()
  | MagicConnect url =>
      k ← get;
      perform (Connect (connections k) (Url url));;
      set_conn (connections k);;
      set_cur (connections k)
  | AssignConn t =>
      k ← get;
      perform (Connect (connections k) t);;
      set_conn (connections k)
  | ConnAutocommit b => c ← global "conn" conn; perform (SetAutocommit c b)
  | AssignCur => c ← global "conn" conn; perform (Cursor c);; set_cur c
  | CurExecute q => c ← global "cur" cur; perform (Execute c q)
  | CopyExpertFrom q path =>
      f ← open path;
      c ← global "cur" cur;
      perform (CopyExpert c q f)
  | FetchallPrint => c ← global "cur" cur; perform (Fetchall c)
  | FetchmanyPrint size => c ← global "cur" cur; perform (Fetchmany c size)
  | ConnCommit => c ← global "conn" conn; perform (Commit c)
  | ConnClose => c ← global "conn" conn; perform (Close c)
  | ReadHeader path =>
      f ← open path;
      '(header, rows) ← next (csv_reader W f);
      set_columns header;;
      '(_, _) ← next rows;
      mret ()
  | PrintColumnCounts path n =>
      for_each (seq 0 n)
        (λ _ i,
           header ← global "columns" columns;
           match header !! i with
           | Some _ => get_col_set path i;; mret ()
           | None => raise IndexError
           end)
        ()
  | ShowColSet path i => get_col_set path i;; mret ()
  | MinMaxCode path i =>
      codes ← get_col_set path i;
      for_each (elements codes)
        (λ _ code,
           match py_int W code with
           | Some _ => mret ()
           | None => raise ValueError
           end)
        ()
  end.

(** A cell runs its statements in order; Run All runs the cells in order.
    In a notebook of Python cells nothing catches an exception: the first one
    ends the run. *)
Fixpoint exec_all (ss : list stmt) : M sql unit :=
  match ss with
  | [] => mret ()
  | s :: ss' => exec s;; exec_all ss'
  end.

Definition run (notebook : list (list stmt)) : result unit * kernel sql :=
  exec_all (mjoin notebook) fresh_kernel.

(** *** Cells run by the ipython-sql magic

    The Chinook notebook has no statement of Python: [%sql url] and the
    [%%sql] cells hand their text to the magic of ipython-sql, which runs the
    statements of a cell in order.  The magic catches the error of the
    database engine (its option [short_errors], on by default): it prints
    the message and leaves the rest of the cell out, and the kernel goes on
    with the next cell.  A cell that finds no connection, because [%sql url]
    failed, prints the magic's usage message in the same way (the
    environment variable DATABASE_URL, where the magic looks next, is taken
    to be unset); here this is the NameError of [cur]. *)
Definition printed (e : exn) : bool :=
  match e with
  | DatabaseError _ | NameError _ => true
  | _ => false
  end.

Definition magic (cell : list stmt) : M sql unit :=
  λ k, match exec_all cell k with
       | (Raise e, k') => if printed e then (Ok (), k') else (Raise e, k')
       | (Ok _, k') => (Ok (), k')
       end.

Fixpoint run_cells (cells : list (list stmt)) : M sql unit :=
  match cells with
  | [] => mret ()
  | cell :: rest => magic cell;; run_cells rest
  end.

Definition run_magic (notebook : list (list stmt))
    : result unit * kernel sql :=
  run_cells notebook fresh_kernel.

(** A driver that answers with database errors only. *)
Definition driver_errors : Prop :=
  ∀ history c e, drv_fail W history c = Some e → ∃ msg, e = DatabaseError msg.

(** The calls of a [%%sql] cell on connection [c]: one per statement, and
    the fetch of the result it displays. *)
Definition script (c : nat) (cell : list stmt) : list (call sql) :=
  omap (λ s, match s with
             | CurExecute q => Some (Execute c q)
             | FetchallPrint => Some (Fetchall c)
             | _ => None
             end) cell.

Definition sql_cell (cell : list stmt) : bool :=
  forallb (λ s, match s with
                | CurExecute _ | FetchallPrint => true
                | _ => false
                end) cell.

(** The calls of a script up to the first that fails, that one included,
    and its exception. *)
Fixpoint until_failure (history script : list (call sql))
    : list (call sql) * option exn :=
  match script with
  | [] => ([], None)
  | c :: rest =>
      match failure history c with
      | Some e => ([c], Some e)
      | None =>
          let '(new, out) := until_failure (history ++ [c]) rest in
          (c :: new, out)
      end
  end.

(** The calls of the scripts of several cells under the magic: a cell is cut
    short at the first call that fails; after an error that the magic prints
    the next cell follows, any other error ends the run. *)
Fixpoint magic_calls (history : list (call sql))
    (scripts : list (list (call sql))) : list (call sql) * option exn :=
  match scripts with
  | [] => ([], None)
  | script :: rest =>
      match until_failure history script with
      | (new, Some e) =>
          if printed e
          then let '(more, out) := magic_calls (history ++ new) rest in
               (new ++ more, out)
          else (new, Some e)
      | (new, None) =>
          let '(more, out) := magic_calls (history ++ new) rest in
          (new ++ more, out)
      end
  end.

(** The calls of a trace that did not fail. *)
Fixpoint succeeded (history tr : list (call sql)) : list (call sql) :=
  match tr with
  | [] => []
  | c :: tr' =>
      match failure history c with
      | Some _ => succeeded (history ++ [c]) tr'
      | None => c :: succeeded (history ++ [c]) tr'
      end
  end.

(** *** What a run that raises nothing does

    [quiet_calls s k] are the calls statement [s] makes from kernel [k] when
    no call fails and no data is malformed, [quiet_step s k] is the kernel it
    leaves. *)
Definition on_global (g : option nat) (f : nat → call sql)
    : list (call sql) :=
  match g with
  | Some c => [f c]
  | None => []
  end.

Definition quiet_calls (s : stmt) (k : kernel sql) : list (call sql) :=
  match s with
  | Import _ => []
  | MagicConnect url => [Connect (connections k) (Url url)]
  | AssignConn t => [Connect (connections k) t]
  | ConnAutocommit b => on_global (conn k) (λ c, SetAutocommit c b)
  | AssignCur => on_global (conn k) Cursor
  | CurExecute q => on_global (cur k) (λ c, Execute c q)
  | CopyExpertFrom q path =>
      Open path
      :: on_global (cur k) (λ c, CopyExpert c q (default [] (fs W path)))
  | FetchallPrint => on_global (cur k) Fetchall
  | FetchmanyPrint size => on_global (cur k) (λ c, Fetchmany c size)
  | ConnCommit => on_global (conn k) Commit
  | ConnClose => on_global (conn k) Close
  | ReadHeader path => [Open path]
  | PrintColumnCounts path n => replicate n (Open path)
  | ShowColSet path _ => [Open path]
  | MinMaxCode path _ => [Open path]
  end.

Definition quiet_step (s : stmt) (k : kernel sql) : kernel sql :=
  {| conn := match s with
             | AssignConn _ | MagicConnect _ => Some (connections k)
             | _ => conn k
             end;
     cur := match s with
            | AssignCur => conn k
            | MagicConnect _ => Some (connections k)
            | _ => cur k
            end;
     columns := match s with
                | ReadHeader path =>
                    head (csv_reader W (default [] (fs W path)))
                | _ => columns k
                end;
     connections := match s with
                    | AssignConn _ | MagicConnect _ => S (connections k)
                    | _ => connections k
                    end;
     calls := calls k ++ quiet_calls s k |}.

Definition quiet_run (notebook : list (list stmt)) : kernel sql :=
  foldl (λ k s, quiet_step s k) fresh_kernel (mjoin notebook).

(** *** Failures and outcomes

    The exception a result carries. *)
Definition raised {A} (r : result A) : option exn :=
  match r with
  | Ok _ => None
  | Raise e => Some e
  end.

(** The calls [new], made after [history], end in the outcome [out] with
    nothing handled: a call that fails is the last one made, and its exception
    is the outcome. *)
Fixpoint unhandled (history new : list (call sql)) (out : option exn)
    : Prop :=
  match new with
  | [] => True
  | c :: new' =>
      match failure history c with
      | Some e => new' = [] ∧ out = Some e
      | None => unhandled (history ++ [c]) new' out
      end
  end.

(** [obeys m k expected Q]: run from [k], the computation [m] makes a prefix
    of the calls [expected]; a failing call is its last, and it raises that
    call's exception; when it returns it has made all of [expected], and its
    value and kernel satisfy [Q]. *)
Definition obeys {A} (m : M sql A) (k : kernel sql)
    (expected : list (call sql)) (Q : A → kernel sql → Prop) : Prop :=
  ∀ r k', m k = (r, k') →
    ∃ new, calls k' = calls k ++ new
           ∧ new `prefix_of` expected
           ∧ unhandled (calls k) new (raised r)
           ∧ (∀ a, r = Ok a → new = expected ∧ Q a k').

(** The values of column [i] over the rows of a CSV file after its header
    line. *)
Definition column_values (lines : list string) (i : nat) : gset string :=
  list_to_set (omap (λ row : list string, row !! i) (csv_reader W (tail lines))).

End Statements.
Arguments stmt : clear implicits.

(** *** Reading a trace *)

Section Traces.
Context {sql : Type}.

(** The connections opened, each with where it goes. *)
Definition connected (tr : list (call sql)) : list (nat * target) :=
  omap (λ c, match c with Connect n t => Some (n, t) | _ => None end) tr.

(** The connections opened and closed, in order. *)
Definition opened (tr : list (call sql)) : list nat :=
  omap (λ c, match c with Connect n _ => Some n | _ => None end) tr.

Definition closed (tr : list (call sql)) : list nat :=
  omap (λ c, match c with Close n => Some n | _ => None end) tr.

(** The connection a driver call goes through. *)
Definition via (c : call sql) : option nat :=
  match c with
  | Connect _ _ | Open _ => None
  | SetAutocommit n _ | Cursor n | Execute n _ | CopyExpert n _ _
  | Fetchall n | Fetchmany n _ | Commit n | Close n => Some n
  end.

(** The SQL statements sent, in order. *)
Definition sent (tr : list (call sql)) : list sql :=
  omap (λ c, match c with
             | Execute _ q | CopyExpert _ q _ => Some q
             | _ => None
             end) tr.


(** The connections still open after a trace. *)
Definition still_open (tr : list (call sql)) : list nat :=
  foldl (λ (live : list nat) c,
           match c with
           | Connect n _ => (live ++ [n])%list
           | Close n => filter (λ m, m ≠ n) live
           | _ => live
           end) [] tr.

(** One connection at a time: a connection is opened only while none is
    open, and every other driver call goes through the open one.  [open] is
    the connection open before the trace. *)
Fixpoint one_at_a_time (open : option nat) (tr : list (call sql)) : bool :=
  match tr with
  | [] => true
  | c :: tr' =>
      match c with
      | Connect n _ => bool_decide (open = None) && one_at_a_time (Some n) tr'
      | Close n => bool_decide (open = Some n) && one_at_a_time None tr'
      | Open _ => one_at_a_time open tr'
      | _ => bool_decide (via c = open) && one_at_a_time open tr'
      end
  end.

(** Connection [n] carried at least one statement. *)
Definition used (n : nat) (tr : list (call sql)) : bool :=
  existsb (λ c, match c with
                | Execute m _ | CopyExpert m _ _ => bool_decide (m = n)
                | _ => false
                end) tr.

(** One connection per notebook, as the spec has it: exactly one connection
    is opened, it is used, and it is closed, once. *)
Definition one_connection (tr : list (call sql)) : Prop :=
  ∃ n, opened tr = [n] ∧ used n tr = true ∧ closed tr = [n].

(** The SQL in the statements of a notebook, in source order. *)
Definition sql_of (notebook : list (list (stmt sql))) : list sql :=
  omap (λ s, match s with
             | CurExecute q | CopyExpertFrom q _ => Some q
             | _ => None
             end) (mjoin notebook).

End Traces.

End Driver.

(** ** Notebooks/crime_report_database.ipynb *)

Module CrimeReport.
Import Driver.

(** *** The SQL the notebook sends *)

Inductive privilege :=
| SELECT | INSERT | DELETE | UPDATE | USAGE | CREATE | CONNECT | TEMPORARY
| ALL.

Inductive grantee :=
| PUBLIC
| ROLE (name : string).

(** What a GRANT or REVOKE names after ON. *)
Inductive target_object :=
| DATABASE (name : string)
| SCHEMA (name : string)
| ALL_TABLES_IN_SCHEMA (schema : string).

Inductive sql :=
| DropDatabaseIfExists (name : string)
| DropGroupIfExists (name : string)
| DropUserIfExists (name : string)
| CreateDatabase (name : string)
| CreateSchema (name : string)
| CreateTypeEnum (name : string) (labels : list string)
| CreateTable (schema table : string) (columns : list (string * string))
| CopyFromStdinCsvHeader (schema table : string)
| Revoke (privs : list privilege) (on : target_object) (from : grantee)
| CreateGroupNologin (name : string)
| Grant (privs : list privilege) (on : target_object) (to : grantee)
| CreateUser (name password : string)
| GrantRole (group member : string)
| Select (text : string).

#[global] Instance privilege_eq_dec : EqDecision privilege.
Proof. solve_decision. Defined.
#[global] Instance grantee_eq_dec : EqDecision grantee.
Proof. solve_decision. Defined.
#[global] Instance target_object_eq_dec : EqDecision target_object.
Proof. solve_decision. Defined.
#[global] Instance sql_eq_dec : EqDecision sql.
Proof. solve_decision. Defined.

(** The text of a statement, as the notebook writes it. *)
Definition nl : string := String "010"%char "".

Fixpoint join (sep : string) (parts : list string) : string :=
  match parts with
  | [] => ""
  | [p] => p
  | p :: ps => p +:+ sep +:+ join sep ps
  end.

Definition privilege_text (p : privilege) : string :=
  match p with
  | SELECT => "SELECT" | INSERT => "INSERT" | DELETE => "DELETE"
  | UPDATE => "UPDATE" | USAGE => "USAGE" | CREATE => "CREATE"
  | CONNECT => "CONNECT" | TEMPORARY => "TEMPORARY" | ALL => "ALL"
  end.

Definition grantee_text (g : grantee) : string :=
  match g with
  | PUBLIC => "public"
  | ROLE name => name
  end.

Definition object_text (o : target_object) : string :=
  match o with
  | DATABASE name => "DATABASE " +:+ name
  | SCHEMA name => "SCHEMA " +:+ name
  | ALL_TABLES_IN_SCHEMA schema => "ALL TABLES IN SCHEMA " +:+ schema
  end.

Definition quoted (s : string) : string := "'" +:+ s +:+ "'".

Definition text (q : sql) : string :=
  match q with
  | DropDatabaseIfExists name => "DROP DATABASE IF EXISTS " +:+ name +:+ ";"
  | DropGroupIfExists name => "DROP GROUP IF EXISTS " +:+ name +:+ ";"
  | DropUserIfExists name => "DROP USER IF EXISTS " +:+ name +:+ ";"
  | CreateDatabase name => "CREATE DATABASE " +:+ name +:+ ";"
  | CreateSchema name => "CREATE SCHEMA " +:+ name +:+ ";"
  | CreateTypeEnum name labels =>
      "CREATE TYPE " +:+ name +:+ " AS ENUM ("
      +:+ join ", " (quoted <$> labels) +:+ ");"
  | CreateTable schema table columns =>
      nl +:+ "CREATE TABLE " +:+ schema +:+ "." +:+ table +:+ " (" +:+ nl
      +:+ join ("," +:+ nl)
            ((λ c, "    " +:+ c.1 +:+ " " +:+ c.2) <$> columns)
      +:+ nl +:+ ");" +:+ nl
  | CopyFromStdinCsvHeader schema table =>
      "COPY " +:+ schema +:+ "." +:+ table +:+ " FROM STDIN WITH CSV HEADER;"
  | Revoke privs on from =>
      "REVOKE " +:+ join ", " (privilege_text <$> privs) +:+ " ON "
      +:+ object_text on +:+ " FROM " +:+ grantee_text from +:+ ";"
  | CreateGroupNologin name => "CREATE GROUP " +:+ name +:+ " NOLOGIN;"
  | Grant privs on to =>
      "GRANT " +:+ join ", " (privilege_text <$> privs) +:+ " ON "
      +:+ object_text on +:+ " TO " +:+ grantee_text to +:+ ";"
  | CreateUser name password =>
      "CREATE USER " +:+ name +:+ " WITH PASSWORD " +:+ quoted password
      +:+ ";"
  | GrantRole group member => "GRANT " +:+ group +:+ " TO " +:+ member +:+ ";"
  | Select text => text
  end.

(** *** The code cells *)

Definition boston_csv : string := "data/boston.csv".

Definition postgres_db : target := Postgres "postgres" "postgres" "6288".
Definition crime_db : target := Postgres "crime_db" "postgres" "6288".

Definition cell_2 : list (stmt sql) :=
  [ Import "psycopg2";
    AssignConn postgres_db;
    ConnAutocommit true;
    AssignCur;
    CurExecute (DropDatabaseIfExists "crime_db");
    CurExecute (DropGroupIfExists "readonly");
    CurExecute (DropGroupIfExists "readwrite");
    CurExecute (DropUserIfExists "data_analyst");
    CurExecute (DropUserIfExists "data_scientist");
    ConnClose ].

Definition cell_4 : list (stmt sql) :=
  [ AssignConn postgres_db;
    ConnAutocommit true;
    AssignCur;
    CurExecute (CreateDatabase "crime_db");
    ConnClose ].

Definition cell_6 : list (stmt sql) :=
  [ AssignConn crime_db;
    AssignCur;
    CurExecute (CreateSchema "crimes") ].

Definition cell_9 : list (stmt sql) :=
  [ Import "csv"; ReadHeader boston_csv ].

Definition cell_11 : list (stmt sql) := [ PrintColumnCounts boston_csv 7 ].

Definition cell_13 : list (stmt sql) := [ ShowColSet boston_csv 2 ].

Definition cell_15 : list (stmt sql) := [ MinMaxCode boston_csv 1 ].

Definition cell_21 : list (stmt sql) := [ ShowColSet boston_csv 4 ].

Definition cell_22 : list (stmt sql) :=
  [ CurExecute
      (CreateTypeEnum "weekday_enum"
         ["Sunday"; "Monday"; "Tuesday"; "Wednesday"; "Thursday"; "Friday";
          "Saturday"]) ].

Definition cell_24 : list (stmt sql) :=
  [ CurExecute
      (CreateTable "crimes" "boston_crimes"
         [("incident_number", "SERIAL PRIMARY KEY");
          ("offense_code", "SMALLINT");
          ("description", "VARCHAR(116)");
          ("date", "DATE");
          ("day_of_the_week", "weekday_enum");
          ("lat", "DECIMAL");
          ("long", "DECIMAL")]) ].

Definition cell_26 : list (stmt sql) :=
  [ CopyExpertFrom (CopyFromStdinCsvHeader "crimes" "boston_crimes")
      boston_csv ].

Definition cell_28 : list (stmt sql) :=
  [ CurExecute (Select "SELECT * FROM crimes.boston_crimes LIMIT 3;");
    FetchallPrint ].

Definition cell_31 : list (stmt sql) :=
  [ CurExecute (Revoke [ALL] (SCHEMA "public") PUBLIC);
    CurExecute (Revoke [ALL] (DATABASE "crime_db") PUBLIC) ].

Definition cell_33 : list (stmt sql) :=
  [ CurExecute (CreateGroupNologin "readonly");
    CurExecute (CreateGroupNologin "readwrite");
    CurExecute (Grant [CONNECT] (DATABASE "crime_db") (ROLE "readonly"));
    CurExecute (Grant [CONNECT] (DATABASE "crime_db") (ROLE "readwrite"));
    CurExecute (Grant [USAGE] (SCHEMA "crimes") (ROLE "readonly"));
    CurExecute (Grant [USAGE] (SCHEMA "crimes") (ROLE "readonly"));
    CurExecute
      (Grant [SELECT] (ALL_TABLES_IN_SCHEMA "crimes") (ROLE "readonly"));
    CurExecute
      (Grant [SELECT; INSERT; DELETE; UPDATE] (ALL_TABLES_IN_SCHEMA "crimes")
         (ROLE "readwrite")) ].

Definition cell_36 : list (stmt sql) :=
  [ CurExecute (CreateUser "data_analyst" "abc");
    CurExecute (GrantRole "readonly" "data_analyst");
    CurExecute (CreateUser "data_scientist" "123");
    CurExecute (GrantRole "readwrite" "data_scientist") ].

Definition cell_38 : list (stmt sql) := [ ConnCommit; ConnClose ].

Definition cell_42 : list (stmt sql) :=
  [ AssignConn crime_db;
    AssignCur;
    CurExecute
      (Select
         (nl +:+ "            SELECT schema_name FROM information_schema.schemata;"
          +:+ nl +:+ "            "));
    FetchallPrint ].

Definition cell_44 : list (stmt sql) :=
  [ CurExecute
      (Select
         "SELECT * FROM information_schema.tables WHERE table_schema = 'crimes';");
    FetchallPrint ].

Definition cell_46 : list (stmt sql) :=
  [ CurExecute
      (Select
         (nl +:+ "            SELECT * FROM information_schema.applicable_roles "
          +:+ nl
          +:+ "            WHERE role_name = 'readonly' OR role_name = 'readwrite';"
          +:+ nl +:+ "            "));
    FetchmanyPrint 5 ].

Definition cell_48 : list (stmt sql) :=
  [ CurExecute
      (Select
         (nl +:+ "    SELECT grantee, privilege_type" +:+ nl
          +:+ "    FROM information_schema.table_privileges" +:+ nl
          +:+ "    WHERE grantee = 'readwrite' OR grantee = 'readonly';" +:+ nl
          +:+ "    "));
    FetchallPrint ].

(** The notebook, in cell order. *)
Definition notebook : list (list (stmt sql)) :=
  [ cell_2; cell_4; cell_6; cell_9; cell_11; cell_13; cell_15; cell_21;
    cell_22; cell_24; cell_26; cell_28; cell_31; cell_33; cell_36; cell_38;
    cell_42; cell_44; cell_46; cell_48 ].

(** *** What the statements do to the privileges

    Enough of the server's catalog to follow the GRANTs: which grantee holds
    which privilege on which object, which role is a member of which group,
    and which tables exist. *)

Inductive securable :=
| Database (db : string)
| Schema (db name : string)
| Table (db schema name : string).

#[global] Instance securable_eq_dec : EqDecision securable.
Proof. solve_decision. Defined.

Record catalog := {
  granted : grantee → privilege → securable → bool;
  member : string → string → bool;   (* [member group role] *)
  table_exists : securable → bool
}.

Definition in_database (db : string) (o : securable) : bool :=
  match o with
  | Database d | Schema d _ | Table d _ _ => bool_decide (d = db)
  end.

(** A schema and the tables in it. *)
Definition in_schema (db schema : string) (o : securable) : bool :=
  match o with
  | Database _ => false
  | Schema d s | Table d s _ => bool_decide (d = db) && bool_decide (s = schema)
  end.

(** The objects a GRANT or REVOKE names, for a session on database [db]. *)
Definition names (cat : catalog) (db : string) (on : target_object)
    (o : securable) : bool :=
  match on, o with
  | DATABASE name, Database d => bool_decide (d = name)
  | SCHEMA name, Schema d n => bool_decide (d = db) && bool_decide (n = name)
  | ALL_TABLES_IN_SCHEMA schema, Table d s _ =>
      bool_decide (d = db) && bool_decide (s = schema) && table_exists cat o
  | _, _ => false
  end.

Definition listed (privs : list privilege) (p : privilege) : bool :=
  bool_decide (p ∈ privs) || bool_decide (ALL ∈ privs).

(** The object of the template database that an object of a new database
    is copied from. *)
Definition in_template (o : securable) : securable :=
  match o with
  | Database _ => Database "template1"
  | Schema _ name => Schema "template1" name
  | Table _ schema name => Table "template1" schema name
  end.

(** The effect of one statement, run in a session on database [db].  A
    dropped database takes its objects and their grants with it, a dropped
    role its grants and memberships.  A new database is a copy of
    [template1], with its schemas and tables and the grants on them; on the
    database itself PUBLIC may connect and create temporary tables.  A new
    schema has no table, and a new schema or table no grant.  The catalog
    follows grants only: what an owner or a superuser may do without grant is
    no part of it. *)
Definition apply_sql (db : string) (q : sql) (cat : catalog) : catalog :=
  match q with
  | DropDatabaseIfExists name =>
      {| granted := λ g p o,
           if in_database name o then false else granted cat g p o;
         member := member cat;
         table_exists := λ o,
           if in_database name o then false else table_exists cat o |}
  | DropGroupIfExists name | DropUserIfExists name
  | CreateGroupNologin name | CreateUser name _ =>
      {| granted := λ g p o,
           if bool_decide (g = ROLE name) then false else granted cat g p o;
         member := λ group role,
           if bool_decide (group = name) || bool_decide (role = name)
           then false else member cat group role;
         table_exists := table_exists cat |}
  | CreateDatabase name =>
      {| granted := λ g p o,
           if in_database name o
           then match o with
                | Database _ =>
                    bool_decide (g = PUBLIC)
                    && bool_decide (p ∈ [CONNECT; TEMPORARY])
                | _ => granted cat g p (in_template o)
                end
           else granted cat g p o;
         member := member cat;
         table_exists := λ o,
           if in_database name o then table_exists cat (in_template o)
           else table_exists cat o |}
  | CreateSchema name =>
      {| granted := λ g p o,
           if in_schema db name o then false else granted cat g p o;
         member := member cat;
         table_exists := λ o,
           if in_schema db name o then false else table_exists cat o |}
  | CreateTable schema table _ =>
      {| granted := λ g p o,
           if bool_decide (o = Table db schema table) then false
           else granted cat g p o;
         member := member cat;
         table_exists := λ o,
           if bool_decide (o = Table db schema table) then true
           else table_exists cat o |}
  | Revoke privs on from =>
      {| granted := λ g p o,
           if bool_decide (g = from) && names cat db on o && listed privs p
           then false else granted cat g p o;
         member := member cat;
         table_exists := table_exists cat |}
  | Grant privs on to =>
      {| granted := λ g p o,
           if bool_decide (g = to) && names cat db on o && listed privs p
           then true else granted cat g p o;
         member := member cat;
         table_exists := table_exists cat |}
  | GrantRole group role =>
      {| granted := granted cat;
         member := λ g r,
           if bool_decide (g = group) && bool_decide (r = role) then true
           else member cat g r;
         table_exists := table_exists cat |}
  | CreateTypeEnum _ _ | CopyFromStdinCsvHeader _ _ | Select _ => cat
  end.

(** The server along a trace of calls that it has answered without error
    (for a run in which a call fails, [Driver.succeeded] of the run's
    calls): every connection has its database; a statement takes effect at
    once on a connection in autocommit mode, and at [commit] otherwise;
    closing a connection discards what it has not committed. *)
Record server := {
  committed : catalog;
  session : list (nat * string);
  autocommit : list nat;
  pending : list (nat * sql)
}.

Definition database_of (sv : server) (c : nat) : string :=
  default "" ((λ x, x.2.2) <$> list_find (λ cs, cs.1 = c) (session sv)).

Definition statement (sv : server) (c : nat) (q : sql) : server :=
  if bool_decide (c ∈ autocommit sv)
  then {| committed := apply_sql (database_of sv c) q (committed sv);
          session := session sv; autocommit := autocommit sv;
          pending := pending sv |}
  else {| committed := committed sv; session := session sv;
          autocommit := autocommit sv;
          pending := pending sv ++ [(c, q)] |}.

Definition serve (sv : server) (c : call sql) : server :=
  match c with
  | Connect n (Postgres db _ _) =>
      {| committed := committed sv; session := (n, db) :: session sv;
         autocommit := autocommit sv; pending := pending sv |}
  | SetAutocommit n true =>
      {| committed := committed sv; session := session sv;
         autocommit := n :: autocommit sv; pending := pending sv |}
  | SetAutocommit n false =>
      {| committed := committed sv; session := session sv;
         autocommit := filter (λ m, m ≠ n) (autocommit sv);
         pending := pending sv |}
  | Execute n q | CopyExpert n q _ => statement sv n q
  | Commit n =>
      {| committed :=
           foldl (λ cat cq, apply_sql (database_of sv n) cq.2 cat)
             (committed sv) (filter (λ cq, cq.1 = n) (pending sv));
         session := session sv; autocommit := autocommit sv;
         pending := filter (λ cq, cq.1 ≠ n) (pending sv) |}
  | Close n =>
      {| committed := committed sv; session := session sv;
         autocommit := autocommit sv;
         pending := filter (λ cq, cq.1 ≠ n) (pending sv) |}
  | _ => sv
  end.

(** The catalog after a trace of calls that succeeded, from the catalog
    [cat] before it. *)
Definition catalog_after (tr : list (call sql)) (cat : catalog) : catalog :=
  committed
    (foldl serve
       {| committed := cat; session := []; autocommit := []; pending := [] |}
       tr).

(** A role holds a privilege, by grant, that was granted to it, to PUBLIC,
    or to a group it is a member of. *)
Inductive holds (cat : catalog) (p : privilege) (o : securable)
    : string → Prop :=
| holds_own role : granted cat (ROLE role) p o = true → holds cat p o role
| holds_public role : granted cat PUBLIC p o = true → holds cat p o role
| holds_group role group :
    member cat group role = true → holds cat p o group → holds cat p o role.

(** *** What the statements do to the rows

    Beside the catalog, the rows of the tables.  A row is the list of its
    fields, as text: COPY ... CSV reads text, and the server converts each
    field to the type of its column on the way in (it refuses the statement
    when a field does not convert). *)
Definition rows : Type := securable → list (list string).








(** The statements that reach the server, by the database of the session
    that carries them: cells 2 and 4 work on [postgres] in autocommit mode,
    cells 6 to 36 on [crime_db] in one transaction, committed in cell 38. *)
Definition on_postgres : list sql :=
  Eval vm_compute in take 6 (sql_of notebook).

Definition on_crime_db : list sql :=
  Eval vm_compute in take 19 (drop 6 (sql_of notebook)).

(** The catalog these statements leave, from the catalog [cat] before. *)
Definition provision (cat : catalog) : catalog :=
  foldl (λ cat q, apply_sql "crime_db" q cat)
    (foldl (λ cat q, apply_sql "postgres" q cat) cat on_postgres)
    on_crime_db.

(** A statement that grants USAGE on [schema] to [role]. *)
Definition grants_usage (schema role : string) (q : sql) : bool :=
  match q with
  | Grant privs (SCHEMA s) (ROLE r) =>
      bool_decide (s = schema) && bool_decide (r = role) && listed privs USAGE
  | _ => false
  end.

(** *** The order of the statements *)

(** The phases in the order the spec lists them: create database, create
    schema, create enum type, create table, bulk copy, revoke/grant
    privileges, create role (group), create user.  The DROPs of the preamble
    and the SELECTs are no part of the list. *)
Definition listed_phase (q : sql) : option nat :=
  match q with
  | CreateDatabase _ => Some 0%nat
  | CreateSchema _ => Some 1%nat
  | CreateTypeEnum _ _ => Some 2%nat
  | CreateTable _ _ _ => Some 3%nat
  | CopyFromStdinCsvHeader _ _ => Some 4%nat
  | Revoke _ _ _ | Grant _ _ _ | GrantRole _ _ => Some 5%nat
  | CreateGroupNologin _ => Some 6%nat
  | CreateUser _ _ => Some 7%nat
  | DropDatabaseIfExists _ | DropGroupIfExists _ | DropUserIfExists _
  | Select _ => None
  end.

(** The phases in the order the cells have them: the DROP preamble, create
    database, create schema, create enum type, create table, bulk copy,
    revoke, create group, grant privileges, and the users, each created and
    then put into its group. *)
Definition phase (q : sql) : option nat :=
  match q with
  | DropDatabaseIfExists _ | DropGroupIfExists _ | DropUserIfExists _ =>
      Some 0%nat
  | CreateDatabase _ => Some 1%nat
  | CreateSchema _ => Some 2%nat
  | CreateTypeEnum _ _ => Some 3%nat
  | CreateTable _ _ _ => Some 4%nat
  | CopyFromStdinCsvHeader _ _ => Some 5%nat
  | Revoke _ _ _ => Some 6%nat
  | CreateGroupNologin _ => Some 7%nat
  | Grant _ _ _ => Some 8%nat
  | CreateUser _ _ | GrantRole _ _ => Some 9%nat
  | Select _ => None
  end.

Fixpoint ascending (l : list nat) : bool :=
  match l with
  | x :: (y :: _) as l' => bool_decide (x ≤ y)%nat && ascending l'
  | _ => true
  end.

(** A statement with an IF EXISTS guard. *)
Definition guarded (q : sql) : bool :=
  match q with
  | DropDatabaseIfExists _ | DropGroupIfExists _ | DropUserIfExists _ => true
  | _ => false
  end.

End CrimeReport.

(** ** Notebooks/sql_project_chinook.ipynb: the cells *)

Module ChinookNotebook.
Import Driver.

(** The notebook has no Python of its own: every cell is run by the
    ipython-sql magic ([Driver.run_magic]).

    The statements of the [%%sql] cells.  The SELECTs are the queries of
    module [Chinook]: [SelectGenres] is [Chinook.genre_query],
    [SelectEmployees] is [Chinook.employee_query], [SelectCountries] is
    [Chinook.country_query] and [SelectAlbumPurchases] is
    [Chinook.album_purchase_query]; the two views are
    [Chinook.order_by_country] and [Chinook.stats_by_country]. *)
Inductive sql :=
| DropViewIfExists (name : string)
| CreateView (name : string)
| SelectTablesAndViews
| SelectGenres
| SelectEmployees
| SelectCountries
| SelectAlbumPurchases.

#[global] Instance sql_eq_dec : EqDecision sql.
Proof. solve_decision. Defined.

Definition chinook_db : string := "sqlite:///data/chinook.db".

(** [%%capture], [%load_ext sql], [%sql sqlite:///data/chinook.db] *)
Definition cell_1 : list (stmt sql) :=
  [ Import "sql"; MagicConnect chinook_db ].

Definition cell_2 : list (stmt sql) :=
  [ CurExecute (DropViewIfExists "order_by_country");
    CurExecute (DropViewIfExists "stats_by_country");
    CurExecute SelectTablesAndViews;
    FetchallPrint ].

Definition cell_6 : list (stmt sql) :=
  [ CurExecute SelectGenres; FetchallPrint ].

Definition cell_8 : list (stmt sql) :=
  [ CurExecute SelectEmployees; FetchallPrint ].

Definition cell_9 : list (stmt sql) :=
  [ CurExecute (DropViewIfExists "order_by_country");
    CurExecute (CreateView "order_by_country");
    CurExecute (DropViewIfExists "stats_by_country");
    CurExecute (CreateView "stats_by_country") ].

Definition cell_15 : list (stmt sql) :=
  [ CurExecute SelectCountries; FetchallPrint ].

Definition cell_16 : list (stmt sql) :=
  [ CurExecute SelectAlbumPurchases; FetchallPrint ].

(** The notebook, in cell order. *)
Definition notebook : list (list (stmt sql)) :=
  [ cell_1; cell_2; cell_6; cell_8; cell_9; cell_15; cell_16 ].

End ChinookNotebook.

(** ** Sample inputs

    Small tables and a small file system on which the definitions above
    run: the examples of the theorems are taken from them. *)

Module Samples.
Import Driver Chinook.

(** A small record shop, with amounts in [Decimal4.decimal4]: two albums
    (10 with tracks 1 and 2, 11 with track 3), four invoices, three
    customers in two countries, two sales agents.  Invoice 1 buys album 10
    whole, invoice 2 buys tracks of both albums, invoice 3 is album 11,
    invoice 4 has a line for a track the track table does not know. *)
Definition line (id inv trk qty : Z) : invoice_line :=
  {| il_invoice_line_id := Some id; il_invoice_id := Some inv;
     il_track_id := Some trk; il_quantity := Some qty |}.

Definition song (id album gen : Z) : track :=
  {| t_track_id := Some id; t_album_id := Some album;
     t_genre_id := Some gen |}.

Definition bill (id cust : Z) (total : Z) : @invoice Decimal4.decimal4 :=
  {| i_invoice_id := Some id; i_customer_id := Some cust;
     i_total := Some (total : @real Decimal4.decimal4) |}.

Definition buyer (id : Z) (first last country : string) (rep : Z)
    : customer :=
  {| c_customer_id := Some id; c_first_name := Some first;
     c_last_name := Some last; c_country := Some country;
     c_support_rep_id := Some rep |}.

Definition agent (id : Z) (first last hired : string) : employee :=
  {| e_employee_id := Some id; e_first_name := Some first;
     e_last_name := Some last; e_hire_date := Some hired |}.

Definition shop : @database Decimal4.decimal4 :=
  {| tbl_invoice_line :=
       [ line 1 1 1 1; line 2 1 2 1; line 3 2 1 1; line 4 2 3 2;
         line 5 3 3 1; line 6 4 1 1; line 7 4 9 1 ];
     tbl_track := [ song 1 10 1; song 2 10 1; song 3 11 2 ];
     tbl_genre :=
       [ {| g_genre_id := Some 1; g_name := Some "Rock" |};
         {| g_genre_id := Some 2; g_name := Some "Jazz" |} ];
     tbl_invoice :=
       [ bill 1 1 19800; bill 2 2 29700; bill 3 3 9900; bill 4 1 9900 ];
     tbl_customer :=
       [ buyer 1 "Ada" "Berg" "USA" 1; buyer 2 "Cy" "Dunn" "USA" 2;
         buyer 3 "Eva" "Fuentes" "Chile" 1 ];
     tbl_employee :=
       [ agent 1 "Jane" "Peacock" "2017-04-01 00:00:00";
         agent 2 "Steve" "Johnson" "2017-10-17 00:00:00" ] |}.

(** The fields of a line without quotes: split at the commas. *)
Fixpoint split_commas (field : string) (s : string) : list string :=
  match s with
  | EmptyString => [String.rev field]
  | String c s' =>
      if Ascii.eqb c ","%char then String.rev field :: split_commas "" s'
      else split_commas (String c field) s'
  end.

(** A decimal literal without sign. *)
Fixpoint digits (acc : Z) (s : string) : option Z :=
  match s with
  | EmptyString => Some acc
  | String c s' =>
      let n := Z.of_nat (nat_of_ascii c) - 48 in
      if bool_decide (0 ≤ n ≤ 9) then digits (10 * acc + n) s' else None
  end.

Definition parse_int (s : string) : option Z :=
  match s with
  | EmptyString => None
  | _ => digits 0 s
  end.

(** The head of [data/boston.csv], as the notebook prints it. *)
Definition boston_lines : list string :=
  [ "incident_number,offense_code,description,date,day_of_the_week,lat,long";
    "1,619,LARCENY ALL OTHERS,2018-09-02,Sunday,42.35779134,-71.13937053";
    "2,1402,VANDALISM,2018-08-21,Tuesday,42.30682138,-71.06030035";
    "3,3410,TOWED MOTOR VEHICLE,2018-09-03,Monday,42.34658879,-71.07242943" ].

Definition files (path : string) : option (list string) :=
  if bool_decide (path = "data/boston.csv") then Some boston_lines else None.

(** A world in which every call succeeds. *)
Definition calm {sql} : world sql :=
  {| drv_fail := λ _ _, None;
     fs := files;
     csv_reader := map (split_commas "");
     py_int := parse_int |}.

(** A world whose server refuses to create the database. *)
Definition denied : world CrimeReport.sql :=
  {| drv_fail := λ _ c,
       match c with
       | Execute _ (CrimeReport.CreateDatabase _) =>
           Some (DatabaseError "permission denied to create database")
       | _ => None
       end;
     fs := files;
     csv_reader := map (split_commas "");
     py_int := parse_int |}.

(** A world in which the database file of the Chinook notebook cannot be
    opened. *)
Definition no_database : world ChinookNotebook.sql :=
  {| drv_fail := λ _ c,
       match c with
       | Connect _ _ => Some (DatabaseError "unable to open database file")
       | _ => None
       end;
     fs := files;
     csv_reader := map (split_commas "");
     py_int := parse_int |}.

(** A world in which the genre query of the Chinook notebook fails. *)
Definition genre_fails : world ChinookNotebook.sql :=
  {| drv_fail := λ _ c,
       match c with
       | Execute _ ChinookNotebook.SelectGenres =>
           Some (DatabaseError "no such table: genre")
       | _ => None
       end;
     fs := files;
     csv_reader := map (split_commas "");
     py_int := parse_int |}.

(** A shop with a country that is called Other: two customers there, one in
    Chile. *)
Definition shop_other : @database Decimal4.decimal4 :=
  {| tbl_invoice_line := []; tbl_track := []; tbl_genre := [];
     tbl_invoice := [ bill 1 1 19800; bill 2 2 29700; bill 3 3 9900 ];
     tbl_customer :=
       [ buyer 1 "Ada" "Berg" "Other" 1; buyer 2 "Cy" "Dunn" "Other" 1;
         buyer 3 "Eva" "Fuentes" "Chile" 1 ];
     tbl_employee := [] |}.


(** A catalog before the run: nothing granted, nobody a member, no table. *)
Definition empty_catalog : CrimeReport.catalog :=
  {| CrimeReport.granted := λ _ _ _, false;
     CrimeReport.member := λ _ _, false;
     CrimeReport.table_exists := λ _, false |}.

End Samples.

(** ** The figures of the exploration cells

    Cells 13 and 15 of the crime-report notebook loop over a column set to
    find the longest description and the range of the offense codes.  The
    loops run over a Python set, whose order is not fixed: here they run
    over the elements in any one order, and the theorems show that the order
    does not matter. *)

Module Exploration.
Import Driver.

Section Cells.
Context {sql : Type} (W : world sql).

(** Cell 11, the loop below the function:
<<
    for i in range(7):
        print(f"{columns[i]}:  {len(get_col_set('data/boston.csv',i))}")
>>
    with what it prints collected: [columns[i]] is looked up before
    [get_col_set] is called. *)
Definition column_counts (path : string) (n : nat)
    : M sql (list (string * nat)) :=
  for_each (seq 0 n)
    (λ printed i,
       header ← global "columns" columns;
       match header !! i with
       | Some name =>
           col_set ← get_col_set W path i;
           mret (printed ++ [(name, size col_set)])
       | None => raise IndexError
       end)
    [].

(** Cell 13:
<<
    max_length = 0
    for description in descriptions:
        if len(description) > max_length:
            max_length = len(description)
>> *)
Definition max_length (descriptions : list string) : nat :=
  foldl (λ max_length description,
           if bool_decide (max_length < String.length description)%nat
           then String.length description
           else max_length)
    0%nat descriptions.

(** [descriptions = get_col_set('data/boston.csv',2)] and the loop. *)
Definition longest_description (path : string) : M sql nat :=
  descriptions ← get_col_set W path 2;
  mret (max_length (elements descriptions)).

(** Cell 15, one round of the loop on the pair [(min_code, max_code)], after
    [code = int(code)]:
<<
    if code > max_code:
        max_code = code
    if code < min_code:
        min_code = code
>> *)
Definition code_step (range : Z * Z) (code : Z) : Z * Z :=
  (if bool_decide (code < range.1) then code else range.1,
   if bool_decide (range.2 < code) then code else range.2).

(** [min_code = 10000], [max_code = 0] and the loop; [int(code)] raises
    ValueError on a string that is no integer literal. *)
Definition code_range (codes : list string) : M sql (Z * Z) :=
  for_each codes
    (λ range code,
       match py_int W code with
       | Some c => mret (code_step range c)
       | None => raise ValueError
       end)
    (10000, 0).

(** [codes = get_col_set('data/boston.csv',1)] and the loop. *)
Definition min_max_code (path : string) : M sql (Z * Z) :=
  codes ← get_col_set W path 1;
  code_range (elements codes).

End Cells.
End Exploration.

(** ** The figures of the Chinook queries, read off the tables *)

Module ChinookFigures.
Import Sql Chinook.

Section Figures.
Context `{Real64}.

(** The customer row an invoice joins with, and the employee row a customer
    joins with, when there is at most one. *)
Definition customer_of (db : database) (i : invoice) : option customer :=
  head (filter (λ c, holds (sql_eq (c_customer_id c) (i_customer_id i)))
          (tbl_customer db)).

Definition rep_of (db : database) (c : option customer) : option employee :=
  head (filter (λ e, holds (sql_eq (e_employee_id e)
                              (c ≫= c_support_rep_id)))
          (tbl_employee db)).

(** The name under which the employee query counts an invoice. *)
Definition agent_name (db : database) (i : invoice) : option string :=
  employee_name (rep_of db (customer_of db i)).

(** The track row a line joins with and the genre row a track joins with,
    when there is at most one. *)
Definition track_of (db : database) (il : invoice_line) : option track :=
  head (filter (λ t, holds (sql_eq (t_track_id t) (il_track_id il)))
          (tbl_track db)).

Definition genre_of (db : database) (t : track) : option genre :=
  head (filter (λ g, holds (sql_eq (g_genre_id g) (t_genre_id t)))
          (tbl_genre db)).

(** The genre name under which the genre query counts a line; no value for
    a line whose track or genre row is missing. *)
Definition genre_name_of (db : database) (il : invoice_line)
    : option (option string) :=
  t ← track_of db il; g ← genre_of db t; Some (g_name g).


(** The invoices that have a line: the distinct invoice_ids of
    invoice_line. *)
Definition invoices_with_lines (db : database) : list Z :=
  remove_dups (omap il_invoice_id (tbl_invoice_line db)).

(** The label of an invoice in the album-purchase query. *)
Definition album_label (db : database) (inv : Z) : string :=
  if is_album_purchase db inv then "yes" else "no".

End Figures.
End ChinookFigures.

(** ** The views of the Chinook notebook *)

Module Views.
Import Driver ChinookNotebook.

(** The views of the database after a statement that SQLite has run: DROP
    VIEW IF EXISTS takes the view away if it is there, CREATE VIEW adds it
    (SQLite refuses it when the name is taken). *)
Definition run_view (views : gset string) (q : sql) : gset string :=
  match q with
  | DropViewIfExists name => views ∖ {[ name ]}
  | CreateView name => views ∪ {[ name ]}
  | _ => views
  end.

(** The views after a trace, from the views before it: a statement that
    failed has changed nothing. *)
Definition views_after (V : world sql) (tr : list (call sql))
    (views : gset string) : gset string :=
  foldl run_view views (sent (succeeded V [] tr)).

(** The call that must have been made right before a call: a CREATE VIEW
    needs the DROP VIEW IF EXISTS of the same view. *)
Definition drop_before (c : call sql) : option (call sql) :=
  match c with
  | Execute n (CreateView name) => Some (Execute n (DropViewIfExists name))
  | _ => None
  end.

End Views.

(** ** The server's side of the crime-report notebook *)

Module Provisioning.
Import Driver CrimeReport.

(** The roles the notebook drops, creates and grants to. *)
Definition provisioned_roles : list string :=
  ["readonly"; "readwrite"; "data_analyst"; "data_scientist"].

(** The statements PostgreSQL refuses inside a transaction block: the reason
    for [conn.autocommit = True] in cells 2 and 4. *)
Definition outside_transaction (q : sql) : bool :=
  match q with
  | DropDatabaseIfExists _ | CreateDatabase _ => true
  | _ => false
  end.

(** The server after a trace of calls that succeeded, from the catalog
    [cat] before it and no session. *)
Definition server_after (tr : list (call sql)) (cat : catalog) : server :=
  foldl serve
    {| committed := cat; session := []; autocommit := []; pending := [] |}
    tr.

(** The objects that the run makes anew: the database crime_db, its schema
    crimes and the tables in it.  (The other schemas of crime_db are copies
    from template1.) *)
Definition made_by_run (o : securable) : bool :=
  match o with
  | Database db => bool_decide (db = "crime_db")
  | Schema db schema | Table db schema _ =>
      bool_decide (db = "crime_db") && bool_decide (schema = "crimes")
  end.

(** What the statements sent on the [postgres] sessions leave. *)
Definition committed_early (qs : list sql) (cat : catalog) : catalog :=
  foldl (λ cat q, apply_sql "postgres" q cat) cat qs.

End Provisioning.

(** ** More sample inputs *)

Module MoreSamples.
Import Driver.


(** A file with a code that is no integer. *)
Definition damaged_lines : list string :=
  [ "incident_number,offense_code,description,date,day_of_the_week,lat,long";
    "1,619,LARCENY ALL OTHERS,2018-09-02,Sunday,42.35779134,-71.13937053";
    "2,n/a,VANDALISM,2018-08-21,Tuesday,42.30682138,-71.06030035" ].

(** A file with a row that stops after the offense code. *)
Definition ragged_lines : list string :=
  [ "incident_number,offense_code,description,date,day_of_the_week,lat,long";
    "1,619,LARCENY ALL OTHERS,2018-09-02,Sunday,42.35779134,-71.13937053";
    "2,1402" ].

Definition more_files (path : string) : option (list string) :=
  if bool_decide (path = "data/boston.csv") then Some Samples.boston_lines
  else if bool_decide (path = "data/damaged.csv") then Some damaged_lines
  else if bool_decide (path = "data/ragged.csv") then Some ragged_lines
  else if bool_decide (path = "data/empty.csv") then Some []
  else None.

(** A catalog before the run in which everything is granted to everybody,
    everybody is a member of everything, and every table exists. *)
Definition open_catalog : CrimeReport.catalog :=
  {| CrimeReport.granted := λ _ _ _, true;
     CrimeReport.member := λ _ _, true;
     CrimeReport.table_exists := λ _, true |}.

(** A world without any file in which no driver call fails. *)
Definition bare {sql} : world sql :=
  {| drv_fail := λ _ _, None;
     fs := λ _, None;
     csv_reader := map (Samples.split_commas "");
     py_int := Samples.parse_int |}.

(** A world with these files in which no driver call fails. *)
Definition shelf {sql} : world sql :=
  {| drv_fail := λ _ _, None;
     fs := more_files;
     csv_reader := map (Samples.split_commas "");
     py_int := Samples.parse_int |}.

End MoreSamples.

Module SqlFacts.
Import Sql.


Section Lists.
Context {A : Type}.

Lemma filter_fmap_comm {B} (f : B → A) (P : A → Prop) `{∀ x, Decision (P x)}
    (l : list B) :
  filter P (f <$> l) = f <$> filter (λ x, P (f x)) l.
Proof.
  induction l as [|x l IH]; [done|]. cbn [fmap list_fmap].
  rewrite !filter_cons. case_decide; cbn; by rewrite IH.
Qed.

Lemma filter_bind_comm {B} (f : B → list A) (P : A → Prop)
    `{∀ x, Decision (P x)} (l : list B) :
  filter P (l ≫= f) = l ≫= (λ x, filter P (f x)).
Proof.
  induction l as [|x l IH]; [done|]. cbn. by rewrite filter_app, IH.
Qed.

Lemma filter_comm (P Q : A → Prop) `{∀ x, Decision (P x)}
    `{∀ x, Decision (Q x)} (l : list A) :
  filter P (filter Q l) = filter Q (filter P l).
Proof.
  induction l as [|x l IH]; [done|].
  rewrite !filter_cons. repeat (case_decide; rewrite ?filter_cons); by rewrite ?IH.
Qed.

Lemma filter_all (P : A → Prop) `{∀ x, Decision (P x)} (l : list A) :
  (∀ x, x ∈ l → P x) → filter P l = l.
Proof.
  induction l as [|x l IH]; [done|]. intros Hl.
  rewrite filter_cons_True by (apply Hl; left).
  f_equal. apply IH. intros y Hy. apply Hl. by right.
Qed.

Lemma filter_none (P : A → Prop) `{∀ x, Decision (P x)} (l : list A) :
  (∀ x, x ∈ l → ¬ P x) → filter P l = [].
Proof.
  induction l as [|x l IH]; [done|]. intros Hl.
  rewrite filter_cons_False by (apply Hl; left).
  apply IH. intros y Hy. apply Hl. by right.
Qed.

Context `{EqDecision A}.

Lemma filter_eq_NoDup (k : A) (l : list A) :
  NoDup l → filter (λ x, x = k) l = if decide (k ∈ l) then [k] else [].
Proof.
  induction 1 as [|x l Hx Hl IH]; [done|].
  rewrite filter_cons. destruct (decide (x = k)) as [->|Hne].
  - rewrite decide_True by left. f_equal.
    apply filter_none. intros y Hy ->. done.
  - rewrite IH. destruct (decide (k ∈ l)) as [Hk|Hk].
    + rewrite decide_True; [done|by right].
    + rewrite decide_False; [done|]. intros [->|?]%elem_of_cons; done.
Qed.

Lemma filter_remove_dups (P : A → Prop) `{∀ x, Decision (P x)} (l : list A) :
  filter P (remove_dups l) = remove_dups (filter P l).
Proof.
  induction l as [|x l IH]; [done|]. cbn [remove_dups].
  rewrite filter_cons. destruct (decide (P x)) as [HP|HP].
  - cbn [remove_dups].
    destruct (decide_rel elem_of x l) as [Hx|Hx],
             (decide_rel elem_of x (filter P l)) as [Hx'|Hx'].
    + done.
    + destruct Hx'. by apply list_elem_of_filter.
    + apply list_elem_of_filter in Hx' as [_ ?]. done.
    + rewrite filter_cons_True by done. by rewrite IH.
  - destruct (decide_rel elem_of x l); [done|].
    by rewrite filter_cons_False.
Qed.

Lemma length_remove_dups_ext (l1 l2 : list A) :
  (∀ x, x ∈ l1 ↔ x ∈ l2) →
  length (remove_dups l1) = length (remove_dups l2).
Proof.
  intros Hl. apply Permutation_length, NoDup_Permutation.
  - apply NoDup_remove_dups.
  - apply NoDup_remove_dups.
  - intros x. by rewrite !elem_of_remove_dups.
Qed.

Lemma remove_dups_singleton (l : list A) (a : A) :
  remove_dups l = [a] → ∀ x, x ∈ l ↔ x = a.
Proof.
  intros Hl x. rewrite <- elem_of_remove_dups, Hl. apply list_elem_of_singleton.
Qed.

Lemma remove_dups_NoDup (l : list A) : NoDup l → remove_dups l = l.
Proof.
  induction 1 as [|x l Hx Hl IH]; [done|]. cbn [remove_dups].
  destruct (decide_rel elem_of x l); [done|]. by rewrite IH.
Qed.

End Lists.

Lemma non_null_fmap {A B} (f : A → option B) (l : list A) :
  non_null (f <$> l) = omap f l.
Proof. unfold non_null. induction l as [|x l IH]; [done|]. cbn. rewrite IH. by destruct (f x). Qed.

Lemma elem_of_non_null {A} (col : list (option A)) (x : A) :
  x ∈ non_null col ↔ Some x ∈ col.
Proof.
  unfold non_null. rewrite list_elem_of_omap. split.
  - intros (o & Ho & <-). done.
  - intros Hx. by exists (Some x).
Qed.

Lemma holds_sql_eq {A} `{EqDecision A} (x y : option A) :
  holds (sql_eq x y) ↔ ∃ v, x = Some v ∧ y = Some v.
Proof.
  unfold holds, sql_eq. destruct x as [a|], y as [b|]; try naive_solver.
  case_bool_decide; naive_solver.
Qed.

Section GroupBy.
Context {A K : Type} `{EqDecision K} (key : A → K).

Lemma group_by_keys (l : list A) :
  (group_by key l).*1 = remove_dups (key <$> l).
Proof.
  unfold group_by. rewrite <- list_fmap_compose.
  induction (remove_dups (key <$> l)) as [|k ks IH]; [done|].
  cbn. by rewrite IH.
Qed.

Lemma NoDup_group_by_keys (l : list A) : NoDup (group_by key l).*1.
Proof. rewrite group_by_keys. apply NoDup_remove_dups. Qed.

Lemma elem_of_group_by (l : list A) (k : K) (g : list A) :
  (k, g) ∈ group_by key l ↔ k ∈ key <$> l ∧ g = filter (λ a, key a = k) l.
Proof.
  unfold group_by. rewrite list_elem_of_fmap.
  setoid_rewrite elem_of_remove_dups. split.
  - intros (k' & Heq & Hk). injection Heq as -> ->. done.
  - intros [Hk ->]. by exists k.
Qed.

Lemma group_by_filter_key (l : list A) (k : K) :
  filter (λ kg, kg.1 = k) (group_by key l)
  = if decide (k ∈ key <$> l) then [(k, filter (λ a, key a = k) l)] else [].
Proof.
  unfold group_by. rewrite filter_fmap_comm. cbn.
  rewrite filter_eq_NoDup by apply NoDup_remove_dups.
  destruct (decide (k ∈ key <$> l)) as [Hk|Hk].
  - rewrite decide_True by (by apply elem_of_remove_dups). done.
  - rewrite decide_False by (by rewrite elem_of_remove_dups). done.
Qed.

Lemma group_by_nonempty (l : list A) (k : K) (g : list A) :
  (k, g) ∈ group_by key l → ∃ a, a ∈ g ∧ key a = k.
Proof.
  intros [(a & -> & Ha)%list_elem_of_fmap ->]%elem_of_group_by.
  exists a. by rewrite list_elem_of_filter.
Qed.

End GroupBy.

Section Joins.
Context {A B : Type} (on : A → B → option bool).

Lemma elem_of_inner_join (l : list A) (r : list B) (a : A) (b : B) :
  (a, b) ∈ inner_join on l r ↔ a ∈ l ∧ b ∈ r ∧ holds (on a b).
Proof.
  unfold inner_join. rewrite list_elem_of_bind. split.
  - intros (a' & (b' & [= -> ->] & Hb%list_elem_of_filter)%list_elem_of_fmap & Ha).
    tauto.
  - intros (Ha & Hb & Hon). exists a. split; [|done].
    apply list_elem_of_fmap. exists b. split; [done|].
    by apply list_elem_of_filter.
Qed.

Lemma elem_of_left_join (l : list A) (r : list B) (a : A) (o : option B) :
  (a, o) ∈ left_join on l r ↔
  a ∈ l ∧ match o with
          | Some b => b ∈ r ∧ holds (on a b)
          | None => ∀ b, b ∈ r → ¬ holds (on a b)
          end.
Proof.
  unfold left_join. rewrite list_elem_of_bind. split.
  - intros (a' & Hin & Ha).
    destruct (filter (λ b, holds (on a' b)) r) as [|b0 bs] eqn:Hf.
    + apply list_elem_of_singleton in Hin as [= -> ->]. split; [done|].
      intros b Hb Hon. exact (filter_nil_not_elem_of _ _ _ Hf Hon Hb).
    + apply list_elem_of_fmap in Hin as (b & [= -> ->] & Hb).
      rewrite <- Hf in Hb. apply list_elem_of_filter in Hb. tauto.
  - intros [Ha Ho]. exists a. split; [|done].
    destruct (filter (λ b, holds (on a b)) r) as [|b0 bs] eqn:Hf.
    + destruct o as [b|]; [|left].
      destruct Ho as [Hb Hon]. destruct (filter_nil_not_elem_of _ _ _ Hf Hon Hb).
    + rewrite <- Hf. destruct o as [b|].
      * apply list_elem_of_fmap. exists b. split; [done|].
        apply list_elem_of_filter. tauto.
      * assert (b0 ∈ filter (λ b, holds (on a b)) r) as Hb0 by (rewrite Hf; left).
        apply list_elem_of_filter in Hb0 as [Hon Hb0]. destruct (Ho b0 Hb0 Hon).
Qed.

Lemma left_join_total (l : list A) (r : list B) (a : A) :
  a ∈ l → ∃ o, (a, o) ∈ left_join on l r.
Proof.
  intros Ha. destruct (filter (λ b, holds (on a b)) r) as [|b0 bs] eqn:Hf.
  - exists None. apply elem_of_left_join. split; [done|].
    intros b Hb Hon. exact (filter_nil_not_elem_of _ _ _ Hf Hon Hb).
  - exists (Some b0). apply elem_of_left_join. split; [done|].
    assert (b0 ∈ filter (λ b, holds (on a b)) r) as Hb0 by (rewrite Hf; left).
    apply list_elem_of_filter in Hb0. tauto.
Qed.

Lemma filter_left_join (P : A → Prop) `{∀ a, Decision (P a)}
    (l : list A) (r : list B) :
  filter (λ p, P p.1) (left_join on l r) = left_join on (filter P l) r.
Proof.
  unfold left_join. induction l as [|a l IH]; [done|].
  cbn [mbind list_bind]. rewrite filter_app, IH, filter_cons.
  destruct (decide (P a)) as [HP|HP]; cbn [mbind list_bind].
  - f_equal. apply filter_all. intros [a' o] Hin. cbn.
    destruct (filter _ r).
    + by apply list_elem_of_singleton in Hin as [= -> ->].
    + by apply list_elem_of_fmap in Hin as (b' & [= -> ->] & _).
  - rewrite filter_none; [done|]. intros [a' o] Hin. cbn.
    destruct (filter _ r).
    + by apply list_elem_of_singleton in Hin as [= -> ->].
    + by apply list_elem_of_fmap in Hin as (b' & [= -> ->] & _).
Qed.

(** The rows of a LEFT JOIN that found a partner are the INNER JOIN, in the
    same order. *)
Lemma left_join_matched (l : list A) (r : list B) :
  omap (λ p, pair p.1 <$> p.2) (left_join on l r) = inner_join on l r.
Proof.
  unfold left_join, inner_join. induction l as [|a l IH]; [done|].
  cbn [mbind list_bind]. rewrite omap_app, IH. f_equal.
  destruct (filter (λ b, holds (on a b)) r) as [|b0 bs]; [done|].
  generalize (b0 :: bs). intros bs'. induction bs' as [|b bs' IH']; [done|].
  cbn. by rewrite IH'.
Qed.

End Joins.

Section MaxRow.
Context {A : Type} (key : A → option Z).

Lemma max_row_from_spec (g : list A) (best : option Z) (kept : option A)
    (r : A) :
  max_row_from key best kept g = Some r →
  (∀ k, kept = Some k → key k = best) →
  (kept = Some r ∨ r ∈ g)
  ∧ (∀ a v, a ∈ g → key a = Some v → ∃ m, key r = Some m ∧ v ≤ m)
  ∧ (∀ m0, best = Some m0 → ∃ m, key r = Some m ∧ m0 ≤ m).
Proof.
  revert best kept. induction g as [|a g IH]; intros best kept Hr Hkept.
  - cbn in Hr. subst kept. split_and!.
    + by left.
    + intros a v Ha. by apply not_elem_of_nil in Ha.
    + intros m0 ->. exists m0. split; [by apply Hkept | lia].
  - cbn in Hr. destruct (key a) as [v|] eqn:Hka, best as [m|].
    + case_bool_decide as Hlt.
      * apply IH in Hr as (Hin & Hall & Hbest); [|by intros k [= <-]].
        destruct (Hbest v eq_refl) as (m' & Hm' & Hle). split_and!.
        -- destruct Hin as [[= <-]|Hin]; right; [left | by right].
        -- intros a' v' [->|Ha']%elem_of_cons Hk'; [|by eauto].
           rewrite Hka in Hk'. injection Hk' as <-. eauto.
        -- intros m0 [= <-]. exists m'. split; [done|lia].
      * apply IH in Hr as (Hin & Hall & Hbest); [|done].
        destruct (Hbest m eq_refl) as (m' & Hm' & Hle). split_and!.
        -- destruct Hin as [Hin|Hin]; [by left | right; by right].
        -- intros a' v' [->|Ha']%elem_of_cons Hk'; [|by eauto].
           rewrite Hka in Hk'. injection Hk' as <-. exists m'. split; [done|lia].
        -- intros m0 [= <-]. eauto.
    + apply IH in Hr as (Hin & Hall & Hbest); [|by intros k [= <-]].
      destruct (Hbest v eq_refl) as (m' & Hm' & Hle). split_and!.
      * destruct Hin as [[= <-]|Hin]; right; [left | by right].
      * intros a' v' [->|Ha']%elem_of_cons Hk'; [|by eauto].
        rewrite Hka in Hk'. injection Hk' as <-. eauto.
      * done.
    + apply IH in Hr as (Hin & Hall & Hbest); [|done]. split_and!.
      * destruct Hin as [Hin|Hin]; [by left | right; by right].
      * intros a' v' [->|Ha']%elem_of_cons Hk'; [congruence | by eauto].
      * done.
    + apply IH in Hr as (Hin & Hall & Hbest); [|by intros k [= <-]]. split_and!.
      * destruct Hin as [[= <-]|Hin]; right; [left | by right].
      * intros a' v' [->|Ha']%elem_of_cons Hk'; [congruence | by eauto].
      * done.
Qed.

Lemma max_row_from_is_Some (g : list A) (best : option Z) (kept : option A) :
  best = None ∨ is_Some kept → g ≠ [] ∨ is_Some kept →
  is_Some (max_row_from key best kept g).
Proof.
  revert best kept. induction g as [|a g IH]; intros best kept Hinv Hne.
  - cbn. by destruct Hne.
  - cbn. destruct (key a) as [v|], best as [m|].
    + case_bool_decide; apply IH; eauto.
      destruct Hinv as [|?]; [done|]. by right.
    + apply IH; eauto.
    + destruct Hinv as [|?]; [done|]. apply IH; eauto.
    + apply IH; eauto.
Qed.

(** The row a bare column is read from belongs to the group and carries its
    greatest key. *)
Lemma max_row_spec (g : list A) :
  g ≠ [] →
  ∃ r, max_row key g = Some r ∧ r ∈ g
       ∧ ∀ a v, a ∈ g → key a = Some v → ∃ m, key r = Some m ∧ v ≤ m.
Proof.
  intros Hne. destruct (max_row_from_is_Some g None None) as [r Hr]; eauto.
  exists r. split; [done|].
  apply max_row_from_spec in Hr as (Hin & Hall & _); [|done].
  destruct Hin as [|Hin]; done.
Qed.

End MaxRow.

Section Binds.
Context {A B C : Type}.


Lemma fmap_bind (f : A → B) (h : C → list A) (l : list C) :
  f <$> (l ≫= h) = l ≫= (λ x, f <$> h x).
Proof.
  induction l as [|x l IH]; [done|].
  cbn [mbind list_bind]. by rewrite fmap_app, IH.
Qed.



End Binds.

Section LeftJoinBind.
Context {A B C : Type} (on : A → B → option bool).

(** Filtering and projecting, as one bind. *)
Lemma fmap_filter_as_bind (f : A → C) (P : A → Prop) `{∀ x, Decision (P x)}
    (l : list A) :
  f <$> filter P l = l ≫= (λ x, if decide (P x) then [f x] else []).
Proof.
  induction l as [|x l IH]; [done|].
  rewrite filter_cons. cbn [mbind list_bind].
  destruct (decide (P x)); cbn; by rewrite IH.
Qed.

(** A continuation that drops the rows without partner sees a LEFT JOIN as
    the nested loop over the partners. *)
Lemma bind_left_join (k : A * option B → list C) (l : list A) (r : list B) :
  (∀ a, k (a, None) = []) →
  left_join on l r ≫= k
  = l ≫= (λ a, filter (λ b, holds (on a b)) r ≫= (λ b, k (a, Some b))).
Proof.
  intros Hk. unfold left_join. induction l as [|a l IH]; [done|].
  cbn [mbind list_bind]. rewrite bind_app, IH. f_equal.
  destruct (filter (λ b, holds (on a b)) r) as [|b0 bs].
  - cbn. by rewrite Hk.
  - generalize (b0 :: bs). intros bs'.
    induction bs' as [|b bs' IH']; [done|]. cbn. by rewrite IH'.
Qed.

End LeftJoinBind.

Section OrderBy.
Context {A : Type} (le : A → A → bool).

Lemma order_by_Permutation (l : list A) : order_by le l ≡ₚ l.
Proof. apply merge_sort_Permutation. Qed.



End OrderBy.

End SqlFacts.

Module ChinookFacts.
Import Sql SqlFacts Chinook.


Section AlbumPurchase.
Context `{Real64}.
Implicit Types (db : database) (inv a : Z).

(** The rows of [invoice_album] come from the lines, each at least once. *)
Lemma elem_of_invoice_album db ia :
  ia ∈ invoice_album db ↔
  ∃ il ot, il ∈ tbl_invoice_line db
    ∧ match ot with
      | Some t => t ∈ tbl_track db
                  ∧ holds (sql_eq (t_track_id t) (il_track_id il))
      | None => ∀ t, t ∈ tbl_track db
                  → ¬ holds (sql_eq (t_track_id t) (il_track_id il))
      end
    ∧ ia = {| ia_invoice_id := il_invoice_id il;
              ia_invoice_line_id := il_invoice_line_id il;
              ia_track_id := il_track_id il;
              ia_album_id := ot ≫= t_album_id |}.
Proof.
  unfold invoice_album. rewrite list_elem_of_fmap. split.
  - intros ([il ot] & -> & Hin). apply elem_of_left_join in Hin as [Hil Hot].
    by exists il, ot.
  - intros (il & ot & Hil & Hot & ->). exists (il, ot). split; [done|].
    by apply elem_of_left_join.
Qed.

(** The group of invoice [inv] in the query's GROUP BY. *)
Lemma elem_of_invoice_group db inv r :
  r ∈ filter (λ r, ia_invoice_id r.1 = Some inv) (invoice_album_length db) ↔
  ia_invoice_id r.1 = Some inv ∧ r.1 ∈ invoice_album db
  ∧ match r.2 with
    | Some al => al ∈ album_lengths db
                 ∧ holds (sql_eq (al_album_id al) (ia_album_id r.1))
    | None => ∀ al, al ∈ album_lengths db
                 → ¬ holds (sql_eq (al_album_id al) (ia_album_id r.1))
    end.
Proof.
  rewrite list_elem_of_filter. unfold invoice_album_length.
  destruct r as [ia o]. by rewrite elem_of_left_join.
Qed.

Lemma elem_of_album_lengths db al :
  al ∈ album_lengths db ↔
  al_album_id al ∈ t_album_id <$> tbl_track db
  ∧ al_album_length al
    = count_distinct
        (t_track_id <$> filter (λ t, t_album_id t = al_album_id al) (tbl_track db)).
Proof.
  unfold album_lengths. rewrite list_elem_of_fmap. split.
  - intros ([k g] & -> & Hkg). apply elem_of_group_by in Hkg as [Hk ->].
    by split.
  - intros [Hk Hlen].
    exists (al_album_id al,
            filter (λ t, t_album_id t = al_album_id al) (tbl_track db)).
    split; [|by apply elem_of_group_by].
    destruct al. cbn in *. by rewrite Hlen.
Qed.

Lemma album_length_of db a :
  count_distinct
    (t_track_id <$> filter (λ t, t_album_id t = Some a) (tbl_track db))
  = Z.of_nat (length (album_tracks db a)).
Proof. unfold count_distinct, album_tracks. by rewrite non_null_fmap. Qed.

Lemma elem_of_tracks_of db inv t :
  t ∈ tracks_of db inv ↔
  ∃ il, il ∈ tbl_invoice_line db ∧ il_invoice_id il = Some inv
        ∧ t ∈ tbl_track db ∧ holds (sql_eq (t_track_id t) (il_track_id il)).
Proof.
  unfold tracks_of, lines_of. rewrite list_elem_of_bind.
  setoid_rewrite list_elem_of_filter. naive_solver.
Qed.

Local Abbreviation group_of db inv :=
  (filter (λ r, ia_invoice_id r.1 = Some inv) (invoice_album_length db)).

(** Every row of [invoice_album] has a row in the join with
    [album_lengths]. *)
Lemma invoice_album_in_group db inv ia :
  ia ∈ invoice_album db → ia_invoice_id ia = Some inv →
  ∃ o, (ia, o) ∈ group_of db inv.
Proof.
  intros Hia Hinv.
  destruct (left_join_total
              (λ ia al, sql_eq (al_album_id al) (ia_album_id ia))
              (invoice_album db) (album_lengths db) ia Hia) as [o Ho].
  exists o. apply elem_of_invoice_group. split_and!; [done..|].
  by apply elem_of_left_join in Ho as [_ Ho].
Qed.

(** The album_ids the query counts are those of the tracks on the lines. *)
Lemma group_albums db inv a :
  a ∈ non_null ((λ r, ia_album_id r.1) <$> group_of db inv)
  ↔ a ∈ omap t_album_id (tracks_of db inv).
Proof.
  rewrite elem_of_non_null, list_elem_of_fmap, list_elem_of_omap. split.
  - intros ([ia o] & Ha & Hr).
    apply elem_of_invoice_group in Hr as (Hinv & Hia & _). cbn in *.
    apply elem_of_invoice_album in Hia as (il & ot & Hil & Hot & ->).
    cbn in *. destruct ot as [t|]; [|done]. destruct Hot as [Ht Hon].
    exists t. split; [|done]. apply elem_of_tracks_of. by exists il.
  - intros (t & Ht & Ha).
    apply elem_of_tracks_of in Ht as (il & Hil & Hinv & Ht & Hon).
    destruct (invoice_album_in_group db inv
                {| ia_invoice_id := il_invoice_id il;
                   ia_invoice_line_id := il_invoice_line_id il;
                   ia_track_id := il_track_id il;
                   ia_album_id := Some t ≫= t_album_id |}) as [o Ho].
    + apply elem_of_invoice_album. by exists il, (Some t).
    + done.
    + eexists. split; [|exact Ho]. done.
Qed.

(** The track_ids the query counts are those on the lines. *)
Lemma group_tracks db inv x :
  x ∈ non_null ((λ r, ia_track_id r.1) <$> group_of db inv)
  ↔ x ∈ omap il_track_id (lines_of db inv).
Proof.
  rewrite elem_of_non_null, list_elem_of_fmap, list_elem_of_omap. split.
  - intros ([ia o] & Hx & Hr).
    apply elem_of_invoice_group in Hr as (Hinv & Hia & _). cbn in *.
    apply elem_of_invoice_album in Hia as (il & ot & Hil & Hot & ->).
    cbn in *. exists il. split; [|done]. by apply list_elem_of_filter.
  - intros (il & [Hinv Hil]%list_elem_of_filter & Hx).
    destruct (left_join_total
                (λ il t, sql_eq (t_track_id t) (il_track_id il))
                (tbl_invoice_line db) (tbl_track db) il Hil) as [ot Hot].
    apply elem_of_left_join in Hot as [_ Hot].
    destruct (invoice_album_in_group db inv
                {| ia_invoice_id := il_invoice_id il;
                   ia_invoice_line_id := il_invoice_line_id il;
                   ia_track_id := il_track_id il;
                   ia_album_id := ot ≫= t_album_id |}) as [o Ho].
    + apply elem_of_invoice_album. by exists il, ot.
    + done.
    + eexists. split; [|exact Ho]. done.
Qed.

Lemma num_albums_of db inv :
  count_distinct ((λ r, ia_album_id r.1) <$> group_of db inv)
  = Z.of_nat (length (albums_bought db inv)).
Proof.
  unfold count_distinct, albums_bought. f_equal.
  apply length_remove_dups_ext, group_albums.
Qed.

Lemma distinct_songs_of db inv :
  count_distinct ((λ r, ia_track_id r.1) <$> group_of db inv)
  = Z.of_nat (length (tracks_bought db inv)).
Proof.
  unfold count_distinct, tracks_bought. f_equal.
  apply length_remove_dups_ext, group_tracks.
Qed.

(** With one album on the lines, the bare column [al.album_length] is the
    length of that album. *)
Lemma bare_album_length db inv a :
  albums_bought db inv = [a] →
  (r ← max_row (λ r, ia_album_id r.1) (group_of db inv);
   al_album_length <$> r.2)
  = Some (Z.of_nat (length (album_tracks db a))).
Proof.
  intros Ha.
  assert (∀ x, x ∈ omap t_album_id (tracks_of db inv) ↔ x = a) as Hall
    by by apply remove_dups_singleton.
  assert (a ∈ non_null ((λ r, ia_album_id r.1) <$> group_of db inv)) as Hin
    by by apply group_albums, Hall.
  apply elem_of_non_null, list_elem_of_fmap in Hin as (r0 & Hr0 & Hg0).
  destruct (max_row_spec (λ r, ia_album_id r.1) (group_of db inv))
    as (r & -> & Hr & Hmax).
  { intros Hnil. rewrite Hnil in Hg0. by apply not_elem_of_nil in Hg0. }
  destruct (Hmax r0 a Hg0) as (m & Hm & _); [done|].
  assert (m = a) as ->.
  { apply Hall, group_albums, elem_of_non_null, list_elem_of_fmap.
    by exists r. }
  cbn. apply elem_of_invoice_group in Hr as (_ & _ & Hal).
  rewrite Hm in Hal. destruct (r.2) as [al|].
  - destruct Hal as [Hal (v & Hv & [= <-])%holds_sql_eq]. cbn.
    apply elem_of_album_lengths in Hal as [_ ->].
    rewrite Hv. by rewrite album_length_of.
  - exfalso.
    assert (a ∈ omap t_album_id (tracks_of db inv)) as Hta by by apply Hall.
    apply list_elem_of_omap in Hta as (t & Ht & Hta).
    apply elem_of_tracks_of in Ht as (_ & _ & _ & Ht & _).
    apply (Hal {| al_album_id := Some a;
                  al_album_length :=
                    count_distinct
                      (t_track_id
                       <$> filter (λ t, t_album_id t = Some a) (tbl_track db)) |}).
    + apply elem_of_album_lengths. split; [|done]. cbn.
      apply list_elem_of_fmap. by exists t.
    + apply holds_sql_eq. by exists a.
Qed.

Lemma having_yes_of db inv :
  having_yes (purchase_of "yes" (Some inv, group_of db inv))
  = Some (is_album_purchase db inv).
Proof.
  unfold having_yes, purchase_of, is_album_purchase.
  cbn [pr_num_albums pr_distinct_songs pr_album_length fst snd].
  rewrite num_albums_of, distinct_songs_of.
  destruct (albums_bought db inv) as [|a [|b l]] eqn:Ha.
  - done.
  - rewrite (bare_album_length db inv a Ha). unfold sql_and, sql_eq.
    cbn [length]. repeat case_bool_decide; first [done | exfalso; lia].
  - unfold sql_and, sql_eq. cbn [length].
    repeat case_bool_decide; first [done | exfalso; lia].
Qed.

Lemma having_no_of db inv :
  having_no (purchase_of "no" (Some inv, group_of db inv))
  = Some (negb (is_album_purchase db inv)).
Proof.
  unfold having_no, purchase_of, is_album_purchase, sql_ne.
  cbn [pr_num_albums pr_distinct_songs pr_album_length fst snd].
  rewrite num_albums_of, distinct_songs_of.
  destruct (albums_bought db inv) as [|a [|b l]] eqn:Ha.
  - done.
  - rewrite (bare_album_length db inv a Ha). unfold sql_or, sql_eq.
    cbn [length fmap option_fmap option_map].
    repeat case_bool_decide; first [done | exfalso; lia].
  - unfold sql_or, sql_eq. cbn [length fmap option_fmap option_map].
    repeat case_bool_decide; first [done | exfalso; lia].
Qed.

(** The group of an invoice with a line is the only one with its key. *)
Lemma classes_of_invoice (label : string) db inv :
  lines_of db inv ≠ [] →
  filter (λ r, pr_invoice_id r = Some inv)
    (purchase_of label
     <$> group_by (λ r, ia_invoice_id r.1) (invoice_album_length db))
  = [purchase_of label (Some inv, group_of db inv)].
Proof.
  intros Hne. rewrite filter_fmap_comm.
  rewrite (list_filter_iff _ (λ kg, kg.1 = Some inv)) by done.
  rewrite group_by_filter_key, decide_True; [done|].
  destruct (lines_of db inv) as [|il ls] eqn:Hls; [done|].
  assert (il ∈ lines_of db inv) as Hil by (rewrite Hls; left).
  apply list_elem_of_filter in Hil as [Hinv Hil].
  destruct (left_join_total
              (λ il t, sql_eq (t_track_id t) (il_track_id il))
              (tbl_invoice_line db) (tbl_track db) il Hil) as [ot Hot].
  apply elem_of_left_join in Hot as [_ Hot].
  destruct (invoice_album_in_group db inv
              {| ia_invoice_id := il_invoice_id il;
                 ia_invoice_line_id := il_invoice_line_id il;
                 ia_track_id := il_track_id il;
                 ia_album_id := ot ≫= t_album_id |}) as [o Ho].
  - apply elem_of_invoice_album. by exists il, ot.
  - done.
  - apply list_elem_of_filter in Ho as [_ Ho].
    apply list_elem_of_fmap. eexists. split; [|exact Ho]. done.
Qed.

(** C1.  The album-purchase query gives every invoice that has an
    invoice_line row exactly one label: "yes" when the tracks on its lines
    have exactly one distinct album_id and its lines have as many distinct
    track_ids as that album has distinct tracks in the track table, and "no"
    otherwise. *)
Theorem album_purchase_classification db inv :
  lines_of db inv ≠ [] →
  album_purchase_of db inv
  = [if is_album_purchase db inv then "yes" else "no"].
Proof.
  intros Hne. unfold album_purchase_of, invoice_classes, union.
  rewrite filter_remove_dups, filter_app.
  rewrite (filter_comm _ (λ r, holds (having_yes r))).
  rewrite (filter_comm _ (λ r, holds (having_no r))).
  rewrite !classes_of_invoice by done.
  rewrite !filter_cons, !filter_nil.
  unfold holds. rewrite having_yes_of, having_no_of.
  destruct (is_album_purchase db inv).
  - rewrite decide_True by done. rewrite decide_False by done. done.
  - rewrite decide_False by done. rewrite decide_True by done. done.
Qed.

End AlbumPurchase.
Section GenrePopularity.
Context `{Real64}.
Implicit Types (db : database) (name : option string).







(** The quantities added up without their signs. *)
Local Abbreviation abs_total l := (foldr Z.add 0 (Z.abs <$> non_null l)).







End GenrePopularity.

Section EmployeePerformance.
Context `{Real64}.
Implicit Types (db : database) (name : string).

Lemma employee_name_None : employee_name None = None.
Proof. done. Qed.

(** The totals in the group of an employee name: the two LEFT JOINs act as
    inner joins there, since a row without employee has a NULL name. *)
Lemma employee_group_totals db name :
  (λ r, i_total r.1.1)
  <$> filter (λ r, employee_name r.2 = Some name)
        (invoice_customer_employee db)
  = totals_of_employee db name.
Proof.
  unfold invoice_customer_employee, totals_of_employee.
  rewrite fmap_filter_as_bind, bind_left_join by done.
  rewrite bind_left_join.
  - apply list_bind_ext; [|done]. intros i.
    apply list_bind_ext; [|done]. intros c.
    apply list_bind_ext; [|done]. intros e. done.
  - intros i. cbn. rewrite filter_none; [done|].
    intros e _ (v & _ & [=])%holds_sql_eq.
Qed.

(** C7.  In the employee query, the total_sales of a row with employee name
    [name] is the sum of invoice.total over the invoices whose customer's
    support_rep_id matches an employee of that name. *)
Theorem employee_total_sales db row name :
  row ∈ employee_query db → er_employee_name row = Some name →
  er_total_sales row = sales_of_employee db name.
Proof.
  unfold employee_query. intros ([k g] & -> & Hkg)%list_elem_of_fmap Hname.
  cbn in *. subst k. apply elem_of_group_by in Hkg as [_ ->].
  unfold sales_of_employee. by rewrite employee_group_totals.
Qed.

(** Every name of an employee with an invoice has exactly one row. *)
Lemma employee_rows_NoDup db :
  NoDup (er_employee_name <$> employee_query db).
Proof.
  unfold employee_query. rewrite <- list_fmap_compose.
  apply (NoDup_group_by_keys (λ r, employee_name r.2)).
Qed.

End EmployeePerformance.

Section CountryStatistics.
Context `{Real64}.
Implicit Types (db : database) (k : option string).

(** The row of the view [order_by_country] for an invoice and its
    customer. *)
Local Abbreviation view_row :=
  (λ ic : invoice * option customer,
     {| or_total := i_total ic.1;
        or_customer_id := ic.2 ≫= c_customer_id;
        or_customer_name :=
          concat (concat (ic.2 ≫= c_first_name) (Some " "))
                 (ic.2 ≫= c_last_name);
        or_country := ic.2 ≫= c_country |}).

(** The LEFT JOIN of the view pairs every invoice with its customers. *)
Lemma left_join_customers db :
  left_join (λ i c, sql_eq (c_customer_id c) (i_customer_id i))
    (tbl_invoice db) (tbl_customer db)
  = i ← tbl_invoice db; pair i <$> customers_of_invoice db i.
Proof.
  unfold left_join, customers_of_invoice. apply list_bind_ext; [|done].
  intros i. destruct (filter _ (tbl_customer db)) as [|c cs]; [done|].
  by rewrite <- list_fmap_compose.
Qed.

(** The countries of the view are the countries of the orders. *)
Lemma view_countries db :
  remove_dups (or_country <$> order_by_country db) = countries db.
Proof.
  unfold order_by_country, countries.
  rewrite <- list_fmap_compose, left_join_customers, fmap_bind. f_equal.
  apply list_bind_ext; [|done]. intros i. by rewrite <- list_fmap_compose.
Qed.

(** The group of a country in the view: the orders of the country. *)
Lemma view_orders db k :
  filter (λ o, or_country o = k) (order_by_country db)
  = view_row <$> orders_of_country db k.
Proof.
  unfold order_by_country, orders_of_country.
  rewrite filter_fmap_comm, left_join_customers, filter_bind_comm. f_equal.
  apply list_bind_ext; [|done]. intros i.
  induction (customers_of_invoice db i) as [|c cs IH]; [done|].
  rewrite fmap_cons, filter_cons, bind_cons, IH. cbn [snd or_country].
  unfold country_of. by destruct (decide (c ≫= c_country = k)).
Qed.

(** The row of the view [stats_by_country] for a country. *)
Lemma stats_of_country db k first :
  stats_row_of first (k, view_row <$> orders_of_country db k)
  = {| sr_country := k;
       sr_number_of_customers := customers_of_country db k;
       sr_total_sales := sales_of_country db k;
       sr_number_of_orders := number_of_orders db k;
       sr_sales_per_customer :=
         r_round 2
         <$> (s ← sum_real ((λ o, i_total o.1) <$> orders_of_country db k);
              d ← first; r_div s d) |}.
Proof.
  unfold stats_row_of, customers_of_country, sales_of_country,
    number_of_orders. cbn [fst snd]. by rewrite <- !list_fmap_compose.
Qed.

(** The view has one row per country. *)
Lemma stats_by_country_eq db :
  stats_by_country db
  = (λ k, {| sr_country := k;
             sr_number_of_customers := customers_of_country db k;
             sr_total_sales := sales_of_country db k;
             sr_number_of_orders := number_of_orders db k;
             sr_sales_per_customer :=
               r_round 2
               <$> (s ← sum_real ((λ o, i_total o.1)
                                  <$> orders_of_country db k);
                    d ← first_customer_count db; r_div s d) |})
    <$> countries db.
Proof.
  unfold stats_by_country, group_by.
  rewrite view_countries, <- list_fmap_compose.
  apply list_fmap_ext. intros _ k _. cbn.
  by rewrite view_orders, stats_of_country.
Qed.

(** A projection of the rows of the view that satisfy a condition. *)
Lemma stats_fmap_filter {X} (f : stats_row → X) (P : stats_row → Prop)
    `{∀ s, Decision (P s)} db :
  f <$> filter P (stats_by_country db)
  = (λ k, f {| sr_country := k;
               sr_number_of_customers := customers_of_country db k;
               sr_total_sales := sales_of_country db k;
               sr_number_of_orders := number_of_orders db k;
               sr_sales_per_customer :=
                 r_round 2
                 <$> (s ← sum_real ((λ o, i_total o.1)
                                    <$> orders_of_country db k);
                      d ← first_customer_count db; r_div s d) |})
    <$> filter (λ k, P {| sr_country := k;
                          sr_number_of_customers := customers_of_country db k;
                          sr_total_sales := sales_of_country db k;
                          sr_number_of_orders := number_of_orders db k;
                          sr_sales_per_customer :=
                            r_round 2
                            <$> (s ← sum_real ((λ o, i_total o.1)
                                               <$> orders_of_country db k);
                                 d ← first_customer_count db; r_div s d) |})
          (countries db).
Proof.
  by rewrite stats_by_country_eq, filter_fmap_comm, <- list_fmap_compose.
Qed.

Lemma country_rows_countries db :
  cr_country <$> country_rows db = large_countries db.
Proof.
  unfold country_rows. rewrite <- list_fmap_compose, stats_fmap_filter.
  cbn. by rewrite list_fmap_id.
Qed.

Lemma country_rows_results db :
  (λ r, {| res_country := cr_country r;
           res_number_of_customers := cr_number_of_customers r;
           res_total_sales := cr_total_sales r;
           res_sales_per_customer := cr_sales_per_customer r;
           res_sales_per_order := cr_sales_per_order r |})
  <$> country_rows db
  = country_result_of db <$> large_countries db.
Proof.
  unfold country_rows. rewrite <- list_fmap_compose, stats_fmap_filter.
  done.
Qed.

Lemma other_row_result db :
  {| res_country := cr_country (other_row db);
     res_number_of_customers := cr_number_of_customers (other_row db);
     res_total_sales := cr_total_sales (other_row db);
     res_sales_per_customer := cr_sales_per_customer (other_row db);
     res_sales_per_order := cr_sales_per_order (other_row db) |}
  = other_result db.
Proof.
  unfold other_row, other_result, other_result_over, single_customer_stats.
  cbn [cr_country cr_number_of_customers cr_total_sales
       cr_sales_per_customer cr_sales_per_order].
  by rewrite !stats_fmap_filter.
Qed.

Lemma NoDup_country_rows db : NoDup (country_rows db).
Proof.
  apply (NoDup_fmap_1 cr_country). rewrite country_rows_countries.
  apply NoDup_filter, NoDup_remove_dups.
Qed.

Lemma country_rows_sorting db r : r ∈ country_rows db → cr_sorting r = "A".
Proof. unfold country_rows. by intros (s & -> & _)%list_elem_of_fmap. Qed.

(** The UNION removes nothing: its branches share no row. *)
Lemma country_union_eq db :
  country_union db = (country_rows db ++ [other_row db])%list.
Proof.
  unfold country_union, union. apply remove_dups_NoDup, NoDup_app.
  split_and!.
  - apply NoDup_country_rows.
  - intros r Hr ->%list_elem_of_singleton.
    by apply country_rows_sorting in Hr.
  - apply NoDup_singleton.
Qed.

(** C2, amended.  Up to the order of the rows, the country query returns one
    row per country with more than one distinct customer among its orders,
    carrying the country's own customer count and total sales, and one more
    row, the only one of the second UNION branch, labelled "Other", whose
    number_of_customers and total_sales are the SUMs of these columns over
    the countries with exactly one customer, taken in some order; no row of
    the first branch belongs to a country with exactly one customer.  The
    "Other" row is the only row with that label unless a country with more
    than one customer is itself called Other. *)
Theorem country_bucketing db :
  ∃ singles,
    singles ≡ₚ single_countries db
    ∧ country_query db
      ≡ₚ ((country_result_of db <$> large_countries db)
          ++ [other_result_over db singles])%list
    ∧ NoDup (large_countries db)
    ∧ (∀ k, k ∈ large_countries db → 1 < customers_of_country db k)
    ∧ filter (λ r, cr_sorting r = "B") (country_union db) = [other_row db]
    ∧ (∀ r, r ∈ country_rows db → cr_number_of_customers r ≠ Some 1)
    ∧ (Some "Other" ∉ large_countries db →
       labelled "Other" (country_query db) = [other_result_over db singles]).
Proof.
  assert (country_query db
          ≡ₚ ((country_result_of db <$> large_countries db)
              ++ [other_result db])%list) as Hquery.
  { unfold country_query. rewrite order_by_Permutation, country_union_eq.
    rewrite fmap_app, country_rows_results. cbn [fmap list_fmap].
    by rewrite other_row_result. }
  exists (single_countries db). fold (other_result db). split_and!.
  - done.
  - done.
  - apply NoDup_filter, NoDup_remove_dups.
  - unfold large_countries. by intros k [Hk _]%list_elem_of_filter.
  - rewrite country_union_eq, filter_app, filter_none.
    + done.
    + intros r Hr. by rewrite (country_rows_sorting db r Hr).
  - unfold country_rows. intros r (s & -> & Hs)%list_elem_of_fmap.
    apply list_elem_of_filter in Hs as [Hs _]. cbn. intros [= Heq]. lia.
  - intros Hother. unfold labelled. apply Permutation_singleton_r.
    rewrite Hquery, filter_app, filter_none.
    + by rewrite filter_cons, decide_True, filter_nil.
    + intros r (k & -> & Hk)%list_elem_of_fmap. cbn. by intros ->.
Qed.

(** C2, as stated, fails on a shop with a country called Other that has two
    customers: its own row and the row of the second UNION branch both carry
    the label. *)
Lemma two_rows_labelled_other :
  length (labelled "Other" (country_query Samples.shop_other)) = 2%nat
  ∧ res_number_of_customers <$> country_query Samples.shop_other
    = [Some 2; Some 1].
Proof. split; vm_compute; reflexivity. Qed.

End CountryStatistics.

(** The theorems at work on the sample shop. *)

Lemma album_purchase_classification_example :
  album_purchase_of Samples.shop 1 = ["yes"]
  ∧ album_purchase_of Samples.shop 2 = ["no"].
Proof.
  split.
  - refine (album_purchase_classification Samples.shop 1 _). discriminate.
  - refine (album_purchase_classification Samples.shop 2 _). discriminate.
Defined.


Lemma employee_total_sales_example :
  er_total_sales
    {| er_employee_name := Some "Jane Peacock";
       er_total_sales := Some (39600 : @real Decimal4.decimal4);
       er_hire_date := Some "2017-04-01 00:00:00" |}
  = sales_of_employee Samples.shop "Jane Peacock".
Proof.
  refine (employee_total_sales Samples.shop _ "Jane Peacock" _ _).
  - vm_compute. apply list_elem_of_further, list_elem_of_here.
  - reflexivity.
Defined.

End ChinookFacts.

Module DriverFacts.
Import Driver.

Section Monad.
Context {sql : Type} (W : world sql).
Implicit Types (k : kernel sql) (c : call sql).

(** Inversion of a computation that returns. *)
Lemma bind_Ok {A B} (m : M sql A) (f : A → M sql B) k b k' :
  (m ≫= f) k = (Ok b, k') →
  ∃ a k1, m k = (Ok a, k1) ∧ f a k1 = (Ok b, k').
Proof.
  unfold mbind, M_bind, bind. destruct (m k) as [[a|e] k1]; [|done].
  intros Hf. by exists a, k1.
Qed.

Lemma bind_Raise {A B} (m : M sql A) (f : A → M sql B) k e k' :
  (m ≫= f) k = (Raise e, k') →
  m k = (Raise e, k') ∨ ∃ a k1, m k = (Ok a, k1) ∧ f a k1 = (Raise e, k').
Proof.
  unfold mbind, M_bind, bind. destruct (m k) as [[a|e'] k1].
  - intros Hf. right. by exists a, k1.
  - intros [= -> ->]. by left.
Qed.

Lemma bind_eq {A B} (m : M sql A) (f : A → M sql B) k :
  (m ≫= f) k = match m k with
               | (Ok a, k1) => f a k1
               | (Raise e, k1) => (Raise e, k1)
               end.
Proof. done. Qed.

Lemma ret_eq {A} (a : A) k : (mret a : M sql A) k = (Ok a, k).
Proof. done. Qed.

Lemma raise_eq {A} e k : raise (A := A) e k = (Raise e, k).
Proof. done. Qed.

Lemma perform_eq (c : call sql) k :
  perform W c k
  = (match failure W (calls k) c with
     | Some e => Raise e
     | None => Ok ()
     end, with_calls k [c]).
Proof. unfold perform, with_calls. by destruct (failure W (calls k) c). Qed.

Lemma global_eq {A} name (read : kernel sql → option A) k :
  global name read k
  = (match read k with
     | Some a => Ok a
     | None => Raise (NameError name)
     end, k).
Proof. unfold global. rewrite bind_eq. cbn. by destruct (read k). Qed.

Lemma with_calls_nil k : with_calls k [] = k.
Proof. destruct k. unfold with_calls. cbn. by rewrite app_nil_r. Qed.

Lemma with_calls_app k l1 l2 :
  with_calls (with_calls k l1) l2 = with_calls k (l1 ++ l2).
Proof. unfold with_calls. cbn. by rewrite app_assoc. Qed.

(** *** Computations that follow a script of calls *)

Local Abbreviation obeys := (Driver.obeys W).

Lemma unhandled_app history new1 new2 out :
  unhandled W history new1 None →
  unhandled W (history ++ new1) new2 out →
  unhandled W history (new1 ++ new2) out.
Proof.
  revert history. induction new1 as [|c new1 IH]; intros history H1 H2.
  - by rewrite app_nil_r in H2.
  - cbn in *. destruct (failure W history c) as [e|].
    + by destruct H1.
    + apply IH; [done|]. by rewrite <- app_assoc.
Qed.

Lemma obeys_ret {A} (a : A) k : obeys (mret a) k [] (λ a' k', a' = a ∧ k' = k).
Proof.
  intros r k' [= <- <-]. exists []. rewrite app_nil_r.
  split_and!; [done..|]. by intros a' [= <-].
Qed.

Lemma obeys_raise {A} e k expected Q : obeys (raise e : M sql A) k expected Q.
Proof.
  intros r k' [= <- <-]. exists []. rewrite app_nil_r.
  split_and!; [done|apply prefix_nil|done|done].
Qed.

Lemma obeys_perform c k :
  obeys (perform W c) k [c] (λ _ k', k' = with_calls k [c]).
Proof.
  intros r k'. rewrite perform_eq. intros [= <- <-]. exists [c].
  split_and!; [done|done| |done].
  cbn. by destruct (failure W (calls k) c).
Qed.

Lemma obeys_global {A} name (read : kernel sql → option A) k :
  obeys (global name read) k [] (λ a k', read k = Some a ∧ k' = k).
Proof.
  intros r k'. rewrite global_eq. intros [= <- <-]. exists [].
  rewrite app_nil_r. split_and!; [done..|].
  intros a. destruct (read k); [|done]. by intros [= ->].
Qed.

Lemma obeys_get k : obeys get k [] (λ a k', a = k ∧ k' = k).
Proof.
  intros r k' [= <- <-]. exists []. rewrite app_nil_r.
  split_and!; [done..|]. by intros a [= <-].
Qed.

Lemma obeys_put k0 k :
  calls k0 = calls k → obeys (put k0) k [] (λ _ k', k' = k0).
Proof.
  intros Hc r k' [= <- <-]. exists []. rewrite app_nil_r.
  split_and!; done.
Qed.

Lemma obeys_bind {A B} (m : M sql A) (f : A → M sql B) k e1 e2 Q1 Q2 :
  obeys m k e1 Q1 →
  (∀ a k1, Q1 a k1 → calls k1 = calls k ++ e1 → obeys (f a) k1 e2 Q2) →
  obeys (m ≫= f) k (e1 ++ e2) Q2.
Proof.
  intros Hm Hf r k'. rewrite bind_eq.
  destruct (m k) as [[a|e] k1] eqn:Hmk.
  - destruct (Hm _ _ Hmk) as (new1 & Hc1 & _ & Hu1 & Hok1).
    destruct (Hok1 a eq_refl) as [-> HQ1]. intros Hfa.
    destruct (Hf a k1 HQ1 Hc1 _ _ Hfa) as (new2 & Hc2 & Hp2 & Hu2 & Hok2).
    exists (e1 ++ new2). split_and!.
    + by rewrite Hc2, Hc1, app_assoc.
    + by apply prefix_app.
    + apply unhandled_app; [done|]. by rewrite <- Hc1.
    + intros b ->. destruct (Hok2 b eq_refl) as [-> HQ2]. done.
  - intros [= <- <-].
    destruct (Hm _ _ Hmk) as (new1 & Hc1 & Hp1 & Hu1 & _).
    exists new1. split_and!; [done| |done|done].
    by apply prefix_app_r.
Qed.

Lemma obeys_conseq {A} (m : M sql A) k e e' (Q Q' : A → kernel sql → Prop) :
  obeys m k e Q → e = e' → (∀ a k', Q a k' → Q' a k') → obeys m k e' Q'.
Proof.
  intros Hm <- HQ r k' Hr.
  destruct (Hm _ _ Hr) as (new & Hc & Hp & Hu & Hok).
  exists new. split_and!; [done..|].
  intros a Ha. destruct (Hok a Ha). split; [done|]. by apply HQ.
Qed.

(** *** [get_col_set], exactly *)

Lemma col_set_loop (rows : list (list string)) (i : nat) (acc : gset string)
    k :
  for_each rows
    (λ col_set row,
       match row !! i with
       | Some v => mret ({[ v ]} ∪ col_set)
       | None => raise IndexError
       end) acc k
  = (match mapM (λ row, row !! i) rows with
     | Some vs => Ok (list_to_set vs ∪ acc)
     | None => Raise IndexError
     end, k).
Proof.
  revert acc. induction rows as [|row rows IH]; intros acc.
  - cbn. rewrite ret_eq. do 2 f_equal. set_solver.
  - cbn [for_each]. rewrite bind_eq. cbn [mapM].
    destruct (row !! i) as [v|]; [|done]. rewrite ret_eq, IH. cbn.
    destruct (mapM _ rows) as [vs|]; [|done]. cbn.
    do 2 f_equal. set_solver.
Qed.

(** What [get_col_set] returns or raises, and the one call it makes. *)
Lemma get_col_set_eq path i k :
  get_col_set W path i k
  = (match fs W path with
     | None => Raise (FileNotFoundError path)
     | Some [] => Raise StopIteration
     | Some (_ :: body) =>
         match mapM (λ row, row !! i) (csv_reader W body) with
         | Some vs => Ok (list_to_set vs)
         | None => Raise IndexError
         end
     end, with_calls k [Open path]).
Proof.
  unfold get_col_set, open. rewrite !bind_eq, perform_eq. cbn [failure].
  destruct (fs W path) as [[|header body]|]; [done| |done].
  rewrite ret_eq. cbn [next]. rewrite bind_eq, ret_eq, col_set_loop.
  destruct (mapM _ _) as [vs|]; [|done]. f_equal. f_equal. set_solver.
Qed.

Lemma obeys_get_col_set path i k :
  obeys (get_col_set W path i) k [Open path]
    (λ _ k', k' = with_calls k [Open path]).
Proof.
  intros r k'. rewrite get_col_set_eq. intros [= <- <-].
  exists [Open path]. split_and!; [done|done| |done].
  cbn. destruct (fs W path) as [[|header body]|]; [done| |done].
  by destruct (mapM (λ row, row !! i) (csv_reader W body)).
Qed.

Lemma obeys_open path k :
  obeys (open W path) k [Open path]
    (λ f k', fs W path = Some f ∧ k' = with_calls k [Open path]).
Proof.
  intros r k'. unfold open. rewrite bind_eq, perform_eq. cbn [failure].
  destruct (fs W path) as [f|] eqn:Hf; intros [= <- <-].
  - exists [Open path]. split_and!; [done|done| |].
    + cbn. by rewrite Hf.
    + by intros f' [= <-].
  - exists [Open path]. split_and!; [done|done| |done].
    cbn. by rewrite Hf.
Qed.

Lemma obeys_next {A} (it : list A) k :
  obeys (next it) k [] (λ xr k', it = xr.1 :: xr.2 ∧ k' = k).
Proof.
  intros r k'. destruct it as [|x rest]; intros [= <- <-]; exists [];
    rewrite app_nil_r; (split_and!; [done..|]); [done|].
  by intros a [= <-].
Qed.

(** A loop whose body makes the calls [e] and leaves the globals alone. *)
Lemma obeys_for_each {A} (xs : list A) (body : unit → A → M sql unit)
    (e : list (call sql)) k :
  (∀ x k1, obeys (body () x) k1 e (λ _ k', k' = with_calls k1 e)) →
  obeys (for_each xs body ()) k (mjoin (replicate (length xs) e))
    (λ _ k', k' = with_calls k (mjoin (replicate (length xs) e))).
Proof.
  intros Hbody. revert k. induction xs as [|x xs IH]; intros k.
  - cbn. eapply obeys_conseq; [apply obeys_ret|done|].
    intros _ k' [_ ->]. by rewrite with_calls_nil.
  - cbn [for_each length replicate mjoin list_join].
    eapply obeys_conseq.
    + eapply obeys_bind; [apply Hbody|]. intros [] k1 -> _. apply IH.
    + done.
    + intros _ k' ->. by rewrite with_calls_app.
Qed.

Lemma obeys_fails {A} (m : M sql A) k e expected Q :
  m k = (Raise e, k) → obeys m k expected Q.
Proof.
  intros Hm r k'. rewrite Hm. intros [= <- <-]. exists [].
  rewrite app_nil_r. split_and!; [done|apply prefix_nil|done|done].
Qed.

Lemma obeys_set_conn (n : nat) k :
  obeys (set_conn n) k []
    (λ _ k', k' = {| conn := Some n; cur := cur k; columns := columns k;
                     connections := S (connections k); calls := calls k |}).
Proof.
  intros r k' [= <- <-]. exists []. rewrite app_nil_r. split_and!; done.
Qed.

Lemma obeys_set_cur (n : nat) k :
  obeys (set_cur n) k []
    (λ _ k', k' = {| conn := conn k; cur := Some n; columns := columns k;
                     connections := connections k; calls := calls k |}).
Proof.
  intros r k' [= <- <-]. exists []. rewrite app_nil_r. split_and!; done.
Qed.

Lemma obeys_set_columns row k :
  obeys (set_columns row) k []
    (λ _ k', k' = {| conn := conn k; cur := cur k; columns := Some row;
                     connections := connections k; calls := calls k |}).
Proof.
  intros r k' [= <- <-]. exists []. rewrite app_nil_r. split_and!; done.
Qed.

(** A statement that reads a global and makes one call through it. *)
Lemma obeys_via_global name (read : kernel sql → option nat)
    (f : nat → call sql) k :
  obeys (n ← global name read; perform W (f n)) k (on_global (read k) f)
    (λ _ k', k' = with_calls k (on_global (read k) f)).
Proof.
  destruct (read k) as [n|] eqn:Hread.
  - eapply obeys_conseq.
    + eapply obeys_bind; [apply obeys_global|].
      intros a k1 [Ha ->] _. rewrite Hread in Ha. injection Ha as <-.
      apply obeys_perform.
    + done.
    + done.
  - apply (obeys_fails _ _ (NameError name)).
    by rewrite bind_eq, global_eq, Hread.
Qed.

Lemma join_replicate_singleton {A} (n : nat) (x : A) :
  mjoin (replicate n [x]) = replicate n x.
Proof. induction n as [|n IH]; [done|]. cbn. f_equal. exact IH. Qed.

Lemma join_replicate_nil {A} (n : nat) :
  mjoin (replicate n ([] : list A)) = [].
Proof. induction n as [|n IH]; [done|]. cbn. exact IH. Qed.

(** Cell 9, exactly: [columns] is bound as soon as the header is read, also
    when the file has no row after it. *)
Lemma read_header_eq path k :
  exec W (ReadHeader path) k
  = match fs W path with
    | None => (Raise (FileNotFoundError path), with_calls k [Open path])
    | Some f =>
        match csv_reader W f with
        | [] => (Raise StopIteration, with_calls k [Open path])
        | header :: rows =>
            (match rows with
             | [] => Raise StopIteration
             | _ :: _ => Ok ()
             end,
             {| conn := conn k; cur := cur k; columns := Some header;
                connections := connections k;
                calls := calls k ++ [Open path] |})
        end
    end.
Proof.
  cbn [exec]. unfold open. rewrite !bind_eq, perform_eq. cbn [failure].
  destruct (fs W path) as [f|]; [|done]. rewrite ret_eq.
  destruct (csv_reader W f) as [|header [|first_row rest]]; done.
Qed.

(** Every statement follows its quiet script. *)
Lemma exec_obeys (s : stmt sql) k :
  obeys (exec W s) k (quiet_calls W s k) (λ _ k', k' = quiet_step W s k).
Proof.
  destruct s as [m|url|t|b| |q|q path| |size| | |path|path n|path i|path i];
    cbn [exec quiet_calls].
  - eapply obeys_conseq; [apply obeys_ret|done|].
    intros _ k' [_ ->]. destruct k. unfold quiet_step. cbn.
    by rewrite app_nil_r.
  - eapply obeys_conseq.
    + eapply obeys_bind; [apply obeys_get|]. intros a k1 [-> ->] _.
      eapply obeys_bind; [apply obeys_perform|]. intros _ k1 -> _.
      eapply obeys_bind; [apply obeys_set_conn|]. intros _ k1 -> _.
      apply obeys_set_cur.
    + done.
    + by intros _ k' ->.
  - eapply obeys_conseq.
    + eapply obeys_bind; [apply obeys_get|]. intros a k1 [-> ->] _.
      eapply obeys_bind; [apply obeys_perform|]. intros _ k1 -> _.
      apply obeys_set_conn.
    + done.
    + by intros _ k' ->.
  - eapply obeys_conseq; [apply obeys_via_global|done|by intros _ k' ->].
  - destruct (conn k) as [n|] eqn:Hconn.
    + eapply obeys_conseq.
      * eapply obeys_bind; [apply obeys_global|].
        intros a k1 [Ha ->] _. rewrite Hconn in Ha. injection Ha as <-.
        eapply obeys_bind; [apply obeys_perform|]. intros _ k1 -> _.
        apply obeys_set_cur.
      * done.
      * intros _ k' ->. unfold quiet_step. cbn. by rewrite Hconn.
    + apply (obeys_fails _ _ (NameError "conn")).
      by rewrite bind_eq, global_eq, Hconn.
  - eapply obeys_conseq; [apply obeys_via_global|done|by intros _ k' ->].
  - eapply obeys_conseq.
    + eapply (obeys_bind _ _ _ [Open path]
                (on_global (cur k)
                   (λ n, CopyExpert n q (default [] (fs W path))))
                _ (λ _ k', k' = quiet_step W (CopyExpertFrom q path) k));
        [apply obeys_open|].
      intros f k1 [Hf ->] _. rewrite Hf. cbn [default].
      eapply obeys_conseq;
        [apply (obeys_via_global "cur" cur (λ n, CopyExpert n q f))
        |done|].
      intros _ k' ->. rewrite with_calls_app.
      unfold quiet_step, with_calls. cbn. by rewrite Hf.
    + done.
    + done.
  - eapply obeys_conseq; [apply obeys_via_global|done|by intros _ k' ->].
  - eapply obeys_conseq; [apply obeys_via_global|done|by intros _ k' ->].
  - eapply obeys_conseq; [apply obeys_via_global|done|by intros _ k' ->].
  - eapply obeys_conseq; [apply obeys_via_global|done|by intros _ k' ->].
  - pose proof (read_header_eq path k) as Heq. cbn [exec] in Heq.
    intros r k'. rewrite Heq. unfold quiet_step. cbn.
    destruct (fs W path) as [f|] eqn:Hf.
    + destruct (csv_reader W f) as [|header [|first_row rest]] eqn:Hcsv;
        intros [= <- <-]; exists [Open path];
        (split_and!; [done|done|by cbn; rewrite Hf|]); [done|done|].
      intros _ _. cbn. by rewrite Hcsv.
    + intros [= <- <-]. exists [Open path].
      split_and!; [done|done|by cbn; rewrite Hf|done].
  - eapply obeys_conseq.
    + apply (obeys_for_each _ _ [Open path]). intros i k1.
      destruct (columns k1) as [header|] eqn:Hcols.
      * eapply obeys_conseq.
        -- eapply (obeys_bind _ _ _ [] [Open path]
                     _ (λ _ k', k' = with_calls k1 [Open path]));
             [apply obeys_global|].
           intros a k2 [Ha ->] _.
           destruct (a !! i); [|apply obeys_raise].
           eapply obeys_conseq.
           ++ eapply obeys_bind; [apply obeys_get_col_set|].
              intros _ k2 -> _. apply obeys_ret.
           ++ done.
           ++ by intros _ k' [_ ->].
        -- done.
        -- done.
      * apply (obeys_fails _ _ (NameError "columns")).
        by rewrite bind_eq, global_eq, Hcols.
    + by rewrite length_seq, join_replicate_singleton.
    + intros _ k' ->. by rewrite length_seq, join_replicate_singleton.
  - eapply obeys_conseq.
    + eapply obeys_bind; [apply obeys_get_col_set|].
      intros _ k1 -> _. apply obeys_ret.
    + done.
    + by intros _ k' [_ ->].
  - eapply obeys_conseq.
    + eapply (obeys_bind _ _ _ [Open path] []
                _ (λ _ k', k' = with_calls k [Open path]));
        [apply obeys_get_col_set|].
      intros codes k1 -> _.
      eapply obeys_conseq.
      * apply (obeys_for_each _ _ []). intros code k2.
        destruct (py_int W code); [|apply obeys_raise].
        eapply obeys_conseq; [apply obeys_ret|done|].
        intros _ k' [_ ->]. by rewrite with_calls_nil.
      * by rewrite join_replicate_nil.
      * intros _ k' ->. by rewrite join_replicate_nil, with_calls_nil.
    + done.
    + done.
Qed.

(** A cell, a notebook: the statements in order. *)
Lemma exec_all_obeys (ss : list (stmt sql)) k :
  obeys (exec_all W ss) k
    (drop (length (calls k)) (calls (foldl (λ k s, quiet_step W s k) k ss)))
    (λ _ k', k' = foldl (λ k s, quiet_step W s k) k ss).
Proof.
  revert k. induction ss as [|s ss IH]; intros k.
  - cbn [exec_all foldl]. rewrite drop_all.
    eapply obeys_conseq; [apply obeys_ret|done|]. by intros _ k' [_ ->].
  - cbn [exec_all foldl]. eapply obeys_conseq.
    + eapply obeys_bind; [apply exec_obeys|]. intros _ k1 -> _. apply IH.
    + assert (∀ ss k0, ∃ more,
                calls (foldl (λ k s, quiet_step W s k) k0 ss)
                = calls k0 ++ more) as Hgrow.
      { clear. intros ss. induction ss as [|s ss IH]; intros k0.
        - exists []. cbn. by rewrite app_nil_r.
        - cbn [foldl]. destruct (IH (quiet_step W s k0)) as [more ->].
          exists (quiet_calls W s k0 ++ more). cbn. by rewrite app_assoc. }
      destruct (Hgrow ss (quiet_step W s k)) as [more Hmore].
      rewrite Hmore. cbn [quiet_step calls].
      rewrite <- app_assoc, !drop_app_length.
      by rewrite (app_assoc (calls k)), drop_app_length.
    + done.
Qed.

(** The run of a notebook against the quiet run: the calls made are a
    prefix of the quiet run's, a call that fails is the last one made and its
    exception is the outcome of the run, and a run that ends without
    exception is the quiet run. *)
Lemma run_obeys (notebook : list (list (stmt sql))) r k :
  run W notebook = (r, k) →
  calls k `prefix_of` calls (quiet_run W notebook)
  ∧ unhandled W [] (calls k) (raised r)
  ∧ (r = Ok () → k = quiet_run W notebook).
Proof.
  unfold run, quiet_run. intros Hrun.
  destruct (exec_all_obeys _ _ _ _ Hrun) as (new & Hc & Hp & Hu & Hok).
  cbn in Hc, Hp, Hu. rewrite drop_0 in Hp. rewrite Hc. split_and!; [done..|].
  intros ->. by destruct (Hok () eq_refl).
Qed.

(** A failing call ends the run, and its exception is the run's. *)
Lemma unhandled_failure history pre c post out e :
  unhandled W history (pre ++ c :: post) out →
  failure W (history ++ pre) c = Some e →
  post = [] ∧ out = Some e.
Proof.
  revert history. induction pre as [|c0 pre IH]; intros history Hu Hf.
  - rewrite app_nil_r in Hf. cbn in Hu. by rewrite Hf in Hu.
  - cbn in Hu. destruct (failure W history c0) as [e0|].
    + destruct Hu as [Hnil _]. by destruct pre.
    + apply (IH (history ++ [c0])); [done|]. by rewrite <- app_assoc.
Qed.

Lemma mapM_omap {A B} (f : A → option B) (l : list A) :
  Forall (λ x, is_Some (f x)) l → mapM f l = Some (omap f l).
Proof.
  induction 1 as [|x l [y Hy] _ IH]; [done|].
  cbn. rewrite Hy. cbn. by rewrite IH.
Qed.

(** [get_col_set] on a file whose rows all have the column. *)
Lemma get_col_set_column path header body i k :
  fs W path = Some (header :: body) →
  Forall (λ row, (i < length row)%nat) (csv_reader W body) →
  get_col_set W path i k
  = (Ok (column_values W (header :: body) i), with_calls k [Open path]).
Proof.
  intros Hfs Hrows. rewrite get_col_set_eq, Hfs. unfold column_values.
  cbn [tail]. rewrite mapM_omap; [done|].
  eapply Forall_impl; [exact Hrows|]. intros row Hi.
  by apply lookup_lt_is_Some_2.
Qed.

Lemma elem_of_column_values lines i v :
  v ∈ column_values W lines i
  ↔ ∃ row, row ∈ csv_reader W (tail lines) ∧ row !! i = Some v.
Proof.
  unfold column_values. rewrite elem_of_list_to_set, list_elem_of_omap.
  done.
Qed.


Lemma run_failure (notebook : list (list (stmt sql))) r k pre c post e :
  run W notebook = (r, k) →
  calls k = pre ++ c :: post →
  failure W pre c = Some e →
  post = [] ∧ r = Raise e.
Proof.
  intros Hrun Hcalls Hf. destruct (run_obeys _ _ _ Hrun) as (_ & Hu & _).
  rewrite Hcalls in Hu.
  destruct (unhandled_failure [] pre c post _ e Hu Hf) as [-> Hout].
  split; [done|]. destruct r as [[]|e']; [done|]. cbn in Hout. congruence.
Qed.

Lemma prefix_sublist {A} (l1 l2 : list A) :
  l1 `prefix_of` l2 → l1 `sublist_of` l2.
Proof. intros [l ->]. by apply sublist_inserts_r. Qed.

(** *** Cells under the magic *)

Lemma exec_CurExecute_eq q k :
  exec W (CurExecute q) k
  = match cur k with
    | None => (Raise (NameError "cur"), k)
    | Some c =>
        (match failure W (calls k) (Execute c q) with
         | Some e => Raise e
         | None => Ok ()
         end, with_calls k [Execute c q])
    end.
Proof.
  cbn [exec]. rewrite bind_eq, global_eq. destruct (cur k) as [c|]; [|done].
  by rewrite perform_eq.
Qed.

Lemma exec_FetchallPrint_eq k :
  exec W FetchallPrint k
  = match cur k with
    | None => (Raise (NameError "cur"), k)
    | Some c =>
        (match failure W (calls k) (Fetchall c) with
         | Some e => Raise e
         | None => Ok ()
         end, with_calls k [Fetchall c])
    end.
Proof.
  cbn [exec]. rewrite bind_eq, global_eq. destruct (cur k) as [c|]; [|done].
  by rewrite perform_eq.
Qed.

(** The outcome that an exception, or none, stands for. *)
Local Abbreviation outcome out :=
  (match out with Some e => Raise e | None => Ok () end).

(** A [%%sql] cell on an open connection sends its script up to the first
    failure. *)
Lemma exec_all_sql_cell (cell : list (stmt sql)) k (c : nat) :
  sql_cell cell = true → cur k = Some c →
  exec_all W cell k
  = (outcome (until_failure W (calls k) (script c cell)).2,
     with_calls k (until_failure W (calls k) (script c cell)).1).
Proof.
  revert k. induction cell as [|s cell IH]; intros k Hcell Hcur.
  - cbn. by rewrite with_calls_nil.
  - cbn [sql_cell forallb] in Hcell. apply andb_true_iff in Hcell as [Hs Hcell].
    cbn [exec_all]. rewrite bind_eq.
    destruct s; try discriminate Hs.
    + rewrite exec_CurExecute_eq, Hcur. cbn [script omap list_omap until_failure].
      destruct (failure W (calls k) (Execute c q)) as [e|]; [done|].
      rewrite IH; [|done|done]. cbn [with_calls calls].
      fold (script c cell).
      destruct (until_failure W (calls k ++ [Execute c q]) (script c cell))
        as [new out]. cbn [fst snd]. by rewrite with_calls_app.
    + rewrite exec_FetchallPrint_eq, Hcur.
      cbn [script omap list_omap until_failure].
      destruct (failure W (calls k) (Fetchall c)) as [e|]; [done|].
      rewrite IH; [|done|done]. cbn [with_calls calls].
      fold (script c cell).
      destruct (until_failure W (calls k ++ [Fetchall c]) (script c cell))
        as [new out]. cbn [fst snd]. by rewrite with_calls_app.
Qed.

(** Without connection, a [%%sql] cell does nothing. *)
Lemma magic_no_connection (cell : list (stmt sql)) k :
  sql_cell cell = true → cur k = None → magic W cell k = (Ok (), k).
Proof.
  intros Hcell Hcur. unfold magic. destruct cell as [|s cell]; [done|].
  cbn [sql_cell forallb] in Hcell. apply andb_true_iff in Hcell as [Hs _].
  cbn [exec_all]. rewrite bind_eq. destruct s; try discriminate Hs.
  - by rewrite exec_CurExecute_eq, Hcur.
  - by rewrite exec_FetchallPrint_eq, Hcur.
Qed.

Lemma run_cells_no_connection (cells : list (list (stmt sql))) k :
  Forall (λ cell, sql_cell cell = true) cells → cur k = None →
  run_cells W cells k = (Ok (), k).
Proof.
  induction 1 as [|cell cells Hcell _ IH]; intros Hcur; [done|].
  cbn [run_cells]. rewrite bind_eq, magic_no_connection by done. by apply IH.
Qed.

(** *** The calls up to a failure *)

Lemma until_failure_prefix history (script : list (call sql)) :
  (until_failure W history script).1 `prefix_of` script.
Proof.
  revert history. induction script as [|c rest IH]; intros history; [done|].
  cbn [until_failure]. destruct (failure W history c) as [e|].
  - cbn. by apply (prefix_cons c [] rest), prefix_nil.
  - specialize (IH (history ++ [c])).
    destruct (until_failure W (history ++ [c]) rest) as [new out].
    cbn in *. by apply prefix_cons.
Qed.

Lemma until_failure_head history (script : list (call sql)) :
  head (until_failure W history script).1 = head script.
Proof.
  destruct script as [|c rest]; [done|]. cbn [until_failure].
  destruct (failure W history c) as [e|]; [done|].
  by destruct (until_failure W (history ++ [c]) rest).
Qed.

(** A call that fails is the last of its cell, and the cell's outcome. *)
Lemma until_failure_last history (script : list (call sql)) pre c post e :
  (until_failure W history script).1 = pre ++ c :: post →
  failure W (history ++ pre) c = Some e →
  post = [] ∧ (until_failure W history script).2 = Some e.
Proof.
  revert history pre. induction script as [|c0 rest IH]; intros history pre.
  - cbn. by destruct pre.
  - cbn [until_failure]. destruct (failure W history c0) as [e0|] eqn:Hf0.
    + cbn [fst snd]. destruct pre as [|c1 pre].
      * intros [= <- <-]. rewrite app_nil_r, Hf0. by intros [= <-].
      * intros [= _ Hnil]. by destruct pre.
    + specialize (IH (history ++ [c0])).
      destruct (until_failure W (history ++ [c0]) rest) as [new out].
      cbn [fst snd] in *. destruct pre as [|c1 pre].
      * intros [= <- _]. rewrite app_nil_r, Hf0. done.
      * intros [= <- Hnew]. rewrite (cons_middle c0), app_assoc.
        by apply IH.
Qed.

(** A cell that is cut short ends in the call that failed. *)
Lemma until_failure_out history (script : list (call sql)) e :
  (until_failure W history script).2 = Some e →
  ∃ pre c, (until_failure W history script).1 = pre ++ [c]
           ∧ failure W (history ++ pre) c = Some e.
Proof.
  revert history. induction script as [|c0 rest IH]; intros history; [done|].
  cbn [until_failure]. destruct (failure W history c0) as [e0|] eqn:Hf0.
  - cbn. intros [= <-]. exists [], c0. by rewrite app_nil_r.
  - specialize (IH (history ++ [c0])).
    destruct (until_failure W (history ++ [c0]) rest) as [new out].
    cbn [fst snd] in *. intros Hout.
    destruct (IH Hout) as (pre & c & -> & Hf). exists (c0 :: pre), c.
    split; [done|]. by rewrite (cons_middle c0), app_assoc.
Qed.

Lemma until_failure_complete history (script : list (call sql)) :
  (until_failure W history script).2 = None →
  (until_failure W history script).1 = script.
Proof.
  revert history. induction script as [|c0 rest IH]; intros history; [done|].
  cbn [until_failure]. destruct (failure W history c0) as [e0|]; [done|].
  specialize (IH (history ++ [c0])).
  destruct (until_failure W (history ++ [c0]) rest) as [new out].
  cbn [fst snd] in *. intros Hout. by rewrite IH.
Qed.

(** *** The calls of a notebook under the magic *)

(** One step of [magic_calls]. *)
Lemma magic_calls_cons history (script : list (call sql)) scripts :
  magic_calls W history (script :: scripts)
  = match (until_failure W history script).2 with
    | Some e =>
        if printed e
        then ((until_failure W history script).1
              ++ (magic_calls W
                    (history ++ (until_failure W history script).1)
                    scripts).1,
              (magic_calls W
                 (history ++ (until_failure W history script).1) scripts).2)
        else ((until_failure W history script).1, Some e)
    | None =>
        ((until_failure W history script).1
         ++ (magic_calls W
               (history ++ (until_failure W history script).1) scripts).1,
         (magic_calls W
            (history ++ (until_failure W history script).1) scripts).2)
    end.
Proof.
  cbn [magic_calls].
  destruct (until_failure W history script) as [new [e|]]; cbn [fst snd].
  - destruct (printed e); [|done].
    by destruct (magic_calls W (history ++ new) scripts).
  - by destruct (magic_calls W (history ++ new) scripts).
Qed.

(** The cells of a notebook under the magic, on an open connection. *)
Lemma run_cells_sql (cells : list (list (stmt sql))) k (c : nat) :
  Forall (λ cell, sql_cell cell = true) cells → cur k = Some c →
  run_cells W cells k
  = (outcome (magic_calls W (calls k) (script c <$> cells)).2,
     with_calls k (magic_calls W (calls k) (script c <$> cells)).1).
Proof.
  intros Hcells. revert k.
  induction Hcells as [|cell cells Hcell _ IH]; intros k Hcur.
  - cbn. by rewrite with_calls_nil.
  - rewrite fmap_cons, magic_calls_cons. cbn [run_cells]. rewrite bind_eq.
    unfold magic. rewrite (exec_all_sql_cell cell k c) by done.
    set (new := (until_failure W (calls k) (script c cell)).1).
    destruct ((until_failure W (calls k) (script c cell)).2) as [e|].
    + destruct (printed e); [|done].
      rewrite (IH (with_calls k new)) by done. by rewrite with_calls_app.
    + rewrite (IH (with_calls k new)) by done. by rewrite with_calls_app.
Qed.

(** The calls made are calls of the scripts, in their order. *)
Lemma magic_calls_sublist history (scripts : list (list (call sql))) :
  (magic_calls W history scripts).1 `sublist_of` mjoin scripts.
Proof.
  revert history. induction scripts as [|script scripts IH]; intros history;
    [done|].
  rewrite magic_calls_cons. cbn [mjoin list_join].
  pose proof (until_failure_prefix history script) as Hprefix.
  destruct ((until_failure W history script).2) as [e|].
  - destruct (printed e); cbn [fst].
    + apply sublist_app; [by apply prefix_sublist|apply IH].
    + apply sublist_inserts_r. by apply prefix_sublist.
  - cbn [fst]. apply sublist_app; [by apply prefix_sublist|apply IH].
Qed.

(** When every error is printed, no error ends the run. *)
Lemma magic_calls_printed history (scripts : list (list (call sql))) :
  (∀ h c e, c ∈ mjoin scripts → failure W h c = Some e → printed e = true) →
  (magic_calls W history scripts).2 = None.
Proof.
  revert history. induction scripts as [|script scripts IH]; intros history Hp;
    [done|].
  rewrite magic_calls_cons. cbn [mjoin list_join] in Hp.
  assert ((magic_calls W (history ++ (until_failure W history script).1)
             scripts).2 = None) as Hrest.
  { apply IH. intros h c e Hc. apply Hp. apply elem_of_app. by right. }
  destruct ((until_failure W history script).2) as [e|] eqn:Hout; [|done].
  apply until_failure_out in Hout as (pre & c & Hnew & Hf).
  assert (c ∈ script ++ mjoin scripts) as Hc.
  { apply elem_of_app. left.
    eapply elem_of_prefix; [|apply until_failure_prefix].
    rewrite Hnew. apply elem_of_app. right. left. }
  by rewrite (Hp _ c e Hc Hf).
Qed.

(** After a call that fails comes, if anything, the first call of a cell. *)
Lemma magic_calls_after_failure history (scripts : list (list (call sql)))
    pre c post e :
  (magic_calls W history scripts).1 = pre ++ c :: post →
  failure W (history ++ pre) c = Some e →
  post = []
  ∨ ∃ script c', script ∈ scripts ∧ head script = Some c'
                 ∧ head post = Some c'.
Proof.
  revert history pre. induction scripts as [|script scripts IH];
    intros history pre.
  - cbn. by destruct pre.
  - rewrite magic_calls_cons. intros Hcalls Hf.
    set (new := (until_failure W history script).1) in *.
    assert (∀ rest : list (call sql),
              new ++ rest = pre ++ c :: post →
              (∀ pre', rest = pre' ++ c :: post → pre = new ++ pre' →
                 post = []
                 ∨ ∃ script' c', script' ∈ scripts ∧ head script' = Some c'
                                 ∧ head post = Some c') →
              (rest ≠ [] → ∃ script' c', script' ∈ scripts
                                         ∧ head script' = Some c'
                                         ∧ head rest = Some c') →
              post = []
              ∨ ∃ script' c', script' ∈ script :: scripts
                              ∧ head script' = Some c'
                              ∧ head post = Some c') as Hsplit.
    { intros rest Heq Hlater Hhead.
      apply app_eq_inv in Heq as [(l & Hnew & Hpost) | (pre' & Hpre & Hrest)].
      - destruct l as [|c0 post'].
        + rewrite app_nil_r in Hnew. cbn in Hpost.
          destruct (Hlater [] (eq_sym Hpost))
            as [-> | (script' & c' & Hin & Hs & Hc')];
            [by rewrite app_nil_r|by left|].
          right. exists script', c'. split_and!; [by right|done|done].
        + injection Hpost as <- ->.
          destruct (until_failure_last history script pre c post' e Hnew Hf)
            as [-> _].
          destruct rest as [|c' rest]; [by left|]. right.
          destruct Hhead as (script' & c'' & Hin & Hs & Hc'); [done|].
          exists script', c''. split_and!; [by right|done|done].
      - destruct (Hlater pre' Hrest Hpre)
          as [-> | (script' & c' & Hin & Hs & Hc')]; [by left|].
        right. exists script', c'. split_and!; [by right|done|done]. }
    assert (∀ h, (magic_calls W h scripts).1 ≠ [] →
              ∃ script' c', script' ∈ scripts ∧ head script' = Some c'
                            ∧ head (magic_calls W h scripts).1 = Some c')
      as Hfirst.
    { clear. induction scripts as [|s scripts IH]; intros h; [done|].
      rewrite magic_calls_cons.
      pose proof (until_failure_head h s) as Hhd.
      destruct (until_failure W h s) as [new out]. cbn [fst snd] in *.
      destruct new as [|c new].
      - destruct out as [e|]; [destruct (printed e); [|done]|]; cbn [fst];
          intros Hne; destruct (IH _ Hne) as (s' & c' & Hin & Hs & Hc');
          exists s', c'; (split_and!; [by right|done|done]).
      - intros _. exists s, c. split_and!; [left|done|].
        destruct out as [e|]; [destruct (printed e)|]; done. }
    destruct ((until_failure W history script).2) as [e0|] eqn:Hout.
    + destruct (printed e0) eqn:Hprinted; cbn [fst] in Hcalls.
      * apply (Hsplit _ Hcalls); [|apply Hfirst].
        intros pre' Hrest ->. rewrite app_assoc in Hf.
        by apply (IH _ _ Hrest).
      * rewrite <- (app_nil_r new) in Hcalls.
        apply (Hsplit [] Hcalls); [|done].
        intros pre' Hnil. by destruct pre'.
    + cbn [fst] in Hcalls. apply (Hsplit _ Hcalls); [|apply Hfirst].
      intros pre' Hrest ->. rewrite app_assoc in Hf. by apply (IH _ _ Hrest).
Qed.

(** In a run that no error ends, the first call of every cell is made,
    whatever failed before. *)
Lemma magic_calls_heads history (scripts : list (list (call sql))) script c :
  (magic_calls W history scripts).2 = None →
  script ∈ scripts → head script = Some c →
  c ∈ (magic_calls W history scripts).1.
Proof.
  intros Hout Hin Hc. revert history Hout.
  induction scripts as [|s scripts IH]; intros history;
    [by apply elem_of_nil in Hin|].
  rewrite magic_calls_cons.
  pose proof (until_failure_head history s) as Hhd.
  destruct (until_failure W history s) as [new out]. cbn [fst snd] in *.
  assert (script = s → c ∈ new) as Hhere.
  { intros ->. rewrite Hc in Hhd. destruct new as [|c0 new]; [done|].
    injection Hhd as ->. left. }
  apply elem_of_cons in Hin as [Heq | Hin].
  - destruct out as [e|]; [destruct (printed e)|]; cbn [fst snd];
      intros _; rewrite ?elem_of_app; auto.
  - destruct out as [e|]; [destruct (printed e); [|done]|]; cbn [fst snd];
      intros Hout; apply elem_of_app; right; by apply IH.
Qed.

(** A call that is followed by another one did not fail. *)
Lemma until_failure_inner history (script : list (call sql)) pre c d post :
  (until_failure W history script).1 = pre ++ c :: d :: post →
  failure W (history ++ pre) c = None.
Proof.
  intros Hnew. destruct (failure W (history ++ pre) c) as [e|] eqn:Hf; [|done].
  by destruct (until_failure_last _ _ _ _ _ _ Hnew Hf).
Qed.

(** Calls that must come right after another one: when in every cell a call
    [c] with [guard c = Some d] stands right after [d], then in a run under
    the magic it is made right after [d], and [d] did not fail. *)
Lemma magic_calls_guarded (guard : call sql → option (call sql)) history
    (scripts : list (list (call sql))) pre c d post :
  Forall (λ script, ∀ a c b d, script = a ++ c :: b → guard c = Some d →
                      ∃ a', a = a' ++ [d]) scripts →
  (magic_calls W history scripts).1 = pre ++ c :: post →
  guard c = Some d →
  ∃ pre', pre = pre' ++ [d] ∧ failure W (history ++ pre') d = None.
Proof.
  intros Hscripts. revert history pre.
  induction Hscripts as [|script scripts Hscript _ IH]; intros history pre.
  - cbn. by destruct pre.
  - rewrite magic_calls_cons. intros Hcalls Hguard.
    set (new := (until_failure W history script).1) in *.
    assert (∀ rest : list (call sql),
              new ++ rest = pre ++ c :: post →
              (∀ pre1, pre = new ++ pre1 → rest = pre1 ++ c :: post →
                 ∃ pre', pre = pre' ++ [d]
                         ∧ failure W (history ++ pre') d = None) →
              ∃ pre', pre = pre' ++ [d]
                      ∧ failure W (history ++ pre') d = None) as Hsplit.
    { intros rest Heq Hlater.
      apply app_eq_inv in Heq as [(l & Hnew & Hpost) | (pre1 & Hpre & Hrest)].
      - destruct l as [|c0 post1].
        + rewrite app_nil_r in Hnew. apply (Hlater []); [|done].
          by rewrite app_nil_r.
        + injection Hpost as <- ->.
          destruct (until_failure_prefix history script) as [z Hz].
          fold new in Hz. rewrite Hnew, <- app_assoc in Hz.
          destruct (Hscript pre c (post1 ++ z) d Hz Hguard) as [a' ->].
          exists a'. split; [done|].
          rewrite <- app_assoc in Hnew.
          by apply (until_failure_inner history script a' d c post1).
      - by apply (Hlater pre1). }
    assert (∀ pre1, pre = new ++ pre1 →
              (magic_calls W (history ++ new) scripts).1 = pre1 ++ c :: post →
              ∃ pre', pre = pre' ++ [d]
                      ∧ failure W (history ++ pre') d = None) as Hrest.
    { intros pre1 -> Hmore.
      destruct (IH _ _ Hmore Hguard) as (pre' & -> & Hf).
      exists (new ++ pre'). by rewrite <- !app_assoc in *. }
    destruct ((until_failure W history script).2) as [e0|].
    + destruct (printed e0); cbn [fst] in Hcalls.
      * by apply (Hsplit _ Hcalls).
      * rewrite <- (app_nil_r new) in Hcalls. apply (Hsplit [] Hcalls).
        intros pre1 _ Hnil. by destruct pre1.
    + cbn [fst] in Hcalls. by apply (Hsplit _ Hcalls).
Qed.

(** When no call fails, every cell is run to its end. *)
Lemma magic_calls_all history (scripts : list (list (call sql))) :
  (∀ pre c post, (magic_calls W history scripts).1 = pre ++ c :: post →
     failure W (history ++ pre) c = None) →
  (magic_calls W history scripts).1 = mjoin scripts.
Proof.
  revert history. induction scripts as [|script scripts IH]; intros history;
    [done|].
  rewrite magic_calls_cons. cbn [mjoin list_join].
  destruct ((until_failure W history script).2) as [e|] eqn:Hout.
  - intros Hnone. exfalso.
    apply until_failure_out in Hout as (pre & c & Hnew & Hf).
    destruct (printed e); cbn [fst] in Hnone.
    + rewrite Hnew, <- app_assoc in Hnone.
      by rewrite (Hnone pre c _ eq_refl) in Hf.
    + rewrite Hnew in Hnone. by rewrite (Hnone pre c [] eq_refl) in Hf.
  - cbn [fst]. intros Hnone.
    rewrite (until_failure_complete _ _ Hout) in Hnone |- *. f_equal.
    apply IH. intros pre c post Hmore. rewrite <- app_assoc.
    apply (Hnone (script ++ pre) c post). by rewrite Hmore, <- app_assoc.
Qed.

(** *** The calls that did not fail *)

Lemma succeeded_app history (tr1 tr2 : list (call sql)) :
  succeeded W history (tr1 ++ tr2)
  = succeeded W history tr1 ++ succeeded W (history ++ tr1) tr2.
Proof.
  revert history. induction tr1 as [|c tr1 IH]; intros history.
  - by rewrite app_nil_r.
  - cbn [app succeeded]. rewrite IH, <- app_assoc.
    by destruct (failure W history c).
Qed.

(** In a run of Python cells only the last call can have failed. *)
Lemma succeeded_unhandled history (tr : list (call sql)) out :
  unhandled W history tr out →
  succeeded W history tr = tr
  ∨ ∃ pre c, tr = pre ++ [c] ∧ succeeded W history tr = pre.
Proof.
  revert history. induction tr as [|c tr IH]; intros history Hu; [by left|].
  cbn in Hu |- *. destruct (failure W history c) as [e|].
  - destruct Hu as [-> _]. right. by exists [], c.
  - destruct (IH _ Hu) as [-> | (pre & c' & -> & ->)]; [by left|].
    right. by exists (c :: pre), c'.
Qed.

(** When no call fails, nothing is left out. *)
Lemma succeeded_all history (tr : list (call sql)) :
  (∀ pre c post, tr = pre ++ c :: post → failure W (history ++ pre) c = None) →
  succeeded W history tr = tr.
Proof.
  revert history. induction tr as [|c tr IH]; intros history Hnone; [done|].
  cbn. pose proof (Hnone [] c tr eq_refl) as Hc. rewrite app_nil_r in Hc.
  rewrite Hc. f_equal. apply IH. intros pre c' post ->.
  rewrite <- app_assoc. by apply (Hnone (c :: pre) c' post).
Qed.

End Monad.

Section TraceFacts.
Context {sql : Type}.
Implicit Types (tr : list (call sql)).

Lemma omap_prefix {A B} (f : A → option B) (l1 l2 : list A) :
  l1 `prefix_of` l2 → omap f l1 `prefix_of` omap f l2.
Proof. intros [l ->]. rewrite omap_app. by apply prefix_app_r. Qed.

Lemma sent_prefix tr1 tr2 :
  tr1 `prefix_of` tr2 → sent tr1 `prefix_of` sent tr2.
Proof. apply omap_prefix. Qed.

Lemma sublist_omap {A B} (f : A → option B) (l1 l2 : list A) :
  l1 `sublist_of` l2 → omap f l1 `sublist_of` omap f l2.
Proof.
  induction 1 as [|x l1 l2 _ IH|x l1 l2 _ IH]; [done| |].
  - cbn. destruct (f x); [by apply sublist_skip|done].
  - cbn. destruct (f x); [by apply sublist_cons|done].
Qed.

Lemma sent_sublist tr1 tr2 :
  tr1 `sublist_of` tr2 → sent tr1 `sublist_of` sent tr2.
Proof. apply sublist_omap. Qed.

(** A statement, or the fetch of its result, through connection [n]. *)
Local Abbreviation statement_on n :=
  (λ c : call sql, (∃ q, c = Execute n q) ∨ c = Fetchall n).

Lemma script_statements (n : nat) (cell : list (stmt sql)) :
  Forall (statement_on n) (script n cell).
Proof.
  induction cell as [|s cell IH]; [constructor|].
  destruct s; cbn; try done; constructor; eauto.
Qed.

(** Statements through the open connection keep it the only one. *)
Lemma statements_one_at_a_time (n : nat) tr :
  Forall (statement_on n) tr → one_at_a_time (Some n) tr = true.
Proof.
  induction 1 as [|c tr [[q ->] | ->] _ IH]; [done| |]; cbn;
    by rewrite bool_decide_eq_true_2.
Qed.

Lemma statements_connected (n : nat) tr :
  Forall (statement_on n) tr → connected tr = [].
Proof. induction 1 as [|c tr [[q ->] | ->] _ IH]; done. Qed.

Lemma one_at_a_time_prefix tr1 tr2 live :
  tr1 `prefix_of` tr2 →
  one_at_a_time live tr2 = true → one_at_a_time live tr1 = true.
Proof.
  intros [l ->]. revert live. induction tr1 as [|c tr1 IH]; intros live; [done|].
  cbn [app one_at_a_time].
  destruct c; rewrite ?andb_true_iff;
    first [ intros [? ?]; split; [done|]; by apply IH | apply IH ].
Qed.

End TraceFacts.

End DriverFacts.

(** ** The runs of the two notebooks *)

Module NotebookFacts.
Import Driver DriverFacts.

(** The statements of the crime-report cells read as the notebook writes
    them. *)
Lemma crime_sql_text :
  CrimeReport.text <$> sql_of CrimeReport.notebook
  = [ "DROP DATABASE IF EXISTS crime_db;";
    "DROP GROUP IF EXISTS readonly;";
    "DROP GROUP IF EXISTS readwrite;";
    "DROP USER IF EXISTS data_analyst;";
    "DROP USER IF EXISTS data_scientist;";
    "CREATE DATABASE crime_db;";
    "CREATE SCHEMA crimes;";
    "CREATE TYPE weekday_enum AS ENUM ('Sunday', 'Monday', 'Tuesday', 'Wednesday', 'Thursday', 'Friday', 'Saturday');";
    "
CREATE TABLE crimes.boston_crimes (
    incident_number SERIAL PRIMARY KEY,
    offense_code SMALLINT,
    description VARCHAR(116),
    date DATE,
    day_of_the_week weekday_enum,
    lat DECIMAL,
    long DECIMAL
);
";
    "COPY crimes.boston_crimes FROM STDIN WITH CSV HEADER;";
    "SELECT * FROM crimes.boston_crimes LIMIT 3;";
    "REVOKE ALL ON SCHEMA public FROM public;";
    "REVOKE ALL ON DATABASE crime_db FROM public;";
    "CREATE GROUP readonly NOLOGIN;";
    "CREATE GROUP readwrite NOLOGIN;";
    "GRANT CONNECT ON DATABASE crime_db TO readonly;";
    "GRANT CONNECT ON DATABASE crime_db TO readwrite;";
    "GRANT USAGE ON SCHEMA crimes TO readonly;";
    "GRANT USAGE ON SCHEMA crimes TO readonly;";
    "GRANT SELECT ON ALL TABLES IN SCHEMA crimes TO readonly;";
    "GRANT SELECT, INSERT, DELETE, UPDATE ON ALL TABLES IN SCHEMA crimes TO readwrite;";
    "CREATE USER data_analyst WITH PASSWORD 'abc';";
    "GRANT readonly TO data_analyst;";
    "CREATE USER data_scientist WITH PASSWORD '123';";
    "GRANT readwrite TO data_scientist;";
    "
            SELECT schema_name FROM information_schema.schemata;
            ";
    "SELECT * FROM information_schema.tables WHERE table_schema = 'crimes';";
    "
            SELECT * FROM information_schema.applicable_roles 
            WHERE role_name = 'readonly' OR role_name = 'readwrite';
            ";
    "
    SELECT grantee, privilege_type
    FROM information_schema.table_privileges
    WHERE grantee = 'readwrite' OR grantee = 'readonly';
    " ].
Proof. reflexivity. Qed.

Section CrimeRuns.
Import CrimeReport.
Context (W : world sql).

(** The calls of a run in which nothing fails. *)
Lemma crime_quiet_sent : sent (calls (quiet_run W notebook)) = sql_of notebook.
Proof. reflexivity. Qed.

Lemma crime_quiet_opened :
  opened (calls (quiet_run W notebook)) = [0; 1; 2; 3]%nat.
Proof. reflexivity. Qed.

Lemma crime_quiet_connected :
  connected (calls (quiet_run W notebook))
  = [(0%nat, postgres_db); (1%nat, postgres_db); (2%nat, crime_db);
     (3%nat, crime_db)].
Proof. reflexivity. Qed.

Lemma crime_quiet_closed :
  closed (calls (quiet_run W notebook)) = [0; 1; 2]%nat.
Proof. reflexivity. Qed.

Lemma crime_quiet_one_at_a_time :
  one_at_a_time None (calls (quiet_run W notebook)) = true.
Proof. reflexivity. Qed.

Lemma crime_quiet_used n :
  n ∈ [0; 1; 2; 3]%nat → used n (calls (quiet_run W notebook)) = true.
Proof. intros Hn. by repeat (apply elem_of_cons in Hn as [-> | Hn]; [done|]);
  apply elem_of_nil in Hn. Qed.


(** Every call that goes through a connection finds it open: opened before
    and not closed since. *)
Lemma crime_quiet_via_open i c n :
  calls (quiet_run W notebook) !! i = Some c →
  via c = Some n →
  n ∈ still_open (take i (calls (quiet_run W notebook))).
Proof.
  intros Hlookup Hvia.
  do 60 (destruct i as [|i];
         [vm_compute in Hlookup; injection Hlookup as <-;
          first [ discriminate Hvia
                | injection Hvia as <-;
                  apply (bool_decide_unpack _); vm_compute; exact I ]|]).
  vm_compute in Hlookup. discriminate Hlookup.
Qed.


End CrimeRuns.

Section ChinookRuns.
Import ChinookNotebook.
Context (V : world sql).

Local Abbreviation connect := (Connect 0 (Url chinook_db)).
Local Abbreviation scripts := (script 0 <$> tail notebook).

Lemma chinook_quiet_sent :
  sent (calls (quiet_run V notebook)) = sql_of notebook.
Proof. reflexivity. Qed.

Lemma chinook_cells : Forall (λ cell, sql_cell cell = true) (tail notebook).
Proof. by repeat constructor. Qed.

Lemma chinook_scripts_sent : sent (mjoin scripts) = sql_of notebook.
Proof. reflexivity. Qed.

(** [%sql url] on a fresh kernel. *)
Lemma magic_connect :
  magic V cell_1 fresh_kernel
  = match failure V [] connect with
    | Some e =>
        (if printed e then Ok () else Raise e,
         with_calls fresh_kernel [connect])
    | None =>
        (Ok (),
         {| conn := Some 0%nat; cur := Some 0%nat; columns := None;
            connections := 1; calls := [connect] |})
    end.
Proof.
  unfold magic, cell_1, exec_all, exec, mbind, M_bind, bind, mret, M_ret,
    ret, get, perform, set_conn, set_cur, put.
  cbn [fresh_kernel connections calls].
  destruct (failure V [] connect) as [e|]; [|done].
  by destruct (printed e).
Qed.

(** The run of the Chinook notebook: [%sql] connects; when that fails no
    cell has anything to run on, otherwise the cells follow on connection 0,
    each up to its first failure. *)
Lemma chinook_run :
  run_magic V notebook
  = match failure V [] connect with
    | Some e =>
        (if printed e then Ok () else Raise e,
         with_calls fresh_kernel [connect])
    | None =>
        (match (magic_calls V [connect] scripts).2 with
         | Some e => Raise e
         | None => Ok ()
         end,
         {| conn := Some 0%nat; cur := Some 0%nat; columns := None;
            connections := 1;
            calls := connect :: (magic_calls V [connect] scripts).1 |})
    end.
Proof.
  unfold run_magic.
  change notebook with (cell_1 :: tail notebook).
  change (run_cells V (cell_1 :: tail notebook))
    with (magic V cell_1 ≫= λ _, run_cells V (tail notebook)).
  rewrite bind_eq, magic_connect.
  destruct (failure V [] connect) as [e|].
  - destruct (printed e); [|done].
    by rewrite run_cells_no_connection by (done || apply chinook_cells).
  - by rewrite (run_cells_sql V _ _ 0%nat) by (done || apply chinook_cells).
Qed.

(** The calls of a run of the Chinook notebook. *)
Lemma chinook_calls r k :
  run_magic V notebook = (r, k) →
  (is_Some (failure V [] connect) ∧ calls k = [connect])
  ∨ (failure V [] connect = None
     ∧ calls k = connect :: (magic_calls V [connect] scripts).1
     ∧ raised r = (magic_calls V [connect] scripts).2).
Proof.
  rewrite chinook_run. generalize (magic_calls V [connect] scripts).
  intros [new out]. destruct (failure V [] connect) as [e|].
  - intros [= <- <-]. left. by split.
  - intros [= <- <-]. right. split_and!; [done..|]. by destruct out.
Qed.

Lemma chinook_statements :
  Forall (λ c : call sql, (∃ q, c = Execute 0 q) ∨ c = Fetchall 0)
    (magic_calls V [connect] scripts).1.
Proof.
  apply Forall_forall. intros c Hc.
  assert (c ∈ mjoin scripts) as Hin
    by (eapply elem_of_sublist; [exact Hc|apply magic_calls_sublist]).
  clear Hc. revert c Hin. apply Forall_forall. cbn.
  repeat (constructor; [first [ left; by eexists | by right ]|]).
  constructor.
Qed.

(** In any run the magic keeps one connection, and sends statements of the
    cells in their order, none twice. *)
Lemma chinook_one_connection r k :
  run_magic V notebook = (r, k) →
  one_at_a_time None (calls k) = true
  ∧ connected (calls k) = [(0%nat, Url chinook_db)]
  ∧ closed (calls k) = []
  ∧ (failure V [] connect = None → used 0 (calls k) = true)
  ∧ sent (calls k) `sublist_of` sql_of notebook.
Proof.
  intros [[Hfail ->] | (Hconnect & -> & _)]%chinook_calls.
  - split_and!; [done|done|done| |].
    + intros Hnone. rewrite Hnone in Hfail. by destruct Hfail.
    + cbn. apply sublist_nil_l.
  - pose proof chinook_statements as Hst. split_and!.
    + cbn [one_at_a_time]. by rewrite (statements_one_at_a_time _ _ Hst).
    + change (connected (connect :: ?tr))
        with ((0%nat, Url chinook_db) :: connected tr).
      by rewrite (statements_connected _ _ Hst).
    + change (closed (connect :: ?tr)) with (closed tr).
      clear Hconnect. induction Hst as [|c tr [[q ->] | ->] _ IH]; done.
    + intros _.
      pose proof (until_failure_head V [connect] (script 0 cell_2)) as Hhead.
      unfold scripts, notebook. cbn [tail fmap list_fmap].
      rewrite magic_calls_cons.
      destruct (until_failure V [connect] (script 0 cell_2)) as [new out].
      cbn [fst snd] in *. destruct new as [|c new]; [done|].
      injection Hhead as ->.
      destruct out as [e|]; [destruct (printed e)|]; done.
    + rewrite <- chinook_scripts_sent.
      change (sent (connect :: ?tr)) with (sent tr).
      apply sent_sublist, magic_calls_sublist.
Qed.

End ChinookRuns.

(** C4, as stated, fails on the crime-report notebook: a run in which
    nothing goes wrong opens four connections, closes the first three and
    leaves the fourth open. *)
Lemma one_connection_refuted :
  ¬ one_connection (calls (run Samples.calm CrimeReport.notebook).2)
  ∧ opened (calls (run Samples.calm CrimeReport.notebook).2) = [0; 1; 2; 3]%nat
  ∧ still_open (calls (run Samples.calm CrimeReport.notebook).2) = [3%nat].
Proof.
  split_and!; [|done..]. intros (n & Hopened & _). vm_compute in Hopened.
  discriminate.
Qed.

(** C4, amended.  In every run of either notebook, one connection is open at
    a time: a connection is opened only while none is open, and every driver
    call goes through the connection that is open.  A run of the crime-report
    notebook that completes opens four connections, one after the other, two
    to postgres and two to crime_db; each carries statements, and each of
    the first three is closed exactly once.  A run of the Chinook notebook
    makes one connection, through the [%sql] magic, never closes it, and
    sends every statement through it.  Nothing is tried again: in the
    crime-report notebook a call that fails is the last of the run, and the
    Chinook notebook sends statements of its cells in their order, none
    twice. *)
Theorem connections_one_after_another
    (W : world CrimeReport.sql) (V : world ChinookNotebook.sql) r k r' k' :
  run W CrimeReport.notebook = (r, k) →
  run_magic V ChinookNotebook.notebook = (r', k') →
  one_at_a_time None (calls k) = true
  ∧ one_at_a_time None (calls k') = true
  ∧ (r = Ok () →
     connected (calls k)
     = [(0%nat, CrimeReport.postgres_db); (1%nat, CrimeReport.postgres_db);
        (2%nat, CrimeReport.crime_db); (3%nat, CrimeReport.crime_db)]
     ∧ (∀ n, n ∈ [0; 1; 2; 3]%nat → used n (calls k) = true)
     ∧ (∀ n, n ∈ [0; 1; 2]%nat →
          length (filter (λ m, m = n) (closed (calls k))) = 1%nat))
  ∧ connected (calls k') = [(0%nat, Url ChinookNotebook.chinook_db)]
  ∧ closed (calls k') = []
  ∧ (failure V [] (Connect 0 (Url ChinookNotebook.chinook_db)) = None →
     used 0 (calls k') = true)
  ∧ (∀ pre c post e,
       calls k = pre ++ c :: post → failure W pre c = Some e → post = [])
  ∧ sent (calls k') `sublist_of` sql_of ChinookNotebook.notebook.
Proof.
  intros Hrun Hrun'.
  destruct (run_obeys _ _ _ _ Hrun) as (Hpre & _ & Hok).
  destruct (chinook_one_connection V r' k' Hrun')
    as (Hone & Hconnected & Hclosed & Hused & Hsent).
  split_and!; [|done| |done..| |done].
  - eapply one_at_a_time_prefix; [exact Hpre|]. apply crime_quiet_one_at_a_time.
  - intros Hr. rewrite (Hok Hr). split_and!.
    + apply crime_quiet_connected.
    + apply crime_quiet_used.
    + intros n Hn. rewrite crime_quiet_closed.
      by repeat (apply elem_of_cons in Hn as [-> | Hn]; [done|]);
        apply elem_of_nil in Hn.
  - intros pre c post e Hcalls Hf.
    by destruct (run_failure _ _ _ _ _ _ _ _ Hrun Hcalls Hf).
Qed.

Lemma connections_one_after_another_example :
  one_at_a_time None (calls (run Samples.calm CrimeReport.notebook).2) = true
  ∧ connected (calls (run Samples.calm CrimeReport.notebook).2)
    = [(0%nat, CrimeReport.postgres_db); (1%nat, CrimeReport.postgres_db);
       (2%nat, CrimeReport.crime_db); (3%nat, CrimeReport.crime_db)]
  ∧ connected (calls (run_magic Samples.genre_fails ChinookNotebook.notebook).2)
    = [(0%nat, Url ChinookNotebook.chinook_db)].
Proof.
  destruct (connections_one_after_another Samples.calm Samples.genre_fails
              (Ok ()) (run Samples.calm CrimeReport.notebook).2
              (Ok ())
              (run_magic Samples.genre_fails ChinookNotebook.notebook).2)
    as (H1 & _ & H2 & H3 & _).
  - vm_compute. reflexivity.
  - vm_compute. reflexivity.
  - split; [exact H1|]. split; [exact (proj1 (H2 eq_refl))|exact H3].
Defined.

(** C5, as stated, fails: in the order the spec lists, privileges are
    granted before the groups are created, while the notebook creates the
    groups first (cell 33) and grants afterwards. *)
Lemma listed_order_refuted :
  CrimeReport.ascending
    (omap CrimeReport.listed_phase
       (sent (calls (run Samples.calm CrimeReport.notebook).2)))
  = false.
Proof. vm_compute. reflexivity. Qed.

(** C5, amended.  A run of the crime-report notebook sends the statements of
    its cells once each, in cell order, up to the first failure: the DROP ...
    IF EXISTS preamble, create database, create schema, create enum type,
    create table, bulk copy, the REVOKEs, create the groups, the GRANTs of
    privileges, and the users with their group memberships.  Only the five
    statements of the preamble carry an IF EXISTS guard, and a statement that
    fails is the last one sent: nothing is retried. *)
Theorem provisioning_order (W : world CrimeReport.sql) r k :
  run W CrimeReport.notebook = (r, k) →
  sent (calls k) `prefix_of` sql_of CrimeReport.notebook
  ∧ (r = Ok () → sent (calls k) = sql_of CrimeReport.notebook)
  ∧ CrimeReport.ascending
      (omap CrimeReport.phase (sql_of CrimeReport.notebook)) = true
  ∧ filter (λ q, CrimeReport.guarded q = true) (sql_of CrimeReport.notebook)
    = take 5 (sql_of CrimeReport.notebook)
  ∧ (∀ pre c post e,
       calls k = pre ++ c :: post → failure W pre c = Some e → post = []).
Proof.
  intros Hrun. destruct (run_obeys _ _ _ _ Hrun) as (Hpre & _ & Hok).
  split_and!.
  - rewrite <- (crime_quiet_sent W). by apply sent_prefix.
  - intros Hr. rewrite (Hok Hr). apply crime_quiet_sent.
  - reflexivity.
  - reflexivity.
  - intros pre c post e Hcalls Hf.
    by destruct (run_failure _ _ _ _ _ _ _ _ Hrun Hcalls Hf).
Qed.

Lemma provisioning_order_example :
  sent (calls (run Samples.denied CrimeReport.notebook).2)
  `prefix_of` sql_of CrimeReport.notebook.
Proof.
  refine (proj1 (provisioning_order Samples.denied
                   (run Samples.denied CrimeReport.notebook).1
                   (run Samples.denied CrimeReport.notebook).2 _)).
  vm_compute. reflexivity.
Defined.

(** C8, as stated, fails on the Chinook notebook: when the genre query of
    cell 6 fails, the magic prints the error, the run goes on with the cells
    that follow and ends without exception. *)
Lemma chinook_failure_printed :
  (run_magic Samples.genre_fails ChinookNotebook.notebook).1 = Ok ()
  ∧ failure Samples.genre_fails
      (take 5 (calls (run_magic Samples.genre_fails
                        ChinookNotebook.notebook).2))
      (Execute 0 ChinookNotebook.SelectGenres)
    = Some (DatabaseError "no such table: genre")
  ∧ drop 5 (calls (run_magic Samples.genre_fails ChinookNotebook.notebook).2)
    = [ Execute 0 ChinookNotebook.SelectGenres;
        Execute 0 ChinookNotebook.SelectEmployees; Fetchall 0;
        Execute 0 (ChinookNotebook.DropViewIfExists "order_by_country");
        Execute 0 (ChinookNotebook.CreateView "order_by_country");
        Execute 0 (ChinookNotebook.DropViewIfExists "stats_by_country");
        Execute 0 (ChinookNotebook.CreateView "stats_by_country");
        Execute 0 ChinookNotebook.SelectCountries; Fetchall 0;
        Execute 0 ChinookNotebook.SelectAlbumPurchases; Fetchall 0 ].
Proof. split_and!; vm_compute; reflexivity. Qed.

(** C8, amended.  In the crime-report notebook a call that fails (the
    driver's answer to a connect, a statement or a bulk load, or a file that
    is missing) is the last call of the run, and the run ends by raising that
    call's exception as it is; nothing is cleaned up, the connection the
    call went through stays open.  In the Chinook notebook no cell catches
    anything either, but its cells are run by the ipython-sql magic, which
    prints the driver's error: the run ends without exception, what follows
    a failed call is the first statement of a cell (the rest of the failed
    cell is left out), and once the connection is made the first statement
    of every cell is sent, whatever failed before; no statement is sent
    twice. *)
Theorem failures_propagate_or_print
    (W : world CrimeReport.sql) (V : world ChinookNotebook.sql) r k r' k' :
  run W CrimeReport.notebook = (r, k) →
  run_magic V ChinookNotebook.notebook = (r', k') →
  driver_errors V →
  (∀ pre c post e,
     calls k = pre ++ c :: post → failure W pre c = Some e →
     post = [] ∧ r = Raise e ∧ ∀ n, via c = Some n → n ∈ still_open pre)
  ∧ r' = Ok ()
  ∧ (∀ pre c post e,
       calls k' = pre ++ c :: post → failure V pre c = Some e →
       post = []
       ∨ ∃ cell c', cell ∈ ChinookNotebook.notebook
                    ∧ head (script 0 cell) = Some c'
                    ∧ head post = Some c')
  ∧ (failure V [] (Connect 0 (Url ChinookNotebook.chinook_db)) = None →
     ∀ cell c', cell ∈ ChinookNotebook.notebook →
       head (script 0 cell) = Some c' → c' ∈ calls k')
  ∧ sent (calls k') `sublist_of` sql_of ChinookNotebook.notebook.
Proof.
  intros Hrun Hrun' Hdriver.
  assert (∀ h c e, c ∈ mjoin (script 0 <$> tail ChinookNotebook.notebook) →
            failure V h c = Some e → printed e = true) as Hprinted.
  { intros h c e Hc Hf.
    assert (Forall (λ c, failure V h c = drv_fail V h c)
              (mjoin (script 0 <$> tail ChinookNotebook.notebook))) as Hall
      by (by repeat constructor).
    rewrite (proj1 (Forall_forall _ _) Hall c Hc) in Hf.
    by destruct (Hdriver _ _ _ Hf) as [msg ->]. }
  pose proof (magic_calls_printed V
                [Connect 0 (Url ChinookNotebook.chinook_db)] _ Hprinted)
    as Hout.
  split_and!.
  - intros pre c post e Hcalls Hf.
    destruct (run_failure _ _ _ _ _ _ _ _ Hrun Hcalls Hf) as [-> ->].
    split_and!; [done..|]. intros n Hvia.
    destruct (run_obeys _ _ _ _ Hrun) as ([rest Hrest] & _).
    rewrite Hcalls, <- app_assoc in Hrest.
    change ([c] ++ rest) with (c :: rest) in Hrest.
    replace pre
      with (take (length pre) (calls (quiet_run W CrimeReport.notebook)))
      by (by rewrite Hrest, take_app_length).
    apply (crime_quiet_via_open W _ c); [|done].
    rewrite Hrest. by rewrite list_lookup_middle.
  - rewrite chinook_run in Hrun'. apply (f_equal fst) in Hrun'.
    destruct (failure V [] (Connect 0 (Url ChinookNotebook.chinook_db)))
      as [e|] eqn:He; cbn [fst] in Hrun'.
    + cbn [failure] in He. destruct (Hdriver _ _ _ He) as [msg ->]. done.
    + by rewrite Hout in Hrun'.
  - intros pre c post e Hcalls Hf.
    apply chinook_calls in Hrun' as [[_ Hk] | (Hconnect & Hk & _)].
    + rewrite Hk in Hcalls. destruct pre as [|c0 [|c1 pre]]; [|done..].
      injection Hcalls as _ <-. by left.
    + rewrite Hk in Hcalls.
      remember (magic_calls V [Connect 0 (Url ChinookNotebook.chinook_db)]
                  (script 0 <$> tail ChinookNotebook.notebook)).1
        as tr eqn:Htr.
      destruct pre as [|c0 pre].
      * injection Hcalls as <- _. congruence.
      * injection Hcalls as <- Hcalls. subst tr.
        destruct (magic_calls_after_failure V _ _ _ _ _ _ Hcalls Hf)
          as [-> | (script' & c' & Hin & Hs & Hc')]; [by left|right].
        apply list_elem_of_fmap in Hin as (cell & -> & Hcell).
        exists cell, c'. split_and!; [by right|done|done].
  - intros Hconnect cell c' Hcell Hhead.
    apply chinook_calls in Hrun' as [[[e He] _] | (_ & -> & _)];
      [congruence|].
    apply elem_of_cons in Hcell as [-> | Hcell]; [done|].
    right. apply (magic_calls_heads V _ _ (script 0 cell)); [done| |done].
    apply list_elem_of_fmap. by exists cell.
  - by destruct (chinook_one_connection V r' k' Hrun') as (_ & _ & _ & _ & ?).
Qed.

Lemma failures_propagate_or_print_example :
  (run Samples.denied CrimeReport.notebook).1
  = Raise (DatabaseError "permission denied to create database")
  ∧ 1%nat ∈ still_open
              (take 12 (calls (run Samples.denied CrimeReport.notebook).2))
  ∧ (run_magic Samples.genre_fails ChinookNotebook.notebook).1 = Ok ().
Proof.
  destruct (failures_propagate_or_print Samples.denied Samples.genre_fails
              (run Samples.denied CrimeReport.notebook).1
              (run Samples.denied CrimeReport.notebook).2
              (run_magic Samples.genre_fails ChinookNotebook.notebook).1
              (run_magic Samples.genre_fails ChinookNotebook.notebook).2)
    as (Hcrime & Hchinook & _).
  - vm_compute. reflexivity.
  - vm_compute. reflexivity.
  - intros h c e Hf. destruct c as [| | |n q| | | | | |]; try discriminate Hf.
    destruct q; try discriminate Hf. injection Hf as <-. by eexists.
  - destruct (Hcrime
                (take 12 (calls (run Samples.denied CrimeReport.notebook).2))
                (Execute 1 (CrimeReport.CreateDatabase "crime_db")) []
                (DatabaseError "permission denied to create database"))
      as (_ & Hraise & Hopen).
    + vm_compute. reflexivity.
    + vm_compute. reflexivity.
    + split_and!; [exact Hraise|by apply Hopen|exact Hchinook].
Defined.



End NotebookFacts.

(** ** The privileges the crime-report notebook leaves *)

Module PrivilegeFacts.
Import Driver DriverFacts CrimeReport.

(** The catalog after a run in which nothing fails. *)
Lemma catalog_after_quiet (W : world sql) cat0 :
  catalog_after (calls (quiet_run W notebook)) cat0 = provision cat0.
Proof. reflexivity. Qed.

(** Unfold the statements' effects and decide the tests on names. *)
Ltac catalog_cases :=
  unfold provision, on_postgres, on_crime_db;
  cbn [foldl apply_sql granted member table_exists names in_database];
  unfold listed;
  repeat (case_bool_decide; simplify_eq; cbn [andb orb]);
  try done; try by (exfalso; set_solver).

Section Provision.
Context (cat0 : catalog).

Lemma usage_granted g :
  granted (provision cat0) g USAGE (Schema "crime_db" "crimes")
  = bool_decide (g = ROLE "readonly").
Proof. catalog_cases. Qed.

Lemma table_granted g p :
  granted (provision cat0) g p (Table "crime_db" "crimes" "boston_crimes")
  = bool_decide (g = ROLE "readonly" ∧ p = SELECT
                 ∨ g = ROLE "readwrite"
                   ∧ p ∈ [SELECT; INSERT; DELETE; UPDATE]).
Proof. destruct p; catalog_cases. Qed.

Lemma members_of_readonly role :
  member (provision cat0) "readonly" role
  = bool_decide (role = "data_analyst").
Proof. catalog_cases. Qed.

Lemma members_of_data_analyst role :
  member (provision cat0) "data_analyst" role = false.
Proof. catalog_cases. Qed.

(** Who holds USAGE on the schema: the group readonly and its member. *)
Lemma holds_usage_inv role :
  holds (provision cat0) USAGE (Schema "crime_db" "crimes") role →
  role = "readonly" ∨ role = "data_analyst".
Proof.
  induction 1 as [role Hown|role Hpublic|role group Hmember _ IH].
  - rewrite usage_granted in Hown. case_bool_decide; naive_solver.
  - rewrite usage_granted in Hpublic. by case_bool_decide.
  - destruct IH as [Hgroup | Hgroup]; subst group.
    + rewrite members_of_readonly in Hmember. case_bool_decide; naive_solver.
    + by rewrite members_of_data_analyst in Hmember.
Qed.

End Provision.

(** C10.  A run of the crime-report notebook that completes sends GRANT
    USAGE ON SCHEMA crimes TO readonly twice and no statement that grants
    USAGE on schema crimes to readwrite, while it does grant readwrite
    SELECT, INSERT, DELETE and UPDATE on all tables of the schema.  Whatever
    the catalog was before, afterwards the group readonly holds USAGE on the
    schema, the group readwrite and its member data_scientist do not, and
    readwrite holds the four privileges on the table boston_crimes. *)
Theorem readwrite_lacks_schema_usage (W : world sql) (cat0 : catalog) k :
  run W notebook = (Ok (), k) →
  filter (λ q, grants_usage "crimes" "readonly" q = true) (sent (calls k))
  = [ Grant [USAGE] (SCHEMA "crimes") (ROLE "readonly");
      Grant [USAGE] (SCHEMA "crimes") (ROLE "readonly") ]
  ∧ filter (λ q, grants_usage "crimes" "readwrite" q = true) (sent (calls k))
    = []
  ∧ Grant [SELECT; INSERT; DELETE; UPDATE] (ALL_TABLES_IN_SCHEMA "crimes")
      (ROLE "readwrite") ∈ sent (calls k)
  ∧ holds (catalog_after (calls k) cat0) USAGE
      (Schema "crime_db" "crimes") "readonly"
  ∧ ¬ holds (catalog_after (calls k) cat0) USAGE
      (Schema "crime_db" "crimes") "readwrite"
  ∧ ¬ holds (catalog_after (calls k) cat0) USAGE
      (Schema "crime_db" "crimes") "data_scientist"
  ∧ ∀ p, p ∈ [SELECT; INSERT; DELETE; UPDATE] →
      holds (catalog_after (calls k) cat0) p
        (Table "crime_db" "crimes" "boston_crimes") "readwrite".
Proof.
  intros Hrun. destruct (run_obeys _ _ _ _ Hrun) as (_ & _ & Hok).
  rewrite (Hok eq_refl), catalog_after_quiet.
  split_and!.
  - reflexivity.
  - reflexivity.
  - apply list_elem_of_lookup. by exists 20%nat.
  - apply holds_own. rewrite usage_granted. by apply bool_decide_eq_true_2.
  - intros Hholds. by destruct (holds_usage_inv _ _ Hholds).
  - intros Hholds. by destruct (holds_usage_inv _ _ Hholds).
  - intros p Hp. apply holds_own. rewrite table_granted.
    apply bool_decide_eq_true_2. by right.
Qed.

Lemma readwrite_lacks_schema_usage_example :
  holds
    (catalog_after (calls (run Samples.calm notebook).2)
       Samples.empty_catalog)
    USAGE (Schema "crime_db" "crimes") "readonly"
  ∧ ¬ holds
        (catalog_after (calls (run Samples.calm notebook).2)
           Samples.empty_catalog)
        USAGE (Schema "crime_db" "crimes") "readwrite".
Proof.
  destruct (readwrite_lacks_schema_usage Samples.calm Samples.empty_catalog
              (run Samples.calm notebook).2)
    as (_ & _ & _ & Hreadonly & Hreadwrite & _).
  - vm_compute. reflexivity.
  - by split.
Defined.

End PrivilegeFacts.

(** ** More about the Chinook queries *)

Module QueryFacts.
Import Sql SqlFacts Chinook ChinookFacts ChinookFigures.

Section Keys.
Context {A B : Type}.

(** A column without repeated values matches a value at most once. *)
Lemma filter_key_unique {K} `{EqDecision K} (key : B → option K)
    (x : option K) (r : list B) :
  NoDup (omap key r) →
  (length (filter (λ b, holds (sql_eq (key b) x)) r) ≤ 1)%nat.
Proof.
  intros Hkeys. destruct x as [v|].
  - induction r as [|b r IH]; [cbn; lia|].
    rewrite filter_cons. cbn [omap list_omap] in Hkeys.
    destruct (key b) as [w|] eqn:Hb.
    + apply NoDup_cons in Hkeys as [Hw Hkeys]. specialize (IH Hkeys).
      destruct (decide (holds (sql_eq (Some w) (Some v)))) as [Hwv|]; [|done].
      apply holds_sql_eq in Hwv as (u & [= ->] & [= ->]).
      rewrite filter_none; [cbn; lia|].
      intros b' Hb' (u' & Hu' & [= <-])%holds_sql_eq.
      apply Hw, list_elem_of_omap. by exists b'.
    + rewrite decide_False; [by apply IH|].
      by intros (u & [=] & _)%holds_sql_eq.
  - rewrite filter_none; [cbn; lia|].
    by intros b _ (u & _ & [=])%holds_sql_eq.
Qed.

(** A LEFT JOIN in which every left row has at most one partner keeps the
    left rows as they are, each once, in their order. *)
Lemma left_join_unique (on : A → B → option bool) (l : list A) (r : list B) :
  (∀ a, a ∈ l → (length (filter (λ b, holds (on a b)) r) ≤ 1)%nat) →
  left_join on l r
  = (λ a, (a, head (filter (λ b, holds (on a b)) r))) <$> l.
Proof.
  unfold left_join. induction l as [|a l IH]; intros Hone; [done|].
  rewrite bind_cons, fmap_cons, IH.
  - pose proof (Hone a ltac:(left)) as Ha.
    destruct (filter (λ b, holds (on a b)) r) as [|b [|b' bs]];
      [done|done|cbn in Ha; lia].
  - intros a' Ha'. apply Hone. by right.
Qed.

(** An INNER JOIN in which every left row has at most one partner keeps,
    in their order, the left rows that have one. *)
Lemma inner_join_unique (on : A → B → option bool) (l : list A) (r : list B) :
  (∀ a, a ∈ l → (length (filter (λ b, holds (on a b)) r) ≤ 1)%nat) →
  inner_join on l r
  = omap (λ a, pair a <$> head (filter (λ b, holds (on a b)) r)) l.
Proof.
  unfold inner_join. induction l as [|a l IH]; intros Hone; [done|].
  rewrite bind_cons. cbn [omap list_omap]. rewrite IH.
  - pose proof (Hone a ltac:(left)) as Ha.
    destruct (filter (λ b, holds (on a b)) r) as [|b [|b' bs]];
      [done|done|cbn in Ha; lia].
  - intros a' Ha'. apply Hone. by right.
Qed.

End Keys.

Section Genres.
Context `{Real64}.
Implicit Types (db : database).

(** With track_id and genre_id as keys, the two INNER JOINs of the genre
    query keep the lines that have a track with a genre, each once. *)
Lemma line_track_genre_keys db :
  NoDup (omap t_track_id (tbl_track db)) →
  NoDup (omap g_genre_id (tbl_genre db)) →
  line_track_genre db
  = omap (λ il, t ← track_of db il; g ← genre_of db t; Some (il, t, g))
      (tbl_invoice_line db).
Proof.
  intros Htracks Hgenres. unfold line_track_genre.
  rewrite (inner_join_unique _ (tbl_invoice_line db)).
  - rewrite inner_join_unique.
    + induction (tbl_invoice_line db) as [|il ls IH]; [done|].
      cbn [omap list_omap]. fold (track_of db il).
      destruct (track_of db il) as [t|]; cbn; [|done].
      fold (genre_of db t). rewrite IH. by destruct (genre_of db t).
    + intros lt _. by apply filter_key_unique.
  - intros il _. by apply filter_key_unique.
Qed.

(** The lines of the group of a genre name. *)
Lemma lines_of_genre db (name : option string) (ls : list invoice_line) :
  (λ r : invoice_line * track * genre, r.1.1)
  <$> filter (λ r, g_name r.2 = name)
        (omap (λ il, t ← track_of db il; g ← genre_of db t; Some (il, t, g))
           ls)
  = filter (λ il, genre_name_of db il = Some name) ls.
Proof.
  induction ls as [|il ls IH]; [done|].
  cbn [omap list_omap]. rewrite (filter_cons _ il). unfold genre_name_of.
  destruct (track_of db il) as [t|]; cbn [mbind option_bind].
  - destruct (genre_of db t) as [g|]; cbn [mbind option_bind].
    + rewrite filter_cons. cbn [snd].
      destruct (decide (g_name g = name)) as [Hg|Hg].
      * rewrite decide_True by congruence. cbn [fmap list_fmap fst].
        by rewrite IH.
      * rewrite decide_False by congruence. done.
    + rewrite decide_False by done. done.
  - rewrite decide_False by done. done.
Qed.

(** When track_id and genre_id are keys of their tables, the genre query
    counts every line at most once: the tracks_sold of a genre, before the
    casts, is the sum of the quantities of the lines whose track has that
    genre, and a line whose track or genre row is missing is counted
    nowhere. *)
Theorem every_line_counted_once db :
  NoDup (omap t_track_id (tbl_track db)) →
  NoDup (omap g_genre_id (tbl_genre db)) →
  (λ r, r.1.1) <$> line_track_genre db
  = filter (λ il, is_Some (genre_name_of db il)) (tbl_invoice_line db)
  ∧ ∀ s, s ∈ tracks_by_genre db →
      gs_tracks_sold s
      = r_of_int
        <$> sum_int
              (il_quantity
               <$> filter (λ il, genre_name_of db il = Some (gs_genre s))
                     (tbl_invoice_line db)).
Proof.
  intros Htracks Hgenres. split.
  - rewrite (line_track_genre_keys db Htracks Hgenres).
    induction (tbl_invoice_line db) as [|il ls IH]; [done|].
    cbn [omap list_omap]. rewrite filter_cons. unfold genre_name_of.
    destruct (track_of db il) as [t|]; cbn [mbind option_bind].
    + destruct (genre_of db t) as [g|]; cbn [mbind option_bind].
      * rewrite decide_True by done. cbn [fmap list_fmap fst].
        by rewrite IH.
      * rewrite decide_False by (by intros [? ?]). done.
    + rewrite decide_False by (by intros [? ?]). done.
  - unfold tracks_by_genre.
    intros s ([k g] & -> & Hkg)%list_elem_of_fmap. cbn.
    apply elem_of_group_by in Hkg as [_ ->].
    rewrite (line_track_genre_keys db Htracks Hgenres).
    rewrite <- lines_of_genre, <- list_fmap_compose. done.
Qed.

End Genres.

Section Employees.
Context `{Real64}.
Implicit Types (db : database).

(** With customer_id and employee_id as keys, the two LEFT JOINs of the
    employee query keep one row per invoice. *)
Lemma invoice_customer_employee_keys db :
  NoDup (omap c_customer_id (tbl_customer db)) →
  NoDup (omap e_employee_id (tbl_employee db)) →
  invoice_customer_employee db
  = (λ i, (i, customer_of db i, rep_of db (customer_of db i)))
    <$> tbl_invoice db.
Proof.
  intros Hcustomers Hemployees. unfold invoice_customer_employee.
  rewrite (left_join_unique _ (tbl_invoice db)).
  - rewrite left_join_unique.
    + by rewrite <- list_fmap_compose.
    + intros ic _. by apply filter_key_unique.
  - intros i _. by apply filter_key_unique.
Qed.

(** When customer_id and employee_id are keys of their tables, the employee
    query counts every invoice exactly once: the joins keep the invoices as
    they are, and the total_sales of a row is the sum, in table order, of the
    totals of the invoices whose customer's support rep carries the row's
    name; the invoices without customer or support rep are summed in the row
    with the NULL name. *)
Theorem every_invoice_counted_once db :
  NoDup (omap c_customer_id (tbl_customer db)) →
  NoDup (omap e_employee_id (tbl_employee db)) →
  (λ r, r.1.1) <$> invoice_customer_employee db = tbl_invoice db
  ∧ ∀ row, row ∈ employee_query db →
      er_total_sales row
      = sum_real
          (i_total
           <$> filter (λ i, agent_name db i = er_employee_name row)
                 (tbl_invoice db)).
Proof.
  intros Hcustomers Hemployees.
  rewrite (invoice_customer_employee_keys db Hcustomers Hemployees). split.
  - rewrite <- list_fmap_compose. apply list_fmap_id.
  - unfold employee_query.
    rewrite (invoice_customer_employee_keys db Hcustomers Hemployees).
    intros row ([k g] & -> & Hkg)%list_elem_of_fmap. cbn.
    apply elem_of_group_by in Hkg as [_ ->].
    rewrite filter_fmap_comm, <- list_fmap_compose. done.
Qed.

(** The hire_date of a row of the employee query is read from a joined row
    of its group: it is the hire date of an employee of the table who
    carries the row's name. *)
Theorem hire_date_of_namesake db row name :
  row ∈ employee_query db →
  er_employee_name row = Some name →
  ∃ e, e ∈ tbl_employee db
       ∧ employee_name (Some e) = Some name
       ∧ er_hire_date row = e_hire_date e.
Proof.
  unfold employee_query. intros ([k g] & -> & Hkg)%list_elem_of_fmap Hname.
  cbn in *. subst k.
  destruct (group_by_nonempty _ _ _ _ Hkg) as (r0 & Hr0 & _).
  apply elem_of_group_by in Hkg as [_ Hg].
  destruct (head g) as [r|] eqn:Hhead.
  - apply head_Some_elem_of in Hhead as Hr. rewrite Hg in Hr.
    apply list_elem_of_filter in Hr as [Hkey Hr].
    destruct r as [ic [e|]].
    + exists e. apply elem_of_left_join in Hr as [_ [He _]]. by split_and!.
    + by cbn in Hkey.
  - apply head_None in Hhead. subst g. rewrite Hhead in Hr0.
    by apply elem_of_nil in Hr0.
Qed.

End Employees.

Section AlbumSummary.
Context `{Real64}.
Implicit Types (db : database) (inv : Z).

(** The one row an invoice with a line has in the subquery of the album
    query: its group, under its label. *)
Lemma class_row_of_invoice db inv :
  lines_of db inv ≠ [] →
  filter (λ r, pr_invoice_id r = Some inv) (invoice_classes db)
  = [purchase_of (album_label db inv)
       (Some inv,
        filter (λ r, ia_invoice_id r.1 = Some inv)
          (invoice_album_length db))].
Proof.
  intros Hne. unfold invoice_classes, union, album_label.
  rewrite filter_remove_dups, filter_app.
  rewrite (filter_comm _ (λ r, holds (having_yes r))).
  rewrite (filter_comm _ (λ r, holds (having_no r))).
  rewrite !classes_of_invoice by done.
  rewrite !filter_cons, !filter_nil.
  unfold holds. rewrite having_yes_of, having_no_of.
  destruct (is_album_purchase db inv).
  - rewrite decide_True by done. rewrite decide_False by done. done.
  - rewrite decide_False by done. rewrite decide_True by done. done.
Qed.

Lemma elem_of_invoices_with_lines db inv :
  inv ∈ invoices_with_lines db ↔ lines_of db inv ≠ [].
Proof.
  unfold invoices_with_lines, lines_of.
  rewrite elem_of_remove_dups, list_elem_of_omap. split.
  - intros (il & Hil & Hinv) Hnil.
    eapply (filter_nil_not_elem_of _ _ il Hnil); done.
  - intros Hne.
    destruct (filter (λ il, il_invoice_id il = Some inv)
                (tbl_invoice_line db)) as [|il ls] eqn:Hf; [done|].
    assert (il ∈ filter (λ il, il_invoice_id il = Some inv)
                   (tbl_invoice_line db)) as Hil by (rewrite Hf; left).
    apply list_elem_of_filter in Hil as [Hinv Hil]. by exists il.
Qed.

(** A row of the subquery with an invoice_id comes from a line of that
    invoice. *)
Lemma class_row_has_lines db r inv :
  r ∈ invoice_classes db → pr_invoice_id r = Some inv →
  lines_of db inv ≠ [].
Proof.
  unfold invoice_classes, union. rewrite elem_of_remove_dups, elem_of_app.
  intros Hr Hinv.
  assert (∃ label kg,
            kg ∈ group_by (λ r, ia_invoice_id r.1) (invoice_album_length db)
            ∧ r = purchase_of label kg) as (label & [k g] & Hkg & ->).
  { destruct Hr as [Hr | Hr];
      apply list_elem_of_filter in Hr as [_ Hr];
      apply list_elem_of_fmap in Hr as (kg & -> & Hkg); eauto. }
  cbn in Hinv. subst k.
  apply elem_of_group_by in Hkg as [Hk _].
  apply list_elem_of_fmap in Hk as ([ia o] & Hia & Hin).
  unfold invoice_album_length in Hin.
  apply elem_of_left_join in Hin as [Hin _].
  apply elem_of_invoice_album in Hin as (il & ot & Hil & _ & ->).
  cbn in Hia. apply elem_of_invoices_with_lines.
  unfold invoices_with_lines. rewrite elem_of_remove_dups, list_elem_of_omap.
  by exists il.
Qed.

(** A column in which no value occurs twice. *)
Lemma NoDup_omap_unique {A B} `{EqDecision B} (f : A → option B)
    (l : list A) :
  (∀ v, (length (filter (λ a, f a = Some v) l) ≤ 1)%nat) →
  NoDup (omap f l).
Proof.
  induction l as [|a l IH]; intros Hone; [constructor|].
  assert (NoDup (omap f l)) as Hl.
  { apply IH. intros v. specialize (Hone v). rewrite filter_cons in Hone.
    destruct (decide (f a = Some v)); cbn in Hone; lia. }
  cbn [omap list_omap]. destruct (f a) as [v|] eqn:Ha; [|done].
  constructor; [|done]. intros (a' & Ha' & Hv)%list_elem_of_omap.
  specialize (Hone v). rewrite filter_cons, decide_True in Hone by done.
  assert (a' ∈ filter (λ a, f a = Some v) l) as Hin
    by (by apply list_elem_of_filter).
  destruct (filter (λ a, f a = Some v) l); [by apply elem_of_nil in Hin|].
  cbn in Hone. lia.
Qed.

(** The invoice_ids under a label are the invoices with lines that carry
    the label, each once. *)
Lemma invoices_under_label db (label : string) :
  omap pr_invoice_id
    (filter (λ r, pr_album_purchase r = label) (invoice_classes db))
  ≡ₚ filter (λ inv, album_label db inv = label) (invoices_with_lines db).
Proof.
  apply NoDup_Permutation.
  - apply NoDup_omap_unique. intros inv. rewrite filter_comm.
    destruct (decide (lines_of db inv = [])) as [Hnil|Hne].
    + rewrite (filter_none (λ r, pr_invoice_id r = Some inv));
        [cbn; lia|].
      intros r Hr Hinv. by apply (class_row_has_lines db r inv).
    + rewrite class_row_of_invoice by done. rewrite filter_cons, filter_nil.
      case_decide; cbn; lia.
  - apply NoDup_filter, NoDup_remove_dups.
  - intros inv. rewrite list_elem_of_omap, list_elem_of_filter.
    rewrite elem_of_invoices_with_lines. split.
    + intros (r & [Hlabel Hr]%list_elem_of_filter & Hinv).
      pose proof (class_row_has_lines db r inv Hr Hinv) as Hne.
      split; [|done].
      assert (r ∈ filter (λ r, pr_invoice_id r = Some inv)
                    (invoice_classes db)) as Hin
        by (by apply list_elem_of_filter).
      rewrite class_row_of_invoice in Hin by done.
      apply list_elem_of_singleton in Hin. by subst r.
    + intros [Hlabel Hne].
      exists (purchase_of (album_label db inv)
                (Some inv,
                 filter (λ r, ia_invoice_id r.1 = Some inv)
                   (invoice_album_length db))).
      split; [|done]. apply list_elem_of_filter. split; [done|].
      assert (purchase_of (album_label db inv)
                (Some inv,
                 filter (λ r, ia_invoice_id r.1 = Some inv)
                   (invoice_album_length db))
              ∈ filter (λ r, pr_invoice_id r = Some inv)
                  (invoice_classes db)) as Hin.
      { rewrite class_row_of_invoice by done. left. }
      by apply list_elem_of_filter in Hin as [_ Hin].
Qed.

(** The summary of the album query: a row is labelled "yes" or "no"; its
    number_of_invoices is the number of invoices with at least one line that
    carry its label, each invoice counted once, whatever the number of its
    lines; invoices without a line and lines without invoice_id are counted
    in neither row.  The percent divides this count by the number of all
    invoices. *)
Theorem album_summary_counts db row :
  row ∈ album_purchase_query db →
  (ps_album_purchase row = "yes" ∨ ps_album_purchase row = "no")
  ∧ ps_number_of_invoices row
    = Z.of_nat
        (length (filter (λ inv, album_label db inv = ps_album_purchase row)
                   (invoices_with_lines db)))
  ∧ ps_percent row
    = r_round 3
      <$> r_div (r_of_int (ps_number_of_invoices row))
                (r_of_int (count (i_invoice_id <$> tbl_invoice db))).
Proof.
  unfold album_purchase_query.
  intros ([label g] & -> & Hg)%list_elem_of_fmap. cbn.
  apply elem_of_group_by in Hg as [Hlabel ->]. split_and!; [|  |done].
  - apply list_elem_of_fmap in Hlabel as (r & -> & Hr).
    unfold invoice_classes, union in Hr.
    rewrite elem_of_remove_dups, elem_of_app in Hr.
    destruct Hr as [Hr | Hr];
      apply list_elem_of_filter in Hr as [_ Hr];
      apply list_elem_of_fmap in Hr as (kg & -> & _); [by left|by right].
  - unfold count. rewrite non_null_fmap. f_equal.
    apply Permutation_length, invoices_under_label.
Qed.

End AlbumSummary.

Section Countries.
Context `{Real64}.
Implicit Types (db : database).







End Countries.

Lemma every_line_counted_once_example :
  Some (Decimal4.of_int 4 : @real Decimal4.decimal4)
  = @r_of_int Decimal4.decimal4
    <$> sum_int
          (il_quantity
           <$> filter (λ il, genre_name_of Samples.shop il
                             = Some (Some "Rock"))
                 (tbl_invoice_line Samples.shop)).
Proof.
  refine (proj2 (every_line_counted_once Samples.shop _ _)
            {| gs_genre := Some "Rock";
               gs_tracks_sold :=
                 Some (Decimal4.of_int 4 : @real Decimal4.decimal4) |} _).
  - apply (bool_decide_unpack _). vm_compute. exact I.
  - apply (bool_decide_unpack _). vm_compute. exact I.
  - vm_compute. apply list_elem_of_further, list_elem_of_here.
Defined.

Lemma album_summary_counts_example :
  3 = Z.of_nat
        (length (filter (λ inv, album_label Samples.shop inv = "yes")
                   (invoices_with_lines Samples.shop))).
Proof.
  refine (proj1 (proj2 (album_summary_counts Samples.shop
                          {| ps_album_purchase := "yes";
                             ps_number_of_invoices := 3;
                             ps_percent :=
                               Some (7500 : @real Decimal4.decimal4) |}
                          _))).
  vm_compute. apply list_elem_of_here.
Defined.



Lemma hire_date_of_namesake_example :
  ∃ e, e ∈ tbl_employee Samples.shop
       ∧ employee_name (Some e) = Some "Steve Johnson"
       ∧ Some "2017-10-17 00:00:00" = e_hire_date e.
Proof.
  refine (hire_date_of_namesake Samples.shop
            {| er_employee_name := Some "Steve Johnson";
               er_total_sales := Some (29700 : @real Decimal4.decimal4);
               er_hire_date := Some "2017-10-17 00:00:00" |}
            "Steve Johnson" _ _).
  - vm_compute. apply list_elem_of_here.
  - reflexivity.
Defined.

Lemma every_invoice_counted_once_example :
  Some (39600 : @real Decimal4.decimal4)
  = sum_real
      (i_total
       <$> filter (λ i, agent_name Samples.shop i = Some "Jane Peacock")
             (tbl_invoice Samples.shop)).
Proof.
  refine (proj2 (every_invoice_counted_once Samples.shop _ _)
            {| er_employee_name := Some "Jane Peacock";
               er_total_sales := Some (39600 : @real Decimal4.decimal4);
               er_hire_date := Some "2017-04-01 00:00:00" |} _).
  - apply (bool_decide_unpack _). vm_compute. exact I.
  - apply (bool_decide_unpack _). vm_compute. exact I.
  - vm_compute. apply list_elem_of_further, list_elem_of_here.
Defined.

End QueryFacts.

(** ** The exploration cells *)

Module ExplorationFacts.
Import Driver DriverFacts Exploration.

Section Cells.
Context {sql : Type} (W : world sql).
Implicit Types (k : kernel sql).

(** The loop of cell 13 computes the maximum of the lengths. *)
Lemma max_length_from (start : nat) (descriptions : list string) :
  foldl (λ max_length description,
           if bool_decide (max_length < String.length description)%nat
           then String.length description
           else max_length)
    start descriptions
  = (start `max` max_list (String.length <$> descriptions))%nat.
Proof.
  revert start. induction descriptions as [|d ds IH]; intros start.
  - cbn. lia.
  - cbn [foldl fmap list_fmap]. rewrite IH. cbn. case_bool_decide; lia.
Qed.

Lemma max_length_max_list (descriptions : list string) :
  max_length descriptions = max_list (String.length <$> descriptions).
Proof. unfold max_length. by rewrite max_length_from. Qed.

End Cells.

Section GetColSet.
Context {sql : Type} (W : world sql).
Implicit Types (k : kernel sql).

(** How [get_col_set] fails.  A file that does not exist makes [open] raise
    FileNotFoundError; a file without any line makes [next(f)] raise
    StopIteration; a row that stops before column [col_index] makes
    [row[col_index]] raise IndexError, also when other rows have the column.
    In each case the file was opened once and nothing else was done. *)
Theorem get_col_set_raises file_path col_index k :
  (fs W file_path = None →
   get_col_set W file_path col_index k
   = (Raise (FileNotFoundError file_path), with_calls k [Open file_path]))
  ∧ (fs W file_path = Some [] →
     get_col_set W file_path col_index k
     = (Raise StopIteration, with_calls k [Open file_path]))
  ∧ (∀ header body row,
       fs W file_path = Some (header :: body) →
       row ∈ csv_reader W body → (length row ≤ col_index)%nat →
       get_col_set W file_path col_index k
       = (Raise IndexError, with_calls k [Open file_path])).
Proof.
  split_and!.
  - intros Hfs. by rewrite get_col_set_eq, Hfs.
  - intros Hfs. by rewrite get_col_set_eq, Hfs.
  - intros header body row Hfs Hrow Hshort. rewrite get_col_set_eq, Hfs.
    destruct (mapM (λ row, row !! col_index) (csv_reader W body))
      as [vs|] eqn:Hvs; [|done].
    assert (is_Some (mapM (λ row : list string, row !! col_index)
                       (csv_reader W body))) as Hsome by (by rewrite Hvs).
    apply mapM_is_Some in Hsome.
    apply (proj1 (Forall_forall _ _) Hsome) in Hrow.
    apply lookup_lt_is_Some_1 in Hrow. lia.
Qed.

End GetColSet.

Lemma get_col_set_raises_example :
  get_col_set (MoreSamples.shelf : world CrimeReport.sql) "data/lost.csv" 2
    fresh_kernel
  = (Raise (FileNotFoundError "data/lost.csv"),
     with_calls fresh_kernel [Open "data/lost.csv"])
  ∧ get_col_set (MoreSamples.shelf : world CrimeReport.sql) "data/empty.csv"
      2 fresh_kernel
    = (Raise StopIteration, with_calls fresh_kernel [Open "data/empty.csv"])
  ∧ get_col_set (MoreSamples.shelf : world CrimeReport.sql)
      "data/ragged.csv" 2 fresh_kernel
    = (Raise IndexError, with_calls fresh_kernel [Open "data/ragged.csv"]).
Proof.
  split_and!.
  - by apply (get_col_set_raises
                (MoreSamples.shelf : world CrimeReport.sql)
                "data/lost.csv" 2 fresh_kernel).
  - by apply (get_col_set_raises
                (MoreSamples.shelf : world CrimeReport.sql)
                "data/empty.csv" 2 fresh_kernel).
  - apply (proj2 (proj2 (get_col_set_raises
                           (MoreSamples.shelf : world CrimeReport.sql)
                           "data/ragged.csv" 2 fresh_kernel))
             (hd "" MoreSamples.ragged_lines)
             (tail MoreSamples.ragged_lines) ["2"; "1402"]).
    + reflexivity.
    + vm_compute. apply list_elem_of_further, list_elem_of_here.
    + cbn. lia.
Defined.

Section Cell11.
Context {sql : Type} (W : world sql).
Implicit Types (k : kernel sql).

Lemma size_list_to_set_le (l : list string) :
  (size (list_to_set l : gset string) ≤ length l)%nat.
Proof.
  induction l as [|x l IH]; [by rewrite list_to_set_nil, size_empty|].
  rewrite list_to_set_cons, size_union_alt, size_singleton. cbn [length].
  assert (size (list_to_set l ∖ {[x]} : gset string)
          ≤ size (list_to_set l : gset string))%nat
    by (apply subseteq_size; set_solver).
  lia.
Qed.

Lemma length_omap_le {A B} (f : A → option B) (l : list A) :
  (length (omap f l) ≤ length l)%nat.
Proof.
  induction l as [|x l IH]; [done|]. cbn. destruct (f x); cbn; lia.
Qed.

(** The loop of cell 11 from column [start] on. *)
Lemma column_counts_from path header first body (n start : nat)
    (printed : list (string * nat)) k :
  columns k = Some header →
  fs W path = Some (first :: body) →
  (start + n ≤ length header)%nat →
  Forall (λ row, (start + n ≤ length row)%nat) (csv_reader W body) →
  for_each (seq start n)
    (λ printed i,
       header ← global "columns" columns;
       match header !! i with
       | Some name =>
           col_set ← get_col_set W path i;
           mret (printed ++ [(name, size col_set)])
       | None => raise IndexError
       end) printed k
  = (Ok (printed
         ++ zip (take n (drop start header))
              ((λ i, size (column_values W (first :: body) i))
               <$> seq start n)),
     with_calls k (replicate n (Open path))).
Proof.
  intros Hcolumns Hfs. revert start printed k Hcolumns.
  induction n as [|n IH]; intros start printed k Hcolumns Hheader Hrows.
  - cbn. rewrite app_nil_r. unfold with_calls. rewrite app_nil_r.
    by destruct k.
  - cbn [seq for_each]. rewrite bind_eq, bind_eq, global_eq, Hcolumns.
    destruct (lookup_lt_is_Some_2 header start) as [name Hname]; [lia|].
    rewrite Hname, bind_eq.
    rewrite (get_col_set_column W path first body start k Hfs).
    + rewrite ret_eq, IH.
      * rewrite <- app_assoc. cbn [app].
        rewrite (drop_S _ _ _ Hname). cbn [take fmap list_fmap zip zip_with].
        unfold with_calls. cbn. rewrite <- app_assoc. done.
      * done.
      * lia.
      * eapply Forall_impl; [exact Hrows|]. cbn. intros row. lia.
    + eapply Forall_impl; [exact Hrows|]. cbn. intros row. lia.
Qed.

(** Cell 11, with the header of cell 9 in [columns]: for each of the first
    [n] columns it opens the file once more and prints the column's name with
    the number of its distinct values, which is at most the number of rows
    after the header. *)
Theorem column_counts_distinct path header first body (n : nat) k :
  columns k = Some header →
  fs W path = Some (first :: body) →
  (n ≤ length header)%nat →
  Forall (λ row, (n ≤ length row)%nat) (csv_reader W body) →
  column_counts W path n k
  = (Ok (zip (take n header)
           ((λ i, size (column_values W (first :: body) i)) <$> seq 0 n)),
     with_calls k (replicate n (Open path)))
  ∧ ∀ i, (size (column_values W (first :: body) i)
          ≤ length (csv_reader W body))%nat.
Proof.
  intros Hcolumns Hfs Hheader Hrows. split.
  - unfold column_counts.
    by rewrite (column_counts_from path header first body n 0 [] k).
  - intros i. unfold column_values. cbn [tail].
    etrans; [apply size_list_to_set_le|]. apply length_omap_le.
Qed.

End Cell11.

Lemma column_counts_distinct_example :
  (column_counts (Samples.calm : world CrimeReport.sql)
     CrimeReport.boston_csv 2
     {| conn := None; cur := None;
        columns := Some ["incident_number"; "offense_code"];
        connections := 0; calls := [] |}).1
  = Ok [("incident_number", 3%nat); ("offense_code", 3%nat)].
Proof.
  rewrite (proj1 (column_counts_distinct
                    (Samples.calm : world CrimeReport.sql)
                    CrimeReport.boston_csv
                    ["incident_number"; "offense_code"]
                    (hd "" Samples.boston_lines)
                    (tail Samples.boston_lines) 2
                    {| conn := None; cur := None;
                       columns := Some ["incident_number"; "offense_code"];
                       connections := 0; calls := [] |}
                    eq_refl eq_refl ltac:(cbn; lia)
                    ltac:(apply (bool_decide_unpack _); vm_compute;
                          exact I))).
  vm_compute. reflexivity.
Defined.

Section Cell13.
Context {sql : Type} (W : world sql).
Implicit Types (k : kernel sql).

(** The figure cell 13 prints is the length of a longest description of the
    file: on a file whose rows all have the description column, the cell
    reads the file once and finds a number that no description exceeds and
    that some description reaches; it is 0 when the file has no row after
    the header. *)
Theorem longest_description_fits path header body k :
  fs W path = Some (header :: body) →
  Forall (λ row, (2 < length row)%nat) (csv_reader W body) →
  ∃ n,
    longest_description W path k = (Ok n, with_calls k [Open path])
    ∧ (∀ row d, row ∈ csv_reader W body → row !! 2%nat = Some d →
         (String.length d ≤ n)%nat)
    ∧ (csv_reader W body ≠ [] →
       ∃ row d, row ∈ csv_reader W body ∧ row !! 2%nat = Some d
                ∧ String.length d = n)
    ∧ (csv_reader W body = [] → n = 0%nat).
Proof.
  intros Hfs Hrows.
  exists (max_length (elements (column_values W (header :: body) 2))).
  assert (∀ d, d ∈ elements (column_values W (header :: body) 2)
               ↔ ∃ row, row ∈ csv_reader W body ∧ row !! 2%nat = Some d)
    as Hin.
  { intros d. by rewrite elem_of_elements, elem_of_column_values. }
  split_and!.
  - unfold longest_description. rewrite bind_eq.
    by rewrite (get_col_set_column W path header body 2 k Hfs Hrows).
  - intros row d Hrow Hd. rewrite max_length_max_list.
    apply max_list_elem_of_le, list_elem_of_fmap. exists d. split; [done|].
    apply Hin. by exists row.
  - intros Hne. rewrite max_length_max_list.
    assert (∃ row, row ∈ csv_reader W body) as [row Hrow].
    { destruct (csv_reader W body) as [|row rows]; [done|]. exists row. left. }
    destruct (lookup_lt_is_Some_2 row 2) as [d0 Hd0].
    { by apply (proj1 (Forall_forall _ _) Hrows). }
    assert (d0 ∈ elements (column_values W (header :: body) 2)) as Hd0in.
    { apply Hin. by exists row. }
    set (lengths := String.length
                    <$> elements (column_values W (header :: body) 2)).
    assert (max_list lengths ∈ lengths) as Hmax.
    { apply max_list_elem_of. intros Hnil%fmap_nil_inv.
      rewrite Hnil in Hd0in. by apply elem_of_nil in Hd0in. }
    apply list_elem_of_fmap in Hmax as (d & Hlen & Hd).
    apply Hin in Hd as (row' & Hrow' & Hd').
    by exists row', d.
  - intros Hnil. unfold column_values.
    change (tail (header :: body)) with body. by rewrite Hnil.
Qed.

End Cell13.

Section Cell15.
Context {sql : Type} (W : world sql).
Implicit Types (k : kernel sql).

(** The loop of cell 15 converts every code, and stops at the first that is
    no integer. *)
Lemma code_loop (codes : list string) (range : Z * Z) k :
  for_each codes
    (λ range code,
       match py_int W code with
       | Some c => mret (code_step range c)
       | None => raise ValueError
       end) range k
  = (match mapM (py_int W) codes with
     | Some cs => Ok (foldl code_step range cs)
     | None => Raise ValueError
     end, k).
Proof.
  revert range. induction codes as [|code codes IH]; intros range; [done|].
  cbn [for_each]. rewrite bind_eq. cbn [mapM].
  destruct (py_int W code) as [c|]; [|done].
  rewrite ret_eq, IH. cbn. by destruct (mapM (py_int W) codes).
Qed.

(** What the loop keeps: the pair only widens, it covers every code seen,
    and each end is the start value or a code. *)
Lemma code_step_fold (cs : list Z) (range : Z * Z) :
  let out := foldl code_step range cs in
  out.1 ≤ range.1 ∧ range.2 ≤ out.2
  ∧ (∀ c, c ∈ cs → out.1 ≤ c ≤ out.2)
  ∧ (out.1 = range.1 ∨ out.1 ∈ cs)
  ∧ (out.2 = range.2 ∨ out.2 ∈ cs).
Proof.
  revert range. induction cs as [|c cs IH]; intros range; cbn zeta.
  - cbn. split_and!; [lia|lia| |by left|by left].
    intros c Hc. by apply elem_of_nil in Hc.
  - cbn [foldl]. specialize (IH (code_step range c)). cbn zeta in IH.
    destruct IH as (Hlo & Hhi & Hcover & Hmin & Hmax).
    assert ((code_step range c).1 ≤ range.1 ∧ (code_step range c).1 ≤ c
            ∧ ((code_step range c).1 = range.1 ∨ (code_step range c).1 = c)
            ∧ range.2 ≤ (code_step range c).2 ∧ c ≤ (code_step range c).2
            ∧ ((code_step range c).2 = range.2
               ∨ (code_step range c).2 = c))
      as (H1 & H2 & H3 & H4 & H5 & H6).
    { unfold code_step. cbn. repeat case_bool_decide; lia. }
    split_and!.
    + lia.
    + lia.
    + intros c' [-> | Hc']%elem_of_cons; [lia|]. by apply Hcover.
    + destruct Hmin as [-> | Hmin]; [|right; by right].
      destruct H3 as [-> | ->]; [by left|right; left].
    + destruct Hmax as [-> | Hmax]; [|right; by right].
      destruct H6 as [-> | ->]; [by left|right; left].
Qed.

(** Cell 15 on a file whose offense codes are all integers: it reads the
    file once and ends with a pair [(min_code, max_code)] that encloses every
    code, with [min_code] at most 10000 and [max_code] at least 0.  Each end
    is a code of the file or the value the loop started from: [min_code] is
    10000 when every code is larger, [max_code] is 0 when no code is
    positive. *)
Theorem code_range_encloses path header body k :
  fs W path = Some (header :: body) →
  Forall (λ row, (1 < length row)%nat) (csv_reader W body) →
  (∀ code, code ∈ column_values W (header :: body) 1 →
     is_Some (py_int W code)) →
  ∃ min_code max_code,
    min_max_code W path k
    = (Ok (min_code, max_code), with_calls k [Open path])
    ∧ min_code ≤ 10000 ∧ 0 ≤ max_code
    ∧ (∀ code c, code ∈ column_values W (header :: body) 1 →
         py_int W code = Some c → min_code ≤ c ≤ max_code)
    ∧ (min_code = 10000
       ∨ ∃ code, code ∈ column_values W (header :: body) 1
                 ∧ py_int W code = Some min_code)
    ∧ (max_code = 0
       ∨ ∃ code, code ∈ column_values W (header :: body) 1
                 ∧ py_int W code = Some max_code).
Proof.
  intros Hfs Hrows Hint.
  set (codes := column_values W (header :: body) 1) in *.
  set (cs := omap (py_int W) (elements codes)).
  assert (mapM (py_int W) (elements codes) = Some cs) as Hcs.
  { apply mapM_omap, Forall_forall. intros code Hcode.
    by apply Hint, elem_of_elements. }
  assert (∀ c, c ∈ cs ↔ ∃ code, code ∈ codes ∧ py_int W code = Some c)
    as Hin.
  { intros c. unfold cs. rewrite list_elem_of_omap.
    by setoid_rewrite elem_of_elements. }
  destruct (code_step_fold cs (10000, 0))
    as (Hlo & Hhi & Hcover & Hmin & Hmax).
  destruct (foldl code_step (10000, 0) cs) as [min_code max_code] eqn:Hout.
  exists min_code, max_code. cbn [fst snd] in *. split_and!.
  - unfold min_max_code. rewrite bind_eq.
    rewrite (get_col_set_column W path header body 1 k Hfs Hrows).
    unfold code_range. fold codes. by rewrite code_loop, Hcs, Hout.
  - done.
  - done.
  - intros code c Hcode Hc. apply Hcover, Hin. by exists code.
  - destruct Hmin as [-> | Hmin]; [by left|right]. by apply Hin.
  - destruct Hmax as [-> | Hmax]; [by left|right]. by apply Hin.
Qed.

(** Cell 15 on a file with an offense code that is no integer: [int(code)]
    raises ValueError, whatever the order in which the set is walked. *)
Theorem code_range_ValueError path header body k code :
  fs W path = Some (header :: body) →
  Forall (λ row, (1 < length row)%nat) (csv_reader W body) →
  code ∈ column_values W (header :: body) 1 →
  py_int W code = None →
  min_max_code W path k = (Raise ValueError, with_calls k [Open path]).
Proof.
  intros Hfs Hrows Hcode Hint. unfold min_max_code. rewrite bind_eq.
  rewrite (get_col_set_column W path header body 1 k Hfs Hrows).
  unfold code_range. rewrite code_loop.
  destruct (mapM (py_int W) (elements (column_values W (header :: body) 1)))
    as [cs|] eqn:Hcs; [|done].
  assert (is_Some (py_int W code)) as [c Hc]; [|congruence].
  assert (is_Some
            (mapM (py_int W)
               (elements (column_values W (header :: body) 1)))) as Hsome
    by (by rewrite Hcs).
  apply mapM_is_Some in Hsome.
  apply (proj1 (Forall_forall _ _) Hsome). by apply elem_of_elements.
Qed.

End Cell15.

Lemma longest_description_fits_example :
  ∃ n,
    longest_description (Samples.calm : world CrimeReport.sql)
      CrimeReport.boston_csv fresh_kernel
    = (Ok n, with_calls fresh_kernel [Open CrimeReport.boston_csv])
    ∧ (String.length "TOWED MOTOR VEHICLE" ≤ n)%nat.
Proof.
  destruct (longest_description_fits
              (Samples.calm : world CrimeReport.sql) CrimeReport.boston_csv
              (hd "" Samples.boston_lines) (tail Samples.boston_lines)
              fresh_kernel)
    as (n & Hrun & Hfits & _).
  - reflexivity.
  - apply (bool_decide_unpack _). vm_compute. exact I.
  - exists n. split; [exact Hrun|].
    apply (Hfits ["3"; "3410"; "TOWED MOTOR VEHICLE"; "2018-09-03"; "Monday";
                  "42.34658879"; "-71.07242943"]).
    + apply list_elem_of_further, list_elem_of_further, list_elem_of_here.
    + reflexivity.
Defined.

Lemma code_range_encloses_example :
  ∃ min_code max_code,
    min_max_code (Samples.calm : world CrimeReport.sql)
      CrimeReport.boston_csv fresh_kernel
    = (Ok (min_code, max_code),
       with_calls fresh_kernel [Open CrimeReport.boston_csv])
    ∧ min_code ≤ 1402 ≤ max_code.
Proof.
  destruct (code_range_encloses
              (Samples.calm : world CrimeReport.sql) CrimeReport.boston_csv
              (hd "" Samples.boston_lines) (tail Samples.boston_lines)
              fresh_kernel)
    as (min_code & max_code & Hrun & _ & _ & Hcover & _).
  - reflexivity.
  - apply (bool_decide_unpack _). vm_compute. exact I.
  - intros code Hcode. apply elem_of_column_values in Hcode
      as (row & Hrow & Hcode).
    vm_compute in Hrow.
    repeat (apply elem_of_cons in Hrow as [-> | Hrow];
            [injection Hcode as <-; by eexists|]).
    by apply elem_of_nil in Hrow.
  - exists min_code, max_code. split; [exact Hrun|].
    apply (Hcover "1402"); [|reflexivity].
    apply elem_of_column_values.
    exists ["2"; "1402"; "VANDALISM"; "2018-08-21"; "Tuesday"; "42.30682138";
            "-71.06030035"].
    split; [|reflexivity]. vm_compute.
    apply list_elem_of_further, list_elem_of_here.
Defined.

Lemma code_range_ValueError_example :
  min_max_code (MoreSamples.shelf : world CrimeReport.sql) "data/damaged.csv"
    fresh_kernel
  = (Raise ValueError, with_calls fresh_kernel [Open "data/damaged.csv"]).
Proof.
  apply (code_range_ValueError
           (MoreSamples.shelf : world CrimeReport.sql) "data/damaged.csv"
           (hd "" MoreSamples.damaged_lines)
           (tail MoreSamples.damaged_lines) fresh_kernel "n/a").
  - reflexivity.
  - apply (bool_decide_unpack _). vm_compute. exact I.
  - apply elem_of_column_values.
    exists ["2"; "n/a"; "VANDALISM"; "2018-08-21"; "Tuesday"; "42.30682138";
            "-71.06030035"].
    split; [|reflexivity]. vm_compute.
    apply list_elem_of_further, list_elem_of_here.
  - reflexivity.
Defined.

End ExplorationFacts.

(** ** What the crime-report notebook leaves on the server *)

Module ProvisioningFacts.
Import Driver DriverFacts CrimeReport Provisioning PrivilegeFacts.

Section Prefixes.
Context (W : world sql).

(** A run's calls are the first calls of the run in which nothing fails. *)
Lemma calls_take r k :
  run W notebook = (r, k) →
  calls k = take (length (calls k)) (calls (quiet_run W notebook)).
Proof.
  intros Hrun. destruct (run_obeys _ _ _ _ Hrun) as ([rest Hrest] & _).
  rewrite Hrest. by rewrite take_app_length.
Qed.

(** So are those of its calls that did not fail: only the last can have
    failed. *)
Lemma succeeded_take r k :
  run W notebook = (r, k) →
  ∃ n, succeeded W [] (calls k) = take n (calls (quiet_run W notebook)).
Proof.
  intros Hrun. destruct (run_obeys _ _ _ _ Hrun) as ([rest Hrest] & Hu & _).
  destruct (succeeded_unhandled W [] (calls k) _ Hu)
    as [-> | (pre & c & Hk & ->)].
  - exists (length (calls k)). by apply (calls_take r).
  - exists (length pre). rewrite Hrest, Hk, <- !app_assoc.
    by rewrite take_app_length.
Qed.

(** Until cell 38 commits, only the statements sent on the [postgres]
    sessions, the first six, have taken effect. *)
Lemma uncommitted_prefix (cat0 : catalog) (n : nat) :
  Commit 2 ∉ take n (calls (quiet_run W notebook)) →
  catalog_after (take n (calls (quiet_run W notebook))) cat0
  = committed_early
      (take 6 (sent (take n (calls (quiet_run W notebook))))) cat0.
Proof.
  intros Hno.
  do 49 (destruct n as [|n]; [reflexivity|]).
  exfalso. apply Hno. apply list_elem_of_lookup. by exists 48%nat.
Qed.

End Prefixes.

(** A run whose commit of cell 38 does not succeed (it ends before, or the
    commit itself fails) leaves on the server only what those statements of
    cells 2 and 4 did that succeeded, in autocommit mode: the schema, the
    type, the table, its rows and every REVOKE, GRANT, group and user of
    cells 6 to 36 are lost. *)
Theorem nothing_before_commit (W : world sql) (cat0 : catalog) r k :
  run W notebook = (r, k) →
  Commit 2 ∉ succeeded W [] (calls k) →
  catalog_after (succeeded W [] (calls k)) cat0
  = committed_early (take 6 (sent (succeeded W [] (calls k)))) cat0.
Proof.
  intros Hrun Hno. destruct (succeeded_take W r k Hrun) as [n Hn].
  rewrite Hn in Hno |- *. by apply uncommitted_prefix.
Qed.

Section Holders.
Context (cat0 : catalog).

Lemma connect_granted g :
  granted (provision cat0) g CONNECT (Database "crime_db")
  = bool_decide (g = ROLE "readonly" ∨ g = ROLE "readwrite").
Proof. catalog_cases. Qed.

Lemma members_of_readwrite role :
  member (provision cat0) "readwrite" role
  = bool_decide (role = "data_scientist").
Proof. catalog_cases. Qed.

Lemma members_of_data_scientist role :
  member (provision cat0) "data_scientist" role = false.
Proof. catalog_cases. Qed.

Lemma groups_of_data_analyst group :
  member (provision cat0) group "data_analyst"
  = bool_decide (group = "readonly").
Proof. catalog_cases. Qed.

Lemma groups_of_data_scientist group :
  member (provision cat0) group "data_scientist"
  = bool_decide (group = "readwrite").
Proof. catalog_cases. Qed.

Lemma public_database p :
  granted (provision cat0) PUBLIC p (Database "crime_db") = false.
Proof. destruct p; catalog_cases. Qed.

Lemma public_schema p :
  granted (provision cat0) PUBLIC p (Schema "crime_db" "public") = false.
Proof. destruct p; catalog_cases. Qed.

(** On an object that only the two groups have grants on, a role holds a
    privilege when it is the group that has it or the user put into that
    group. *)
Lemma holds_through_groups p o role :
  granted (provision cat0) PUBLIC p o = false →
  (∀ name, granted (provision cat0) (ROLE name) p o = true →
           name = "readonly" ∨ name = "readwrite") →
  holds (provision cat0) p o role
  ↔ (role = "readonly" ∨ role = "data_analyst")
    ∧ granted (provision cat0) (ROLE "readonly") p o = true
    ∨ (role = "readwrite" ∨ role = "data_scientist")
      ∧ granted (provision cat0) (ROLE "readwrite") p o = true.
Proof.
  intros Hpublic Hroles. split.
  - induction 1 as [role Hown|role Hown|role group Hmember _ IH].
    + destruct (Hroles role Hown) as [-> | ->]; [left|right]; split; auto.
    + congruence.
    + destruct IH as [[[-> | ->] Hg] | [[-> | ->] Hg]].
      * rewrite members_of_readonly in Hmember.
        case_bool_decide; [subst|done]. left. split; auto.
      * by rewrite members_of_data_analyst in Hmember.
      * rewrite members_of_readwrite in Hmember.
        case_bool_decide; [subst|done]. right. split; auto.
      * by rewrite members_of_data_scientist in Hmember.
  - intros [[[-> | ->] Hg] | [[-> | ->] Hg]].
    + by apply holds_own.
    + apply (holds_group _ _ _ _ "readonly"); [|by apply holds_own].
      rewrite members_of_readonly. by apply bool_decide_eq_true_2.
    + by apply holds_own.
    + apply (holds_group _ _ _ _ "readwrite"); [|by apply holds_own].
      rewrite members_of_readwrite. by apply bool_decide_eq_true_2.
Qed.

End Holders.

Lemma provisioned_role_cases name :
  name ∈ provisioned_roles →
  name = "readonly" ∨ name = "readwrite" ∨ name = "data_analyst"
  ∨ name = "data_scientist".
Proof.
  unfold provisioned_roles. rewrite !elem_of_cons, elem_of_nil. tauto.
Qed.

(** After a run that completes, PUBLIC holds nothing on the database
    crime_db and on its schema public: what a new database gives to PUBLIC
    there, and what template1 had granted on its schema public, is revoked
    by cell 31, and nothing is granted to PUBLIC afterwards. *)
Theorem public_revoked (W : world sql) (cat0 : catalog) k p o :
  run W notebook = (Ok (), k) →
  o ∈ [Database "crime_db"; Schema "crime_db" "public"] →
  granted (catalog_after (calls k) cat0) PUBLIC p o = false.
Proof.
  intros Hrun Ho. destruct (run_obeys _ _ _ _ Hrun) as (_ & _ & Hok).
  rewrite (Hok eq_refl), catalog_after_quiet.
  apply elem_of_cons in Ho as [-> | Ho]; [apply public_database|].
  apply list_elem_of_singleton in Ho as ->. apply public_schema.
Qed.

(** After a run that completes, the two groups and the two users can
    connect to crime_db, the users through their groups only: a user has no
    grant of its own, and it is a member of its group and of nothing
    else. *)
Theorem connect_through_groups (W : world sql) (cat0 : catalog) k :
  run W notebook = (Ok (), k) →
  (∀ role, role ∈ provisioned_roles →
     holds (catalog_after (calls k) cat0) CONNECT (Database "crime_db") role)
  ∧ (∀ user group,
       (user, group) ∈ [("data_analyst", "readonly");
                        ("data_scientist", "readwrite")] →
       granted (catalog_after (calls k) cat0) (ROLE user) CONNECT
         (Database "crime_db") = false
       ∧ ∀ g, member (catalog_after (calls k) cat0) g user = true ↔ g = group).
Proof.
  intros Hrun. destruct (run_obeys _ _ _ _ Hrun) as (_ & _ & Hok).
  rewrite (Hok eq_refl), catalog_after_quiet. split.
  - intros role Hrole. apply holds_through_groups.
    + apply public_database.
    + intros name. rewrite connect_granted, bool_decide_eq_true. naive_solver.
    + rewrite !connect_granted, !bool_decide_eq_true.
      apply provisioned_role_cases in Hrole. naive_solver.
  - intros user group Hpair.
    apply elem_of_cons in Hpair as [[= -> ->] | Hpair];
      [|apply list_elem_of_singleton in Hpair as [= -> ->]].
    + split.
      * rewrite connect_granted. apply bool_decide_eq_false_2. naive_solver.
      * intros g. by rewrite groups_of_data_analyst, bool_decide_eq_true.
    + split.
      * rewrite connect_granted. apply bool_decide_eq_false_2. naive_solver.
      * intros g. by rewrite groups_of_data_scientist, bool_decide_eq_true.
Qed.

(** After a run that completes, readonly and its user data_analyst hold
    SELECT on the table and nothing more; readwrite and its user
    data_scientist hold SELECT, INSERT, DELETE and UPDATE and nothing
    more. *)
Theorem table_holders (W : world sql) (cat0 : catalog) k role p :
  run W notebook = (Ok (), k) →
  role ∈ provisioned_roles →
  holds (catalog_after (calls k) cat0) p
    (Table "crime_db" "crimes" "boston_crimes") role
  ↔ (role = "readonly" ∨ role = "data_analyst") ∧ p = SELECT
    ∨ (role = "readwrite" ∨ role = "data_scientist")
      ∧ p ∈ [SELECT; INSERT; DELETE; UPDATE].
Proof.
  intros Hrun _. destruct (run_obeys _ _ _ _ Hrun) as (_ & _ & Hok).
  rewrite (Hok eq_refl), catalog_after_quiet.
  rewrite holds_through_groups.
  - rewrite !table_granted, !bool_decide_eq_true. naive_solver.
  - rewrite table_granted. apply bool_decide_eq_false_2. naive_solver.
  - intros name. rewrite table_granted, bool_decide_eq_true. naive_solver.
Qed.

Lemma public_revoked_example :
  granted
    (Provisioning.committed_early on_postgres Samples.empty_catalog)
    PUBLIC CONNECT (Database "crime_db") = true
  ∧ granted
      (catalog_after (calls (run Samples.calm notebook).2)
         Samples.empty_catalog)
      PUBLIC CONNECT (Database "crime_db") = false.
Proof.
  split; [reflexivity|].
  apply (public_revoked Samples.calm Samples.empty_catalog
           (run Samples.calm notebook).2).
  - vm_compute. reflexivity.
  - left.
Defined.

Lemma connect_through_groups_example :
  holds
    (catalog_after (calls (run Samples.calm notebook).2)
       Samples.empty_catalog)
    CONNECT (Database "crime_db") "data_analyst"
  ∧ granted
      (catalog_after (calls (run Samples.calm notebook).2)
         Samples.empty_catalog)
      (ROLE "data_analyst") CONNECT (Database "crime_db") = false.
Proof.
  destruct (connect_through_groups Samples.calm Samples.empty_catalog
              (run Samples.calm notebook).2) as [Hholds Husers].
  - vm_compute. reflexivity.
  - split.
    + apply Hholds. apply (bool_decide_unpack _). vm_compute. exact I.
    + exact (proj1 (Husers "data_analyst" "readonly"
                      (list_elem_of_here _ _))).
Defined.

Lemma table_holders_example :
  holds
    (catalog_after (calls (run Samples.calm notebook).2)
       Samples.empty_catalog)
    SELECT (Table "crime_db" "crimes" "boston_crimes") "data_analyst"
  ∧ ¬ holds
        (catalog_after (calls (run Samples.calm notebook).2)
           Samples.empty_catalog)
        INSERT (Table "crime_db" "crimes" "boston_crimes") "data_analyst".
Proof.
  split.
  - apply (table_holders Samples.calm Samples.empty_catalog
             (run Samples.calm notebook).2 "data_analyst" SELECT).
    + vm_compute. reflexivity.
    + apply (bool_decide_unpack _). vm_compute. exact I.
    + left. split; [by right|done].
  - intros Hholds.
    apply (table_holders Samples.calm Samples.empty_catalog
             (run Samples.calm notebook).2 "data_analyst" INSERT) in Hholds.
    + destruct Hholds as [[_ [=]] | [[[=] | [=]] _]].
    + vm_compute. reflexivity.
    + apply (bool_decide_unpack _). vm_compute. exact I.
Defined.

Section Past.

(** Unfold the statements' effects on two catalogs and decide the tests. *)
Ltac provision_cases :=
  unfold provision, on_postgres, on_crime_db;
  cbn [foldl apply_sql granted member table_exists names in_database
       in_schema in_template];
  unfold listed;
  repeat (case_bool_decide; simplify_eq; cbn [andb orb]);
  try done; try by (exfalso; set_solver).

Lemma table_exists_determined cat0 cat1 name :
  table_exists (provision cat0) (Table "crime_db" "crimes" name)
  = table_exists (provision cat1) (Table "crime_db" "crimes" name).
Proof. provision_cases. Qed.

Lemma granted_determined_object cat0 cat1 g p o :
  made_by_run o = true →
  granted (provision cat0) g p o = granted (provision cat1) g p o.
Proof.
  intros Hin. destruct o; cbn [made_by_run] in Hin;
    repeat (case_bool_decide; [subst|done]); provision_cases.
Qed.

Lemma granted_determined_role cat0 cat1 name p o :
  name ∈ provisioned_roles →
  granted (provision cat0) (ROLE name) p o
  = granted (provision cat1) (ROLE name) p o.
Proof.
  intros [-> | [-> | [-> | ->]]]%provisioned_role_cases;
    destruct o; provision_cases.
Qed.

Lemma member_determined cat0 cat1 group role :
  group ∈ provisioned_roles ∨ role ∈ provisioned_roles →
  member (provision cat0) group role = member (provision cat1) group role.
Proof.
  intros [[-> | [-> | [-> | ->]]]%provisioned_role_cases
         | [-> | [-> | [-> | ->]]]%provisioned_role_cases];
    provision_cases.
Qed.

Lemma granted_frame cat0 g p o :
  in_database "crime_db" o = false →
  (∀ name, g = ROLE name → name ∉ provisioned_roles) →
  granted (provision cat0) g p o = granted cat0 g p o.
Proof.
  intros Hout Hg.
  assert (g ≠ ROLE "readonly" ∧ g ≠ ROLE "readwrite"
          ∧ g ≠ ROLE "data_analyst" ∧ g ≠ ROLE "data_scientist")
    as (H1 & H2 & H3 & H4).
  { unfold provisioned_roles in Hg. split_and!; intros ->;
      (eapply Hg; [done|]); set_solver. }
  clear Hg. destruct o; cbn [in_database] in Hout;
    (case_bool_decide; [done|]); provision_cases.
Qed.

Lemma member_frame cat0 group role :
  group ∉ provisioned_roles → role ∉ provisioned_roles →
  member (provision cat0) group role = member cat0 group role.
Proof.
  unfold provisioned_roles. rewrite !not_elem_of_cons.
  intros (? & ? & ? & ? & _) (? & ? & ? & ? & _). provision_cases.
Qed.

Lemma table_exists_frame cat0 o :
  in_database "crime_db" o = false →
  table_exists (provision cat0) o = table_exists cat0 o.
Proof.
  intros Hout. destruct o; cbn [in_database] in Hout;
    (case_bool_decide; [done|]); provision_cases.
Qed.

End Past.

(** The DROP preamble makes the outcome independent of what was there: two
    runs that complete, from any two catalogs, leave the same grants on the
    objects the run makes anew (the database crime_db, its schema crimes and
    the tables in it) and to the four roles, the same memberships of and in
    the four roles, and the same tables in the schema crimes.  Run All can
    be repeated with the same result. *)
Theorem run_forgets_the_past (W W' : world sql) (cat0 cat1 : catalog) k k' :
  run W notebook = (Ok (), k) →
  run W' notebook = (Ok (), k') →
  (∀ g p o,
     made_by_run o = true
     ∨ (∃ name, g = ROLE name ∧ name ∈ provisioned_roles) →
     granted (catalog_after (calls k) cat0) g p o
     = granted (catalog_after (calls k') cat1) g p o)
  ∧ (∀ group role,
       group ∈ provisioned_roles ∨ role ∈ provisioned_roles →
       member (catalog_after (calls k) cat0) group role
       = member (catalog_after (calls k') cat1) group role)
  ∧ (∀ name,
       table_exists (catalog_after (calls k) cat0)
         (Table "crime_db" "crimes" name)
       = table_exists (catalog_after (calls k') cat1)
           (Table "crime_db" "crimes" name)).
Proof.
  intros Hrun Hrun'.
  destruct (run_obeys _ _ _ _ Hrun) as (_ & _ & Hok).
  destruct (run_obeys _ _ _ _ Hrun') as (_ & _ & Hok').
  rewrite (Hok eq_refl), (Hok' eq_refl), !catalog_after_quiet.
  split_and!.
  - intros g p o [Hmade | (name & -> & Hname)].
    + by apply granted_determined_object.
    + by apply granted_determined_role.
  - intros group role. apply member_determined.
  - intros name. apply table_exists_determined.
Qed.

(** A run that completes changes nothing outside its own ground: the
    grants on objects of other databases to other roles, the memberships
    among other roles and the tables of other databases are as before. *)
Theorem run_leaves_the_rest (W : world sql) (cat0 : catalog) k :
  run W notebook = (Ok (), k) →
  (∀ g p o,
     in_database "crime_db" o = false →
     (∀ name, g = ROLE name → name ∉ provisioned_roles) →
     granted (catalog_after (calls k) cat0) g p o = granted cat0 g p o)
  ∧ (∀ group role,
       group ∉ provisioned_roles → role ∉ provisioned_roles →
       member (catalog_after (calls k) cat0) group role
       = member cat0 group role)
  ∧ (∀ o,
       in_database "crime_db" o = false →
       table_exists (catalog_after (calls k) cat0) o = table_exists cat0 o).
Proof.
  intros Hrun. destruct (run_obeys _ _ _ _ Hrun) as (_ & _ & Hok).
  rewrite (Hok eq_refl), !catalog_after_quiet. split_and!.
  - intros g p o. apply granted_frame.
  - intros group role. apply member_frame.
  - intros o. apply table_exists_frame.
Qed.

Lemma run_forgets_the_past_example :
  granted
    (catalog_after (calls (run Samples.calm notebook).2)
       Samples.empty_catalog)
    (ROLE "readwrite") USAGE (Schema "crime_db" "crimes")
  = granted
      (catalog_after (calls (run MoreSamples.shelf notebook).2)
         MoreSamples.open_catalog)
      (ROLE "readwrite") USAGE (Schema "crime_db" "crimes").
Proof.
  refine (proj1 (run_forgets_the_past Samples.calm MoreSamples.shelf
                   Samples.empty_catalog MoreSamples.open_catalog
                   (run Samples.calm notebook).2
                   (run MoreSamples.shelf notebook).2 _ _) _ _ _ _).
  - vm_compute. reflexivity.
  - vm_compute. reflexivity.
  - by left.
Defined.

Lemma run_leaves_the_rest_example :
  granted
    (catalog_after (calls (run Samples.calm notebook).2)
       MoreSamples.open_catalog)
    (ROLE "auditor") SELECT (Table "payroll" "public" "salaries")
  = true.
Proof.
  refine (proj1 (run_leaves_the_rest Samples.calm MoreSamples.open_catalog
                   (run Samples.calm notebook).2 _)
            (ROLE "auditor") SELECT (Table "payroll" "public" "salaries")
            _ _).
  - vm_compute. reflexivity.
  - reflexivity.
  - intros name [= <-]. unfold provisioned_roles. set_solver.
Defined.

(** In the run in which nothing fails, DROP DATABASE and CREATE DATABASE
    go through connections that are in autocommit mode. *)
Lemma quiet_database_statements (W : world sql) (cat0 : catalog) i c q :
  calls (quiet_run W notebook) !! i = Some (Execute c q) →
  outside_transaction q = true →
  c ∈ autocommit (server_after (take i (calls (quiet_run W notebook))) cat0).
Proof.
  intros Hlookup Hq.
  do 60 (destruct i as [|i];
         [vm_compute in Hlookup;
          first [ discriminate Hlookup
                | injection Hlookup as <- <-;
                  first [ discriminate Hq
                        | apply (bool_decide_unpack _); vm_compute;
                          exact I ] ]|]).
  vm_compute in Hlookup. discriminate Hlookup.
Qed.

(** Whenever a run sends DROP DATABASE or CREATE DATABASE, the connection
    that carries it was put in autocommit mode before: neither statement is
    ever sent inside a transaction, where PostgreSQL refuses it. *)
Theorem database_statements_in_autocommit (W : world sql) (cat0 : catalog)
    r k i c q :
  run W notebook = (r, k) →
  calls k !! i = Some (Execute c q) →
  outside_transaction q = true →
  c ∈ autocommit (server_after (take i (calls k)) cat0).
Proof.
  intros Hrun Hlookup Hq.
  destruct (run_obeys _ _ _ _ Hrun) as ([rest Hrest] & _).
  assert (i < length (calls k))%nat as Hi by by eapply lookup_lt_Some.
  replace (take i (calls k))
    with (take i (calls (quiet_run W notebook)))
    by (rewrite Hrest; apply take_app_le; lia).
  apply (quiet_database_statements W cat0 i c q); [|done].
  rewrite Hrest. by apply lookup_app_l_Some.
Qed.

Lemma database_statements_in_autocommit_example :
  (1%nat ∈ autocommit
             (server_after
                (take 12 (calls (run Samples.denied notebook).2))
                Samples.empty_catalog)).
Proof.
  apply (database_statements_in_autocommit Samples.denied
           Samples.empty_catalog (run Samples.denied notebook).1
           (run Samples.denied notebook).2 12 1
           (CreateDatabase "crime_db")).
  - vm_compute. reflexivity.
  - reflexivity.
  - reflexivity.
Defined.

Lemma nothing_before_commit_example :
  (run Samples.denied notebook).1
  = Raise (DatabaseError "permission denied to create database")
  ∧ granted
      (catalog_after
         (succeeded Samples.denied []
            (calls (run Samples.denied notebook).2))
         Samples.empty_catalog)
      PUBLIC CONNECT (Database "crime_db")
    = false.
Proof.
  split; [vm_compute; reflexivity|].
  rewrite (nothing_before_commit Samples.denied Samples.empty_catalog
             (run Samples.denied notebook).1
             (run Samples.denied notebook).2).
  - vm_compute. reflexivity.
  - vm_compute. reflexivity.
  - intros Hin. vm_compute in Hin.
    repeat (apply elem_of_cons in Hin as [Hin | Hin]; [discriminate|]).
    by apply elem_of_nil in Hin.
Defined.

End ProvisioningFacts.

(** ** The views of the Chinook notebook *)

Module ViewFacts.
Import Driver DriverFacts NotebookFacts ChinookNotebook Views.

Section Runs.
Context (V : world sql).

Local Abbreviation connect := (Connect 0 (Url chinook_db)).
Local Abbreviation scripts := (script 0 <$> tail notebook).

(** In every cell, a CREATE VIEW stands right after the DROP VIEW IF EXISTS
    of the same view. *)
Lemma chinook_drops_first :
  Forall (λ script : list (call sql),
            ∀ a c b d, script = a ++ c :: b → drop_before c = Some d →
                       ∃ a', a = a' ++ [d]) scripts.
Proof.
  repeat (constructor;
          [intros a c b d Heq Hdrop;
           repeat (destruct a as [|? a];
                   [injection Heq as <- <-;
                    first [ discriminate Hdrop
                          | injection Hdrop as <-;
                            lazymatch goal with
                            | |- ∃ a', ?l = _ => by exists (removelast l)
                            end ]
                   |injection Heq as <- Heq]);
           by destruct a|]).
  constructor.
Qed.

(** A call of a run, by its place. *)
Lemma lookup_split {A} (l : list A) (i : nat) (x : A) :
  l !! i = Some x → l = take i l ++ x :: drop (S i) l.
Proof. intros Hi. by rewrite (take_drop_middle l i x Hi). Qed.

End Runs.

(** Whatever views the database has and whichever statements fail, a CREATE
    VIEW of the Chinook notebook is sent right after a DROP VIEW IF EXISTS of
    the same view that succeeded: at that moment no view of that name
    exists, so that no CREATE VIEW fails because its view is there already.
    A run in which no call fails leaves the views that were there and the two
    of the notebook. *)
Theorem views_created_afresh (V : world sql) (views : gset string) r k :
  run_magic V notebook = (r, k) →
  (∀ i c name,
     calls k !! i = Some (Execute c (CreateView name)) →
     name ∉ views_after V (take i (calls k)) views)
  ∧ ((∀ pre c post, calls k = pre ++ c :: post → failure V pre c = None) →
     views_after V (calls k) views
     = views ∪ {[ "order_by_country"; "stats_by_country" ]}).
Proof.
  intros Hrun.
  apply chinook_calls in Hrun as [[Hfail Hk] | (Hconnect & Hk & _)].
  - rewrite Hk. split.
    + intros [|[|i]] c name Hi; done.
    + intros Hnone. specialize (Hnone [] _ [] eq_refl).
      rewrite Hnone in Hfail. by destruct Hfail.
  - remember (magic_calls V [Connect 0 (Url chinook_db)]
                (script 0 <$> tail notebook)).1 as tr eqn:Htr.
    rewrite Hk. split.
    + intros [|i] c name Hi; [done|]. cbn [lookup list_lookup] in Hi.
      change ((Connect 0 (Url chinook_db) :: tr) !! S i) with (tr !! i) in Hi.
      apply lookup_split in Hi as Hsplit.
      assert (take i tr ++ Execute c (CreateView name) :: drop (S i) tr
              = (magic_calls V [Connect 0 (Url chinook_db)]
                   (script 0 <$> tail notebook)).1) as Hcalls
        by (by rewrite <- Htr, <- Hsplit).
      symmetry in Hcalls.
      destruct (magic_calls_guarded V drop_before _ _ _ _
                  (Execute c (DropViewIfExists name)) _
                  (chinook_drops_first) Hcalls eq_refl)
        as (pre' & Hpre & Hf).
      change (take (S i) (Connect 0 (Url chinook_db) :: tr))
        with (Connect 0 (Url chinook_db) :: take i tr).
      rewrite Hpre. unfold views_after.
      change (Connect 0 (Url chinook_db)
              :: pre' ++ [Execute c (DropViewIfExists name)])
        with (([Connect 0 (Url chinook_db)] ++ pre')
              ++ [Execute c (DropViewIfExists name)]).
      rewrite succeeded_app. cbn [succeeded]. rewrite app_nil_l, Hf.
      unfold sent. rewrite omap_app, foldl_app. cbn. set_solver.
    + intros Hnone.
      assert (tr = mjoin (script 0 <$> tail notebook)) as ->.
      { rewrite Htr. apply magic_calls_all. intros pre c post Hcalls.
        apply (Hnone (Connect 0 (Url chinook_db) :: pre) c post).
        by rewrite Htr, Hcalls. }
      unfold views_after. rewrite succeeded_all by (intros pre c post; apply Hnone).
      cbn. apply set_eq. intros x.
      destruct (decide (x = "order_by_country"));
        destruct (decide (x = "stats_by_country")); set_solver.
Qed.

Lemma views_created_afresh_example :
  views_after Samples.calm
    (calls (run_magic Samples.calm notebook).2)
    {[ "order_by_country"; "top_customers" ]}
  = ({[ "order_by_country"; "top_customers" ]}
     ∪ {[ "order_by_country"; "stats_by_country" ]} : gset string).
Proof.
  refine (proj2 (views_created_afresh Samples.calm
                   {[ "order_by_country"; "top_customers" ]}
                   (run_magic Samples.calm notebook).1
                   (run_magic Samples.calm notebook).2 _) _).
  - vm_compute. reflexivity.
  - intros pre c post Heq. destruct c as [| | | | | | | | |path]; try reflexivity.
    exfalso.
    assert (Open path ∈ calls (run_magic Samples.calm notebook).2) as Hin
      by (rewrite Heq; apply elem_of_app; right; apply list_elem_of_here).
    vm_compute in Hin.
    repeat (apply elem_of_cons in Hin as [Hin | Hin]; [discriminate|]).
    by apply elem_of_nil in Hin.
Defined.

End ViewFacts.
